(** * VAP-E simplified script executor: message dispatch and run lifecycle

  A shallow embedding of [src/scripts/ScriptCommunicator.ts]
  ([ScriptCommunicator.run]) and of the [ScriptResponder] class that the
  same file carries ([handleExitingMessage], [handleResponse],
  [respondToMessage]), together with the promise that
  [PythonRunner.runScript] wraps around a run.

  - JavaScript strings are sequences of UTF-16 code units.
  - The responder threads the run's mutable state (message history, the
    promise its [resolve]/[reject] hooks settle, the observable effects)
    through a small state-and-exception monad.
  - A response callback is the extension's code: a call of one makes hook
    calls, may write to the history array it is handed, and may throw;
    the responder calls it without a [try].
  - The communicator is a transition system over the events the interpreter
    handle emits; promise reactions ([then]/[catch]) run when the turn that
    settled the promise ends. *)

From Stdlib Require Import List NArith ZArith Bool Arith Lia String Ascii.
Import ListNotations.

Open Scope N_scope.

Set Warnings "-notation-for-abbreviation".

(** ** JavaScript strings *)

Module JsString.

(** A string value: its UTF-16 code units. *)
Definition jsstring := list N.

(** A literal of the source, written as a Rocq string (one unit per character). *)
Definition js (s : string) : jsstring :=
  List.map N_of_ascii (list_ascii_of_string s).

Fixpoint eqb (a b : jsstring) : bool :=
  match a, b with
  | [], [] => true
  | x :: a', y :: b' => (x =? y) && eqb a' b'
  | _, _ => false
  end.

(** ECMAScript [WhiteSpace] and [LineTerminator] code points, the ones
    [String.prototype.trim] strips: TAB, LF, VT, FF, CR, SP, NBSP,
    U+1680, U+2000..U+200A, LS, PS, U+202F, U+205F, U+3000, BOM. *)
Definition isWhiteSpace (c : N) : bool :=
  (c =? 9) || (c =? 10) || (c =? 11) || (c =? 12) || (c =? 13) ||
  (c =? 32) || (c =? 160) || (c =? 5760) ||
  ((8192 <=? c) && (c <=? 8202)) ||
  (c =? 8232) || (c =? 8233) || (c =? 8239) || (c =? 8287) ||
  (c =? 12288) || (c =? 65279).

Fixpoint trimStart (s : jsstring) : jsstring :=
  match s with
  | [] => []
  | c :: s' => if isWhiteSpace c then trimStart s' else s
  end.

Definition trimEnd (s : jsstring) : jsstring := rev (trimStart (rev s)).

(** [s.trim()] *)
Definition trim (s : jsstring) : jsstring := trimEnd (trimStart s).

Fixpoint startsWith (s prefix : jsstring) : bool :=
  match prefix, s with
  | [], _ => true
  | _ :: _, [] => false
  | x :: p', y :: s' => (x =? y) && startsWith s' p'
  end.

Definition endsWith (s suffix : jsstring) : bool :=
  startsWith (rev s) (rev suffix).

(** [s.includes(needle)] *)
Fixpoint includes (s needle : jsstring) : bool :=
  startsWith s needle ||
  match s with
  | [] => false
  | _ :: s' => includes s' needle
  end.

(** The line separator of the source, ['\n']. *)
Definition LF : N := 10.

(** [s.split(sep)] for a separator of one code unit: never empty, the
    pieces between consecutive separators, in order. *)
Fixpoint split (sep : N) (s : jsstring) : list jsstring :=
  match s with
  | [] => [[]]
  | c :: s' =>
      if c =? sep then [] :: split sep s'
      else match split sep s' with
           | [] => [[c]]
           | piece :: pieces => (c :: piece) :: pieces
           end
  end.

End JsString.
Import JsString.

(** ** JavaScript values, completions, promises *)

Inductive ErrorKind := GenericError | TypeError | SyntaxError.

(** The values that flow through the hooks of a run: [undefined], [null],
    strings, and error objects with their [message]. *)
Inductive JsValue :=
| JsUndefined
| JsNull
| JsStr (s : jsstring)
| JsErr (kind : ErrorKind) (message : jsstring).

(** [if (v)] *)
Definition truthy (v : JsValue) : bool :=
  match v with
  | JsUndefined | JsNull => false
  | JsStr s => negb (JsString.eqb s [])
  | JsErr _ _ => true
  end.

(** How an evaluation ends: normally with a value, or by a [throw]. *)
Inductive Completion (A : Type) :=
| Normal (a : A)
| Throw (e : JsValue).
Arguments Normal {A} a.
Arguments Throw {A} e.

(** Reading a property of [undefined] or [null] throws a TypeError; the
    model keeps the property's name as the error's message. *)
Definition cannotRead (property : string) : JsValue :=
  JsErr TypeError (js property).

(** [new RegExp(pattern)] on a pattern that is not a regular expression
    throws a SyntaxError; the model keeps the pattern as its message. *)
Definition invalidRegExp (pattern : jsstring) : JsValue :=
  JsErr SyntaxError pattern.

(** [err.message], as the log lines of [run] evaluate it. *)
Definition readMessage (err : JsValue) : Completion JsValue :=
  match err with
  | JsUndefined | JsNull => Throw (cannotRead "message")
  | JsStr _ => Normal JsUndefined
  | JsErr _ m => Normal (JsStr m)
  end.

Inductive PromiseState :=
| Pending
| Fulfilled (value : JsValue)
| Rejected (reason : JsValue).

(** A promise is settled once: [resolve] and [reject] on a settled promise
    do nothing. (No value of [JsValue] is a thenable.) *)
Definition settle (p outcome : PromiseState) : PromiseState :=
  match p with
  | Pending => outcome
  | _ => p
  end.

Definition isPending (p : PromiseState) : bool :=
  match p with Pending => true | _ => false end.

(** ** The responder's data: types/ResponseCallback.ts *)

(** The hooks a response callback is handed: [sendLogicMessage],
    [sendUIMessage], [resolve], [reject]. *)
Inductive HookCall :=
| SendLogicMessage (message : JsValue)
| SendUIMessage (channel : jsstring) (args : list JsValue)
| Resolve (result : JsValue)
| Reject (reason : JsValue).

Definition ArgumentMap := list (jsstring * JsValue).

(** What a callback does while it runs: a call on one of its hooks, or a
    write to the [logicMessages] array it was handed ([push], [pop],
    [splice], [length = 0], ...), which leaves the array holding
    [messages]. *)
Inductive CallbackStep :=
| Call (call : HookCall)
| WriteMessages (messages : list jsstring).

(** One call of a callback: what it does, in order, and the value it throws
    in the end, if it does not return. *)
Record CallbackRun := {
  steps : list CallbackStep;
  thrown : option JsValue
}.

(** A response callback [(message, sendLogicMessage, uiArgumentMap,
    logicMessages, sendUIMessage, resolve, reject) => void]: from the
    message, the argument map and the content of the [logicMessages] array
    at the call, how the call goes. *)
Definition ResponseCallback :=
  jsstring -> ArgumentMap -> list jsstring -> CallbackRun.

(** A call that makes the hook calls [calls] and returns. *)
Definition returning (calls : list HookCall) : CallbackRun :=
  {| steps := List.map Call calls; thrown := None |}.

(** The hook calls among the steps of a call. *)
Fixpoint hookCalls (l : list CallbackStep) : list HookCall :=
  match l with
  | [] => []
  | Call h :: l' => h :: hookCalls l'
  | WriteMessages _ :: l' => hookCalls l'
  end.

(** The array after the steps of a call, from its content [history]. *)
Fixpoint lastWrite (history : list jsstring) (l : list CallbackStep)
    : list jsstring :=
  match l with
  | [] => history
  | Call _ :: l' => lastWrite history l'
  | WriteMessages messages :: l' => lastWrite messages l'
  end.

(** The call leaves the array alone. *)
Definition readsOnly (c : CallbackRun) : bool :=
  forallb (fun s => match s with Call _ => true | WriteMessages _ => false end)
          (steps c).

(** [{ [message: string]: ResponseCallback }], in the order [Object.keys]
    enumerates it. An object has each key once: [uniqueKeys]. *)
Definition ResponseTable := list (jsstring * ResponseCallback).

Definition keys (t : ResponseTable) : list jsstring := List.map fst t.

Fixpoint lookup (key : jsstring) (t : ResponseTable) : option ResponseCallback :=
  match t with
  | [] => None
  | (k, cb) :: t' => if JsString.eqb key k then Some cb else lookup key t'
  end.

Fixpoint memb (key : jsstring) (l : list jsstring) : bool :=
  match l with
  | [] => false
  | k :: l' => JsString.eqb key k || memb key l'
  end.

Fixpoint uniqueb (l : list jsstring) : bool :=
  match l with
  | [] => true
  | k :: l' => negb (memb k l') && uniqueb l'
  end.

Definition uniqueKeys (t : ResponseTable) : bool := uniqueb (keys t).

(** What a dispatch does, as an observer sees it, in order. *)
Inductive Effect :=
| Invoked (prompt message : jsstring)
| Hooked (call : HookCall)
| Pushed (message : jsstring).

(** The state the responder shares with the run: the [logicMessages] array,
    the promise behind its [resolve] and [reject], and the effects so far. *)
Record RunContext := {
  logicMessages : list jsstring;
  promise : PromiseState;
  effects : list Effect
}.

Definition newContext : RunContext :=
  {| logicMessages := []; promise := Pending; effects := [] |}.

(** State threaded through calls that may throw; what was done before a
    [throw] stays done. *)
Definition M (A : Type) := RunContext -> Completion A * RunContext.

Definition ret {A} (a : A) : M A := fun ctx => (Normal a, ctx).

Definition throw {A} (e : JsValue) : M A := fun ctx => (Throw e, ctx).

Definition bind {A B} (m : M A) (k : A -> M B) : M B :=
  fun ctx =>
    match m ctx with
    | (Normal a, ctx') => k a ctx'
    | (Throw e, ctx') => (Throw e, ctx')
    end.

Declare Scope responder_scope.
Delimit Scope responder_scope with responder.
Notation "x <- m ;; k" := (bind m (fun x => k))
  (at level 61, m at next level, right associativity) : responder_scope.
Notation "m ;; k" := (bind m (fun _ => k))
  (at level 61, right associativity) : responder_scope.
Open Scope responder_scope.

(** [array.forEach(f)] *)
Fixpoint forEach {A} (f : A -> M unit) (l : list A) : M unit :=
  match l with
  | [] => ret tt
  | x :: l' => f x ;; forEach f l'
  end.

Definition observe (e : Effect) : M unit :=
  fun ctx =>
    (Normal tt,
     {| logicMessages := logicMessages ctx;
        promise := promise ctx;
        effects := effects ctx ++ [e] |}).

(** A call on one of the hooks. *)
Definition callHook (h : HookCall) : M unit :=
  fun ctx =>
    (Normal tt,
     {| logicMessages := logicMessages ctx;
        promise :=
          match h with
          | Resolve result => settle (promise ctx) (Fulfilled result)
          | Reject reason => settle (promise ctx) (Rejected reason)
          | _ => promise ctx
          end;
        effects := effects ctx ++ [Hooked h] |}).

(** A write of the callback to the array: it is the responder's own. *)
Definition writeMessages (messages : list jsstring) : M unit :=
  fun ctx =>
    (Normal tt,
     {| logicMessages := messages;
        promise := promise ctx;
        effects := effects ctx |}).

Definition perform (s : CallbackStep) : M unit :=
  match s with
  | Call h => callHook h
  | WriteMessages messages => writeMessages messages
  end.

(** [this.logicMessages.push(message)] *)
Definition push (message : jsstring) : M unit :=
  fun ctx =>
    (Normal tt,
     {| logicMessages := logicMessages ctx ++ [message];
        promise := promise ctx;
        effects := effects ctx ++ [Pushed message] |}).

(** ** ScriptResponder *)

(** [private readonly EXITING_MESSAGE = 'Exiting...'] *)
Definition EXITING_MESSAGE : jsstring := js "Exiting...".

(** The reserved fallback key. *)
Definition DEFAULT : jsstring := js "_default".

(** The ECMAScript regular-expression engine is a parameter of the
    embedding: [RegExp pattern] is [None] when [new RegExp(pattern)] throws,
    and otherwise the predicate [s => new RegExp(pattern).test(s)] (the
    source passes no flags, so the test has no state). *)
Definition RegExpEngine := jsstring -> option (jsstring -> bool).

Module ScriptResponder.
Section Responder.

Variable RegExp : RegExpEngine.
Variable messageResponses : ResponseTable.
Variable uiArgumentMap : ArgumentMap.

(** [handleExitingMessage] *)
Definition handleExitingMessage (message : jsstring) : M bool :=
  if JsString.eqb (trim message) EXITING_MESSAGE then
    callHook (Resolve JsUndefined) ;;
    ret true
  else ret false.

(** [responseCallback(message, this.sendLogicMessage, this.uiArgumentMap,
    this.logicMessages, this.sendUIMessage, this.resolve, this.reject)],
    for the callback stored under [prompt]. The call sites have no
    [try]: what the callback throws leaves the caller, after what the
    callback did. *)
Definition invoke (prompt : jsstring) (responseCallback : ResponseCallback)
    (message : jsstring) : M unit :=
  fun ctx =>
    let call := responseCallback message uiArgumentMap (logicMessages ctx) in
    (observe (Invoked prompt message) ;;
     forEach perform (steps call) ;;
     match thrown call with
     | Some e => throw e
     | None => ret tt
     end) ctx.

(** [this.messageResponses[prompt](message, ...)]; calling a missing entry
    would be a TypeError. *)
Definition invokeEntry (prompt message : jsstring) : M unit :=
  match lookup prompt messageResponses with
  | Some responseCallback => invoke prompt responseCallback message
  | None => throw (JsErr TypeError prompt)
  end.

(** [var promptRegex = new RegExp(currPrompt);
     promptRegex.test(message) || currPrompt === message.trim()] *)
Definition promptMatches (currPrompt message : jsstring) : M bool :=
  match RegExp currPrompt with
  | None => throw (invalidRegExp currPrompt)
  | Some promptRegex =>
      ret (promptRegex message || JsString.eqb currPrompt (trim message))
  end.

(** The [for] loop of [handleResponse] from index [i] on, [prompts] being
    the keys still to visit and [handled] the flag so far. *)
Fixpoint handleResponseLoop (prompts : list jsstring) (message : jsstring)
    (handled : bool) : M bool :=
  match prompts with
  | [] => ret handled
  | currPrompt :: rest =>
      if negb (JsString.eqb currPrompt DEFAULT) then
        matched <- promptMatches currPrompt message ;;
        if matched then
          invokeEntry currPrompt message ;;
          handleResponseLoop rest message true
        else handleResponseLoop rest message handled
      else handleResponseLoop rest message handled
  end.

(** [handleResponse] *)
Definition handleResponse (message : jsstring) : M bool :=
  handleResponseLoop (keys messageResponses) message false.

(** [respondToMessage] below its first [if]: the dispatch of one message
    that is not split. *)
Definition respondToLine (message : jsstring) : M unit :=
  hasExited <- handleExitingMessage message ;;
  (if negb hasExited then
     usedResponse <- handleResponse message ;;
     if negb usedResponse then
       if memb DEFAULT (keys messageResponses) then
         invokeEntry DEFAULT message
       else ret tt
     else ret tt
   else ret tt) ;;
  push message.

(** [forEach] over calls that may run out of fuel. *)
Fixpoint forEachFuel {A}
    (f : A -> RunContext -> option (Completion unit * RunContext))
    (l : list A) (ctx : RunContext) : option (Completion unit * RunContext) :=
  match l with
  | [] => Some (Normal tt, ctx)
  | x :: l' =>
      match f x ctx with
      | None => None
      | Some (Normal _, ctx') => forEachFuel f l' ctx'
      | Some (Throw e, ctx') => Some (Throw e, ctx')
      end
  end.

(** [respondToMessage], with the depth of its recursion bounded by [fuel];
    [None] when the bound is reached. *)
Fixpoint respondToMessageFuel (fuel : nat) (message : jsstring)
    (ctx : RunContext) : option (Completion unit * RunContext) :=
  match fuel with
  | O => None
  | S fuel' =>
      if includes (trim message) [LF] then
        forEachFuel (respondToMessageFuel fuel') (split LF (trim message)) ctx
      else Some (respondToLine message ctx)
  end.

(** [respondToMessage]: a piece of a split holds no line separator, so the
    recursion is two calls deep at most ([respondToMessageFuel_enough]). *)
Definition respondToMessage (message : jsstring) : M unit :=
  fun ctx =>
    match respondToMessageFuel 2 message ctx with
    | Some result => result
    | None => (Normal tt, ctx)
    end.

End Responder.
End ScriptResponder.
Import ScriptResponder.

(** The callbacks a dispatch invoked, oldest first: (key, message). *)
Fixpoint invocations (l : list Effect) : list (jsstring * jsstring) :=
  match l with
  | [] => []
  | Invoked prompt message :: l' => (prompt, message) :: invocations l'
  | _ :: l' => invocations l'
  end.

(** How often the callback under [prompt] was invoked. *)
Fixpoint invocationCount (prompt : jsstring) (l : list Effect) : nat :=
  match l with
  | [] => O
  | Invoked p _ :: l' =>
      (if JsString.eqb p prompt then 1 else 0)%nat + invocationCount prompt l'
  | _ :: l' => invocationCount prompt l'
  end.

Definition isPushed (e : Effect) : bool :=
  match e with Pushed _ => true | _ => false end.

(** Every key but [_default] is a regular expression. *)
Definition validKeys (RegExp : RegExpEngine) (t : ResponseTable) : bool :=
  forallb
    (fun k => JsString.eqb k DEFAULT ||
              match RegExp k with Some _ => true | None => false end)
    (keys t).

(** The lines a delivered message contributes to a dispatch, as
    [respondToMessage] cuts it. *)
Definition linesOf (message : jsstring) : list jsstring :=
  if includes (trim message) [LF] then split LF (trim message) else [message].

(** ** ScriptCommunicator *)

(** The two ways [run] tells the subprocess to stop:
    [interpreter.end(callback)] and [interpreter.kill()]. *)
Inductive Signal := EndSignal | KillSignal.

(** The interpreter handle (types/Interpreter.ts is consumed only): its
    [terminated] flag, which the handle sets when the subprocess is gone,
    and the termination signals it has received. *)
Record Interpreter := {
  terminated : bool;
  signals : list Signal
}.

(** How the executor of the promise in [run] goes: a throw while the path
    is adjusted or the handle is constructed (the variable [interpreter] is
    still unassigned), a throw while the listeners are registered on the
    new handle, or a handle with all listeners registered. *)
Inductive Spawn :=
| ThrowsBeforeHandle (err : JsValue)
| ThrowsWhileWiring (err : JsValue)
| Spawned.

(** A call of [run]'s own [resolve] or [reject] parameter. *)
Inductive OuterCall :=
| OuterResolve (result : JsValue)
| OuterReject (reason : JsValue).

(** One turn of the event loop, as the handle drives it: a [message] or
    [error] event; a [pythonError] event, which PythonShell emits as it
    finds the subprocess gone with an error, setting [terminated] in the
    same turn; the subprocess going away without one (the handle sets
    [terminated]); or the handle calling back the function given to [end]
    with its [err] argument. Events come in any order and any number; the
    reactions of a promise settled by a listener run at the end of the turn,
    before the next event. *)
Inductive Event :=
| MessageEvent (message : jsstring)
| ErrorEvent (err : JsValue)
| PythonErrorEvent (err : JsValue)
| ProcessExit
| EndCallbackEvent (err : JsValue).

(** The state of one call of [run]. [context] holds [logicMessages] and the
    promise created in [run]; [reacted] tells whether its [then]/[catch]
    chain has run; [endCallback] is the result captured by the function
    passed to [interpreter.end], once passed; [outerCalls] are the calls
    made on the caller's [resolve]/[reject]; [uncaught] collects what
    nothing catches (listener exceptions, unhandled rejections). *)
Record Run := {
  interpreter : option Interpreter;
  listening : bool;
  context : RunContext;
  reacted : bool;
  endCallback : option JsValue;
  outerCalls : list OuterCall;
  uncaught : list JsValue
}.

Definition withInterpreter (h : option Interpreter) (r : Run) : Run :=
  {| interpreter := h; listening := listening r; context := context r;
     reacted := reacted r; endCallback := endCallback r;
     outerCalls := outerCalls r; uncaught := uncaught r |}.

Definition withContext (ctx : RunContext) (r : Run) : Run :=
  {| interpreter := interpreter r; listening := listening r; context := ctx;
     reacted := reacted r; endCallback := endCallback r;
     outerCalls := outerCalls r; uncaught := uncaught r |}.

Definition withReacted (r : Run) : Run :=
  {| interpreter := interpreter r; listening := listening r;
     context := context r; reacted := true; endCallback := endCallback r;
     outerCalls := outerCalls r; uncaught := uncaught r |}.

Definition withEndCallback (result : JsValue) (r : Run) : Run :=
  {| interpreter := interpreter r; listening := listening r;
     context := context r; reacted := reacted r; endCallback := Some result;
     outerCalls := outerCalls r; uncaught := uncaught r |}.

Definition callOuter (c : OuterCall) (r : Run) : Run :=
  {| interpreter := interpreter r; listening := listening r;
     context := context r; reacted := reacted r; endCallback := endCallback r;
     outerCalls := outerCalls r ++ [c]; uncaught := uncaught r |}.

Definition raiseUncaught (e : JsValue) (r : Run) : Run :=
  {| interpreter := interpreter r; listening := listening r;
     context := context r; reacted := reacted r; endCallback := endCallback r;
     outerCalls := outerCalls r; uncaught := uncaught r ++ [e] |}.

Definition signal (s : Signal) (h : Interpreter) : Interpreter :=
  {| terminated := terminated h; signals := signals h ++ [s] |}.

(** [reject(err)] / [resolve(result)] of the promise created in [run]. *)
Definition settleInner (outcome : PromiseState) (r : Run) : Run :=
  withContext
    {| logicMessages := logicMessages (context r);
       promise := settle (promise (context r)) outcome;
       effects := effects (context r) |} r.

(** The callback given to [interpreter.end]:
    [(err) => { if (err) { console.error(... err.message); reject(err); }
                resolve(result); }] *)
Definition onEnd (result err : JsValue) (r : Run) : Run :=
  callOuter (OuterResolve result)
    (if truthy err then callOuter (OuterReject err) r else r).

(** The function given to [.then]: on a handle that has not terminated,
    [interpreter.end(...)]; nothing otherwise. *)
Definition onFulfilled (result : JsValue) (r : Run) : Completion unit * Run :=
  match interpreter r with
  | None => (Throw (cannotRead "terminated"), r)
  | Some h =>
      if negb (terminated h) then
        (Normal tt,
         withEndCallback result (withInterpreter (Some (signal EndSignal h)) r))
      else (Normal tt, r)
  end.

(** The function given to [.catch]: the log line reads [err.message]; then
    [interpreter.kill()] on a handle that has not terminated; then
    [reject(err)]. *)
Definition onRejected (err : JsValue) (r : Run) : Completion unit * Run :=
  match readMessage err with
  | Throw e => (Throw e, r)
  | Normal _ =>
      match interpreter r with
      | None => (Throw (cannotRead "terminated"), r)
      | Some h =>
          let r' :=
            if negb (terminated h)
            then withInterpreter (Some (signal KillSignal h)) r
            else r in
          (Normal tt, callOuter (OuterReject err) r')
      end
  end.

(** [.catch(onRejected)] on the promise that [.then] returns; what it
    throws is an unhandled rejection. *)
Definition catchReaction (err : JsValue) (r : Run) : Run :=
  match onRejected err r with
  | (Normal _, r') => r'
  | (Throw e, r') => raiseUncaught e r'
  end.

(** The chain [.then(onFulfilled).catch(onRejected)], run once, at the end
    of the turn in which the promise was settled. *)
Definition react (r : Run) : Run :=
  if reacted r then r
  else
    match promise (context r) with
    | Pending => r
    | Fulfilled result =>
        match onFulfilled result (withReacted r) with
        | (Normal _, r') => r'
        | (Throw e, r') => catchReaction e r'
        end
    | Rejected err => catchReaction err (withReacted r)
    end.

Definition newInterpreter : Interpreter :=
  {| terminated := false; signals := [] |}.

Module ScriptCommunicator.
Section Communicator.

Variable RegExp : RegExpEngine.
Variable messageResponses : ResponseTable.
Variable uiArgumentMap : ArgumentMap.

(** [InterpreterClass === PythonShell] *)
Variable isPythonShell : bool.

(** The executor of [new Promise((resolve, reject) => ...)] in [run]: what
    it throws rejects the promise. *)
Definition executor (s : Spawn) : Run :=
  let fresh h wired p :=
    {| interpreter := h; listening := wired;
       context := {| logicMessages := []; promise := p; effects := [] |};
       reacted := false; endCallback := None;
       outerCalls := []; uncaught := [] |} in
  match s with
  | ThrowsBeforeHandle err => fresh None false (Rejected err)
  | ThrowsWhileWiring err => fresh (Some newInterpreter) false (Rejected err)
  | Spawned => fresh (Some newInterpreter) true Pending
  end.

(** [run], up to the end of the turn that called it; [messageResponses] is
    the table it has loaded from [responses.js], [logicMessages] starts
    empty. *)
Definition run (s : Spawn) : Run := react (executor s).

(** The listener [(message) => { responder.respondToMessage(message); }]:
    nothing catches what the dispatch throws. *)
Definition onMessage (message : jsstring) (r : Run) : Run :=
  match respondToMessage RegExp messageResponses uiArgumentMap message
          (context r) with
  | (Normal _, ctx) => withContext ctx r
  | (Throw e, ctx) => raiseUncaught e (withContext ctx r)
  end.

(** [const onError = (err) => { reject(err); }] *)
Definition onError (err : JsValue) (r : Run) : Run :=
  settleInner (Rejected err) r.

(** The handle finds the subprocess gone and sets [terminated]. *)
Definition exitProcess (r : Run) : Run :=
  match interpreter r with
  | Some h =>
      withInterpreter
        (Some {| terminated := true; signals := signals h |}) r
  | None => r
  end.

(** One turn: the listener for the event, what the handle does in the
    same turn, then the pending reactions. In the turn of a [pythonError]
    PythonShell sets [terminated], after the listener, if it is in place,
    has returned and before the reactions run. *)
Definition step (r : Run) (ev : Event) : Run :=
  match ev with
  | MessageEvent message =>
      if listening r then react (onMessage message r) else r
  | ErrorEvent err =>
      if listening r then react (onError err r) else r
  | PythonErrorEvent err =>
      if isPythonShell then
        if listening r then react (exitProcess (onError err r))
        else exitProcess r
      else r
  | ProcessExit => exitProcess r
  | EndCallbackEvent err =>
      match endCallback r with
      | Some result => onEnd result err r
      | None => r
      end
  end.

Definition runEvents (s : Spawn) (evs : list Event) : Run :=
  fold_left step evs (run s).

End Communicator.
End ScriptCommunicator.
Import ScriptCommunicator.

Definition signalsOf (r : Run) : list Signal :=
  match interpreter r with
  | Some h => signals h
  | None => []
  end.

Definition terminatedFlag (r : Run) : bool :=
  match interpreter r with
  | Some h => terminated h
  | None => false
  end.

(** [PythonRunner.runScript]: the promise whose [resolve] and [reject] are
    handed to [run]; the first call on either settles it. *)
Definition runScriptPromise (r : Run) : PromiseState :=
  fold_left
    (fun p c =>
       match c with
       | OuterResolve result => settle p (Fulfilled result)
       | OuterReject reason => settle p (Rejected reason)
       end)
    (outerCalls r) Pending.

Definition messagesOf (evs : list Event) : list jsstring :=
  flat_map (fun ev => match ev with MessageEvent m => [m] | _ => [] end) evs.

Definition isEndCallbackEvent (ev : Event) : bool :=
  match ev with EndCallbackEvent _ => true | _ => false end.

(** ** The claims' own words, to be compared with the code *)

(** "A pattern matches if the message (untrimmed) satisfies the pattern when
    interpreted as a regular expression, OR the trimmed message equals the
    pattern literally." *)
Definition matchesPattern (RegExp : RegExpEngine) (p m : jsstring) : Prop :=
  (exists r, RegExp p = Some r /\ r m = true) \/ trim m = p.

(** The same, decided. *)
Definition matchesb (RegExp : RegExpEngine) (p m : jsstring) : bool :=
  match RegExp p with
  | Some r => r m
  | None => false
  end || JsString.eqb p (trim m).

(** The keys other than [_default] that match a message, in table order. *)
Definition fires (RegExp : RegExpEngine) (m p : jsstring) : bool :=
  negb (JsString.eqb p DEFAULT) && matchesb RegExp p m.

Definition firingKeys (RegExp : RegExpEngine) (t : ResponseTable)
    (m : jsstring) : list jsstring :=
  filter (fires RegExp m) (keys t).

(** The keys whose callbacks a message is to reach: the matching ones, or
    [_default] alone when none matches and it is registered. *)
Definition dispatchedKeys (RegExp : RegExpEngine) (t : ResponseTable)
    (m : jsstring) : list jsstring :=
  match firingKeys RegExp t m with
  | [] => if memb DEFAULT (keys t) then [DEFAULT] else []
  | ks => ks
  end.

Definition isSentinel (m : jsstring) : bool :=
  JsString.eqb (trim m) EXITING_MESSAGE.

(** The callbacks under the keys [ks] return when they are called with the
    message [m], whatever the array holds. *)
Definition returnOn (t : ResponseTable) (args : ArgumentMap) (m : jsstring)
    (ks : list jsstring) : Prop :=
  forall k cb history,
    In k ks -> lookup k t = Some cb -> thrown (cb m args history) = None.

(** The callbacks under the keys [ks] leave the array alone when they are
    called with the message [m]. *)
Definition readOnlyOn (t : ResponseTable) (args : ArgumentMap) (m : jsstring)
    (ks : list jsstring) : Prop :=
  forall k cb history,
    In k ks -> lookup k t = Some cb -> readsOnly (cb m args history) = true.

(** The callbacks of the table return, or leave the array alone, on every
    message. *)
Definition callbacksReturn (t : ResponseTable) (args : ArgumentMap) : Prop :=
  forall m, returnOn t args m (keys t).

Definition callbacksReadOnly (t : ResponseTable) (args : ArgumentMap) : Prop :=
  forall m, readOnlyOn t args m (keys t).

(** A run whose promise is pending: nothing has been signalled, handed to
    [end] or delivered, and the listeners are in place on the handle. *)
Definition fresh (r : Run) : Prop :=
  reacted r = false /\ signalsOf r = [] /\ endCallback r = None /\
  outerCalls r = [] /\ listening r = true /\ interpreter r <> None.

(** What holds of a run between two turns: the reactions of a settled
    promise have run; a pending run is [fresh]; at most one signal was sent,
    [end] after a success and [kill] after a failure. *)
Definition consistent (r : Run) : Prop :=
  reacted r = negb (isPending (promise (context r))) /\
  (reacted r = false -> fresh r) /\
  (List.length (signalsOf r) <= 1)%nat /\
  (forall s, In s (signalsOf r) ->
     match promise (context r) with
     | Pending => False
     | Fulfilled _ => s = EndSignal
     | Rejected _ => s = KillSignal
     end).

(** ** A fragment of the regular-expression engine, to evaluate on *)

(** [^ $ \ . * + ? ( ) [ ] { } |] *)
Definition isSyntaxCharacter (c : N) : bool :=
  existsb (N.eqb c) [94; 36; 92; 46; 42; 43; 63; 40; 41; 91; 93; 123; 125; 124].

(** Patterns [^]?literal[$]? where the literal part holds no syntax
    character: without flags they search the literal anywhere, at the start,
    at the end, or as the whole input. A pattern whose only syntax characters
    are opening parentheses leaves a group unterminated, and the constructor
    throws. Patterns outside the fragment are rejected as well; this
    development evaluates the instance on none of them. *)
Definition literalRegExp : RegExpEngine :=
  fun pattern =>
    let (atStart, p1) :=
      match pattern with
      | 94 :: p => (true, p)
      | _ => (false, pattern)
      end in
    let (atEnd, body) :=
      match rev p1 with
      | 36 :: p => (true, rev p)
      | _ => (false, p1)
      end in
    if forallb (fun c => negb (isSyntaxCharacter c)) body then
      Some (fun s =>
              match atStart, atEnd with
              | true, true => JsString.eqb s body
              | true, false => startsWith s body
              | false, true => endsWith s body
              | false, false => includes s body
              end)
    else None.

(** Callbacks and tables used to evaluate the development. *)
Definition echo : ResponseCallback :=
  fun message _ _ => returning [SendUIMessage (js "log") [JsStr message]].

Definition finish : ResponseCallback :=
  fun message _ _ => returning [Resolve (JsStr message)].

(** ["foo\nbar"] and ["foo\nExiting..."], each delivered as one chunk. *)
Definition chunkFooBar : jsstring := js "foo" ++ [LF] ++ js "bar".

Definition chunkFooExiting : jsstring := js "foo" ++ [LF] ++ EXITING_MESSAGE.

(** [new Error("boom")] *)
Definition boom : JsValue := JsErr GenericError (js "boom").

(** [{ "(": echo, "foo": echo }] *)
Definition tableUnterminated : ResponseTable :=
  [(js "(", echo); (js "foo", echo)].

(** [{ "_default": echo }] *)
Definition tableDefaultOnly : ResponseTable := [(DEFAULT, echo)].

(** [{ "^READY$": echo, "done": finish, "_default": echo }] *)
Definition tableReady : ResponseTable :=
  [(js "^READY$", echo); (js "done", finish); (DEFAULT, echo)].

(** ** More of the dispatch, as an observer sees it *)

(** [pieces.join(sep)] for a separator of one code unit. *)
Fixpoint join (sep : N) (pieces : list jsstring) : jsstring :=
  match pieces with
  | [] => []
  | [piece] => piece
  | piece :: rest => piece ++ sep :: join sep rest
  end.

(** What the invocation of the callback under [k] leaves in the trace, when
    it is handed the message [m] and the history [history]. *)
Definition callbackTrace (t : ResponseTable) (args : ArgumentMap)
    (history : list jsstring) (m k : jsstring) : list Effect :=
  match lookup k t with
  | Some cb =>
      Invoked k m :: List.map Hooked (hookCalls (steps (cb m args history)))
  | None => []
  end.

(** The callbacks a delivered line reaches: none for the sentinel. *)
Definition lineInvocations (RegExp : RegExpEngine) (t : ResponseTable)
    (l : jsstring) : list (jsstring * jsstring) :=
  if isSentinel l then []
  else List.map (fun k => (k, l)) (dispatchedKeys RegExp t l).

(** What the caller of [run] has been told, by the calls so far. *)
Definition firstDelivery (calls : list OuterCall) : PromiseState :=
  match calls with
  | [] => Pending
  | OuterResolve result :: _ => Fulfilled result
  | OuterReject reason :: _ => Rejected reason
  end.

(** The calls the callback given to [end] may have made, for a recorded
    result [v]: [resolve(v)], and [reject(err)] for a truthy [err]. *)
Definition endDelivery (v : JsValue) (c : OuterCall) : Prop :=
  match c with
  | OuterResolve result => result = v
  | OuterReject reason => truthy reason = true
  end.

(** What has been delivered agrees with what has been recorded: nothing
    while the promise is pending; after a failure, at most the one
    [reject] with its reason; after a success, only what the callback of
    [end] delivers, once [end] has been signalled. *)
Definition accounted (r : Run) : Prop :=
  match promise (context r) with
  | Pending => outerCalls r = [] /\ endCallback r = None
  | Rejected e =>
      endCallback r = None /\
      (outerCalls r = [] \/ outerCalls r = [OuterReject e])
  | Fulfilled v =>
      (endCallback r = None /\ outerCalls r = []) \/
      (endCallback r = Some v /\ signalsOf r = [EndSignal] /\
       Forall (endDelivery v) (outerCalls r))
  end.

Definition isPythonErrorEvent (ev : Event) : bool :=
  match ev with PythonErrorEvent _ => true | _ => false end.

(** ** The launch: script and interpreter paths ([run], first lines of the
    executor) *)

(** [path.sep]: a backslash on Windows, a slash elsewhere. *)
Definition pathSep (win32 : bool) : N := if win32 then 92 else 47.

(** ['..\\'] on Windows, ['../'] elsewhere: the prefix [run] strips from
    the interpreter path on that platform. *)
Definition parentPrefix (win32 : bool) : jsstring :=
  [46; 46; pathSep win32].

(** [s.replace(pattern, replacement)] for a string pattern and a
    replacement without [$]: the first occurrence is replaced. *)
Fixpoint replace (s pattern replacement : jsstring) : jsstring :=
  if startsWith s pattern then replacement ++ skipn (List.length pattern) s
  else match s with
       | [] => []
       | c :: s' => c :: replace s' pattern replacement
       end.

(** [s.lastIndexOf(c)] for one code unit: [-1] when [c] does not occur. *)
Fixpoint lastIndexOf (s : jsstring) (c : N) : Z :=
  match s with
  | [] => (-1)%Z
  | x :: s' =>
      let i := lastIndexOf s' c in
      if (0 <=? i)%Z then (i + 1)%Z
      else if x =? c then 0%Z else (-1)%Z
  end.

(** [s.substring(start)]: a negative start counts as 0, one past the end
    gives the empty string. *)
Definition substring (s : jsstring) (start : Z) : jsstring :=
  skipn (Z.to_nat start) s.

(** What a launch works with: [this.script], the [pythonPath] of the
    interpreter options, and the argument of [process.chdir] if it was
    called. The options are the object the runner holds: what [run] writes
    to [pythonPath] the runner sees. ([pythonPath] is set, as the runner's
    constructor sets it.) *)
Record Launch := {
  script : jsstring;
  pythonPath : jsstring;
  chdirTo : option jsstring
}.

Module PathAdjustment.
Section PathAdjustment.

(** [path.dirname], of Node. *)
Variable dirname : jsstring -> jsstring.

(** [process.platform === 'win32'] *)
Variable win32 : bool.

(** The block [if (this.script.includes(path.sep)) { ... }], when
    [process.chdir] succeeds. *)
Definition adjustPaths (l : Launch) : Launch :=
  if includes (script l) [pathSep win32] then
    {| chdirTo := Some (dirname (dirname (script l)));
       pythonPath :=
         if includes (pythonPath l) (parentPrefix true) ||
            includes (pythonPath l) (parentPrefix false)
         then
           if win32 then replace (pythonPath l) (parentPrefix true) []
           else replace (pythonPath l) (parentPrefix false) []
         else pythonPath l;
       script :=
         substring (dirname (script l))
           (lastIndexOf (dirname (script l)) (pathSep win32) + 1) |}
  else l.

(** [PythonRunner.runScript(script)] as far as the paths go: a new
    communicator for [script] over the runner's options, then the
    adjustment of [run]. *)
Definition runScriptLaunch (runnerPythonPath scriptPath : jsstring) : Launch :=
  adjustPaths
    {| script := scriptPath; pythonPath := runnerPythonPath; chdirTo := None |}.

(** The interpreter path each of a series of [runScript] calls launches
    with, the runner's options carrying over from one call to the next. *)
Fixpoint launchPaths (runnerPythonPath : jsstring) (scripts : list jsstring)
    : list jsstring :=
  match scripts with
  | [] => []
  | s :: rest =>
      let l := runScriptLaunch runnerPythonPath s in
      pythonPath l :: launchPaths (pythonPath l) rest
  end.

End PathAdjustment.
End PathAdjustment.
Import PathAdjustment.

(** ** The entry point: index.ts *)

(** [','] *)
Definition COMMA : N := 44.

(** The arguments [run] of index.ts is called with, read from
    [process.argv] from index [base] on (0 in the first revision of the
    file, 2 in the second): the script, the repository directory and the
    script arguments, with their defaults. *)
Definition entryArguments (base : nat) (argv : list jsstring)
    : jsstring * jsstring * list jsstring :=
  (if (base <? List.length argv)%nat then nth base argv []
   else js "__main__.py",
   if (base + 1 <? List.length argv)%nat then nth (base + 1) argv []
   else js ".",
   if (base + 2 <? List.length argv)%nat
   then split COMMA (nth (base + 2) argv [])
   else []).

(** ** More inputs to evaluate on *)

(** A callback that gives up without a reason: [reject()]. *)
Definition giveUp : ResponseCallback :=
  fun _ _ _ => returning [Reject JsUndefined].

(** A callback that throws: [() => { throw new Error("boom"); }]. *)
Definition explode : ResponseCallback :=
  fun _ _ _ => {| steps := []; thrown := Some boom |}.

(** A callback that empties the array it is handed:
    [(message, send, args, logicMessages) => { logicMessages.length = 0; }]. *)
Definition forget : ResponseCallback :=
  fun _ _ _ => {| steps := [WriteMessages []]; thrown := None |}.

(** [{ "a": explode, "b": echo }] *)
Definition tableExplodes : ResponseTable := [(js "a", explode); (js "b", echo)].

(** [{ "_default": explode }] *)
Definition tableDefaultExplodes : ResponseTable := [(DEFAULT, explode)].

(** [{ "_default": forget }] *)
Definition tableForgets : ResponseTable := [(DEFAULT, forget)].

(** [{ "quit": giveUp, "_default": echo }] *)
Definition tableGiveUp : ResponseTable := [(js "quit", giveUp); (DEFAULT, echo)].

(** [path.posix.dirname] on a relative path without trailing or repeated
    slashes: what precedes the last slash, ['.'] when there is none. *)
Definition posixDirname (s : jsstring) : jsstring :=
  let i := lastIndexOf s 47 in
  if (0 <=? i)%Z then firstn (Z.to_nat i) s else js ".".

(** A package run as a module, with the interpreter of a virtual
    environment two directories up. *)
Definition launchLogic : Launch :=
  {| script := js "logic/main/__main__.py";
     pythonPath := js "../../venv/bin/python";
     chdirTo := None |}.

(** * Facts *)

(** ** Strings *)

Lemma jsstring_eqb_eq (a b : jsstring) : JsString.eqb a b = true <-> a = b.
Proof.
  revert b; induction a as [|x a IH]; intros [|y b]; simpl;
    try (split; (discriminate || reflexivity)).
  rewrite andb_true_iff, N.eqb_eq, IH.
  split; [intros [-> ->]; reflexivity | intros E; inversion E; auto].
Qed.

Lemma jsstring_eqb_refl (a : jsstring) : JsString.eqb a a = true.
Proof. apply jsstring_eqb_eq; reflexivity. Qed.

Lemma jsstring_eqb_neq (a b : jsstring) : JsString.eqb a b = false <-> a <> b.
Proof.
  rewrite <- jsstring_eqb_eq. destruct (JsString.eqb a b); split; congruence.
Qed.

Lemma includes_unit (c : N) (s : jsstring) :
  includes s [c] = existsb (N.eqb c) s.
Proof.
  induction s as [|y s IH]; simpl; [reflexivity|].
  rewrite IH. destruct s; rewrite andb_true_r; reflexivity.
Qed.

Lemma includes_unit_In (c : N) (s : jsstring) :
  includes s [c] = true <-> In c s.
Proof.
  rewrite includes_unit, existsb_exists. split.
  - intros (x & Hx & E). apply N.eqb_eq in E. subst; assumption.
  - intros H. exists c. split; [assumption | apply N.eqb_refl].
Qed.

Lemma trimStart_In (c : N) (s : jsstring) : In c (trimStart s) -> In c s.
Proof.
  induction s as [|y s IH]; simpl; [tauto|].
  destruct (isWhiteSpace y); simpl; tauto.
Qed.

Lemma trim_In (c : N) (s : jsstring) : In c (trim s) -> In c s.
Proof.
  unfold trim, trimEnd. intros H.
  apply trimStart_In. apply in_rev.
  apply trimStart_In. apply in_rev in H. exact H.
Qed.

Lemma split_no_sep (sep : N) (s piece : jsstring) :
  In piece (split sep s) -> ~ In sep piece.
Proof.
  revert piece; induction s as [|c s IH]; simpl; intros piece H.
  - destruct H as [<-|[]]. simpl; tauto.
  - destruct (N.eqb_spec c sep) as [->|Hne].
    + destruct H as [<-|H]; [simpl; tauto | auto].
    + destruct (split sep s) as [|p ps] eqn:E.
      * destruct H as [<-|[]]. simpl. intuition congruence.
      * destruct H as [<-|H].
        -- simpl. intros [?|?]; [congruence|]. apply (IH p); simpl; auto.
        -- apply IH. simpl; auto.
Qed.

(** A piece of a split holds no separator, also after trimming: it takes
    the single-line path of the dispatch. *)
Lemma split_piece_single_line (s piece : jsstring) :
  In piece (split LF s) -> includes (trim piece) [LF] = false.
Proof.
  intros H. destruct (includes (trim piece) [LF]) eqn:E; [|reflexivity].
  apply includes_unit_In, trim_In in E.
  exfalso. exact (split_no_sep _ _ _ H E).
Qed.


Lemma memb_In (k : jsstring) (l : list jsstring) : memb k l = true <-> In k l.
Proof.
  induction l as [|x l IH]; simpl; [split; (discriminate || tauto)|].
  rewrite orb_true_iff, jsstring_eqb_eq, IH. intuition congruence.
Qed.

Lemma uniqueb_NoDup (l : list jsstring) : uniqueb l = true -> NoDup l.
Proof.
  induction l as [|x l IH]; simpl; intros H; [constructor|].
  apply andb_true_iff in H. destruct H as [Hx Hl].
  constructor; [|auto].
  intros Hin. apply memb_In in Hin. rewrite Hin in Hx. discriminate.
Qed.

Lemma lookup_keys (k : jsstring) (t : ResponseTable) :
  In k (keys t) -> exists cb, lookup k t = Some cb.
Proof.
  induction t as [|[k' cb'] t IH]; simpl; [tauto|].
  intros [->|H].
  - rewrite jsstring_eqb_refl. eauto.
  - destruct (JsString.eqb k k'); eauto.
Qed.

(** ** Effects *)

Lemma invocations_app (a b : list Effect) :
  invocations (a ++ b) = invocations a ++ invocations b.
Proof.
  induction a as [|[p m|h|m] a IH]; simpl; rewrite ?IH; reflexivity.
Qed.

Lemma invocations_hooks (hs : list HookCall) :
  invocations (List.map Hooked hs) = [].
Proof. induction hs; simpl; auto. Qed.

Lemma invocationCount_app (p : jsstring) (a b : list Effect) :
  invocationCount p (a ++ b) = (invocationCount p a + invocationCount p b)%nat.
Proof.
  induction a as [|[q m|h|m] a IH]; simpl; rewrite ?IH; lia.
Qed.

(** The count of a key is read off the invocation list. *)
Lemma invocationCount_invocations (p : jsstring) (l : list Effect) :
  invocationCount p l =
  List.length (filter (fun i => JsString.eqb (fst i) p) (invocations l)).
Proof.
  induction l as [|[q m|h|m] l IH]; simpl; auto.
  destruct (JsString.eqb q p); simpl; rewrite IH; reflexivity.
Qed.

Lemma filter_key_count (m p : jsstring) (ks : list jsstring) :
  NoDup ks ->
  List.length
    (filter (fun i : jsstring * jsstring => JsString.eqb (fst i) p)
            (List.map (fun k => (k, m)) ks)) =
  if memb p ks then 1%nat else 0%nat.
Proof.
  induction 1 as [|k ks Hk Hnd IH]; simpl; [reflexivity|].
  rewrite (proj2 (Bool.eq_iff_eq_true (JsString.eqb p k) (JsString.eqb k p))).
  2:{ rewrite !jsstring_eqb_eq. split; congruence. }
  destruct (JsString.eqb k p) eqn:E; simpl.
  - apply jsstring_eqb_eq in E. subst k. rewrite IH.
    destruct (memb p ks) eqn:M; [|reflexivity].
    apply memb_In in M. contradiction.
  - exact IH.
Qed.

Lemma forallb_app_true {A} (f : A -> bool) (a b : list A) :
  forallb f a = true -> forallb f b = true -> forallb f (a ++ b) = true.
Proof. intros Ha Hb. rewrite forallb_app, Ha, Hb. reflexivity. Qed.

Lemma hooks_not_pushed (hs : list HookCall) :
  forallb (fun e => negb (isPushed e)) (List.map Hooked hs) = true.
Proof. induction hs; simpl; auto. Qed.

(** ** The responder *)

Section ResponderFacts.

Variable RegExp : RegExpEngine.
Variable messageResponses : ResponseTable.
Variable uiArgumentMap : ArgumentMap.

Local Notation handleResponseLoop :=
  (handleResponseLoop RegExp messageResponses uiArgumentMap).
Local Notation handleResponse :=
  (handleResponse RegExp messageResponses uiArgumentMap).
Local Notation respondToLine :=
  (respondToLine RegExp messageResponses uiArgumentMap).
Local Notation respondToMessage :=
  (respondToMessage RegExp messageResponses uiArgumentMap).
Local Notation respondToMessageFuel :=
  (respondToMessageFuel RegExp messageResponses uiArgumentMap).
Local Notation invokeEntry := (invokeEntry messageResponses uiArgumentMap).
Local Notation returnOn := (returnOn messageResponses uiArgumentMap).
Local Notation readOnlyOn := (readOnlyOn messageResponses uiArgumentMap).
Local Notation validPrompts :=
  (forallb (fun k => JsString.eqb k DEFAULT ||
                     match RegExp k with Some _ => true | None => false end)).

Lemma returnOn_incl (m : jsstring) (ks ks' : list jsstring) :
  (forall k, In k ks' -> In k ks) -> returnOn m ks -> returnOn m ks'.
Proof. intros Hi H k cb h Hk. apply H, Hi, Hk. Qed.

Lemma readOnlyOn_incl (m : jsstring) (ks ks' : list jsstring) :
  (forall k, In k ks' -> In k ks) -> readOnlyOn m ks -> readOnlyOn m ks'.
Proof. intros Hi H k cb h Hk. apply H, Hi, Hk. Qed.

Lemma filter_tail_In {A} (f : A -> bool) (x : A) (l : list A) (y : A) :
  In y (filter f l) -> In y (filter f (x :: l)).
Proof. simpl. destruct (f x); simpl; auto. Qed.

Lemma lastWrite_readOnly (c : CallbackRun) (history : list jsstring) :
  readsOnly c = true -> lastWrite history (steps c) = history.
Proof.
  unfold readsOnly.
  induction (steps c) as [|[h|l] ss IH]; simpl; intros H;
    [reflexivity | exact (IH H) | discriminate].
Qed.

(** The steps of a call, performed in order: the hook calls are recorded and
    the array is left as the last write leaves it. *)
Lemma performAll_spec (ss : list CallbackStep) :
  forall ctx, exists ctx',
    forEach perform ss ctx = (Normal tt, ctx') /\
    logicMessages ctx' = lastWrite (logicMessages ctx) ss /\
    effects ctx' = effects ctx ++ List.map Hooked (hookCalls ss).
Proof.
  induction ss as [|[h|l] ss IH]; intros ctx.
  - exists ctx. simpl. rewrite app_nil_r. auto.
  - simpl. unfold bind at 1. simpl.
    destruct (IH {| logicMessages := logicMessages ctx;
                    promise := match h with
                               | Resolve result =>
                                   settle (promise ctx) (Fulfilled result)
                               | Reject reason =>
                                   settle (promise ctx) (Rejected reason)
                               | _ => promise ctx
                               end;
                    effects := effects ctx ++ [Hooked h] |})
      as (ctx' & Hrun & HL & HE).
    exists ctx'. split; [exact Hrun|]. simpl in *. split; [exact HL|].
    rewrite HE, <- app_assoc. reflexivity.
  - simpl. unfold bind at 1. simpl.
    destruct (IH {| logicMessages := l; promise := promise ctx;
                    effects := effects ctx |})
      as (ctx' & Hrun & HL & HE).
    exists ctx'. split; [exact Hrun|]. simpl in *. auto.
Qed.

(** A call of a callback: the invocation and its hook calls are recorded,
    the array is as the callback leaves it, and what the callback throws
    leaves [invoke]. *)
Lemma invoke_spec (p : jsstring) (cb : ResponseCallback) (m : jsstring)
    (ctx : RunContext) :
  exists ctx',
    invoke uiArgumentMap p cb m ctx =
      (match thrown (cb m uiArgumentMap (logicMessages ctx)) with
       | Some e => Throw e
       | None => Normal tt
       end, ctx') /\
    logicMessages ctx' =
      lastWrite (logicMessages ctx)
        (steps (cb m uiArgumentMap (logicMessages ctx))) /\
    effects ctx' =
      effects ctx ++
      Invoked p m ::
      List.map Hooked (hookCalls (steps (cb m uiArgumentMap (logicMessages ctx)))).
Proof.
  unfold invoke. cbv zeta. unfold bind at 1, observe.
  unfold bind at 1.
  destruct (performAll_spec (steps (cb m uiArgumentMap (logicMessages ctx)))
              {| logicMessages := logicMessages ctx; promise := promise ctx;
                 effects := effects ctx ++ [Invoked p m] |})
    as (ctx' & Hrun & HL & HE).
  exists ctx'. rewrite Hrun. simpl in *.
  split; [destruct (thrown (cb m uiArgumentMap (logicMessages ctx))); reflexivity|].
  split; [exact HL|]. rewrite HE, <- app_assoc. reflexivity.
Qed.

Lemma existsb_filter_nil {A} (f : A -> bool) (l : list A) :
  existsb f l = false -> filter f l = [].
Proof.
  induction l as [|x l IH]; simpl; [reflexivity|].
  destruct (f x); simpl; [discriminate | exact IH].
Qed.

Lemma existsb_filter_cons {A} (f : A -> bool) (l : list A) :
  existsb f l = true -> exists x xs, filter f l = x :: xs.
Proof.
  induction l as [|x l IH]; simpl; [discriminate|].
  destruct (f x); simpl; eauto.
Qed.

(** One round of the loop of [handleResponse]. *)
Lemma handleResponseLoop_cons (k : jsstring) (prompts : list jsstring)
    (m : jsstring) (handled : bool) (ctx : RunContext) :
  handleResponseLoop (k :: prompts) m handled ctx =
  if JsString.eqb k DEFAULT then handleResponseLoop prompts m handled ctx
  else
    match RegExp k with
    | None => (Throw (invalidRegExp k), ctx)
    | Some r =>
        if r m || JsString.eqb k (trim m) then
          match invokeEntry k m ctx with
          | (Normal _, ctx1) => handleResponseLoop prompts m true ctx1
          | (Throw e, ctx1) => (Throw e, ctx1)
          end
        else handleResponseLoop prompts m handled ctx
    end.
Proof.
  simpl. destruct (JsString.eqb k DEFAULT); simpl; [reflexivity|].
  unfold bind at 1, promptMatches.
  destruct (RegExp k) as [r|]; [|reflexivity].
  unfold ret at 1.
  destruct (r m || JsString.eqb k (trim m)); [|reflexivity].
  unfold bind at 1.
  destruct (invokeEntry k m ctx) as [[[]|e] ctx1]; reflexivity.
Qed.

Lemma fires_default (m k : jsstring) :
  JsString.eqb k DEFAULT = true -> fires RegExp m k = false.
Proof. unfold fires. intros ->. reflexivity. Qed.

Lemma fires_regexp (m k : jsstring) (r : jsstring -> bool) :
  JsString.eqb k DEFAULT = false -> RegExp k = Some r ->
  fires RegExp m k = (r m || JsString.eqb k (trim m)).
Proof. unfold fires, matchesb. intros -> ->. reflexivity. Qed.

(** The loop leaves the array as it is when the callbacks it invokes do. *)
Lemma handleResponseLoop_history (m : jsstring) (prompts : list jsstring) :
  forall (handled : bool) (ctx : RunContext),
    readOnlyOn m (filter (fires RegExp m) prompts) ->
    logicMessages (snd (handleResponseLoop prompts m handled ctx)) =
    logicMessages ctx.
Proof.
  induction prompts as [|k prompts IH]; intros handled ctx Hro; [reflexivity|].
  assert (Hro' : readOnlyOn m (filter (fires RegExp m) prompts))
    by (apply (readOnlyOn_incl m _ _ (filter_tail_In _ k prompts) Hro)).
  rewrite handleResponseLoop_cons.
  destruct (JsString.eqb k DEFAULT) eqn:Ek; [apply IH; exact Hro'|].
  destruct (RegExp k) as [r|] eqn:Er; [|reflexivity].
  destruct (r m || JsString.eqb k (trim m)) eqn:Em; [|apply IH; exact Hro'].
  unfold ScriptResponder.invokeEntry.
  destruct (lookup k messageResponses) as [cb|] eqn:El; [|reflexivity].
  destruct (invoke_spec k cb m ctx) as (ctx1 & -> & HL & _).
  assert (H1 : logicMessages ctx1 = logicMessages ctx).
  { rewrite HL. apply lastWrite_readOnly. apply (Hro k cb); [|exact El].
    apply filter_In. split; [left; reflexivity|].
    rewrite (fires_regexp m k r Ek Er). exact Em. }
  destruct (thrown (cb m uiArgumentMap (logicMessages ctx))); [exact H1|].
  rewrite IH by exact Hro'. exact H1.
Qed.

(** With every visited key a regular expression and the invoked callbacks
    returning, the loop of [handleResponse] ends normally: it invokes the
    matching keys, in order, once each, and reports whether one matched. *)
Lemma handleResponseLoop_valid (m : jsstring) (prompts : list jsstring) :
  forall (handled : bool) (ctx : RunContext),
    (forall k, In k prompts -> In k (keys messageResponses)) ->
    validPrompts prompts = true ->
    returnOn m (filter (fires RegExp m) prompts) ->
    exists ctx' new,
      handleResponseLoop prompts m handled ctx =
        (Normal (handled || existsb (fires RegExp m) prompts), ctx') /\
      effects ctx' = effects ctx ++ new /\
      forallb (fun e => negb (isPushed e)) new = true /\
      invocations new = List.map (fun k => (k, m)) (filter (fires RegExp m) prompts).
Proof.
  induction prompts as [|k prompts IH]; intros handled ctx Hin Hvalid Hret.
  - exists ctx, []. simpl. rewrite orb_false_r, app_nil_r. auto.
  - simpl in Hvalid. apply andb_true_iff in Hvalid. destruct Hvalid as [Hk Hrest].
    assert (Hin' : forall k', In k' prompts -> In k' (keys messageResponses))
      by (intros; apply Hin; simpl; auto).
    assert (Hret' : returnOn m (filter (fires RegExp m) prompts))
      by (apply (returnOn_incl m _ _ (filter_tail_In _ k prompts) Hret)).
    rewrite handleResponseLoop_cons. cbn [existsb filter].
    destruct (JsString.eqb k DEFAULT) eqn:Ek.
    + rewrite (fires_default m k Ek). apply IH; assumption.
    + simpl in Hk. destruct (RegExp k) as [r|] eqn:Er; [|discriminate].
      pose proof (fires_regexp m k r Ek Er) as Hf.
      destruct (r m || JsString.eqb k (trim m)) eqn:Em; rewrite Hf.
      * unfold ScriptResponder.invokeEntry.
        destruct (lookup_keys k messageResponses (Hin k (or_introl eq_refl)))
          as [cb Hcb].
        rewrite Hcb.
        destruct (invoke_spec k cb m ctx) as (ctx1 & -> & _ & HE1).
        rewrite (Hret k cb (logicMessages ctx))
          by (first [exact Hcb | apply filter_In; split; [left; reflexivity | exact Hf]]).
        destruct (IH true ctx1 Hin' Hrest Hret')
          as (ctx' & new & -> & HE & Hnp & Hinv).
        exists ctx',
          ((Invoked k m ::
            List.map Hooked
              (hookCalls (steps (cb m uiArgumentMap (logicMessages ctx))))) ++ new).
        rewrite orb_true_r. split; [reflexivity|]. split; [|split].
        -- rewrite HE, HE1, <- app_assoc. reflexivity.
        -- apply forallb_app_true; [apply hooks_not_pushed | exact Hnp].
        -- rewrite invocations_app. simpl. rewrite invocations_hooks, Hinv.
           reflexivity.
      * apply IH; assumption.
Qed.

Lemma respondToLine_sentinel (m : jsstring) (ctx : RunContext) :
  isSentinel m = true ->
  respondToLine m ctx =
    (Normal tt,
     {| logicMessages := logicMessages ctx ++ [m];
        promise := settle (promise ctx) (Fulfilled JsUndefined);
        effects := (effects ctx ++ [Hooked (Resolve JsUndefined)]) ++ [Pushed m] |}).
Proof.
  unfold isSentinel. intros H.
  unfold respondToLine, bind, handleExitingMessage. rewrite H. reflexivity.
Qed.

(** The dispatch of a line that is not the sentinel, step by step. *)
Lemma respondToLine_steps (m : jsstring) (ctx : RunContext) :
  isSentinel m = false ->
  respondToLine m ctx =
  match handleResponseLoop (keys messageResponses) m false ctx with
  | (Throw e, ctx1) => (Throw e, ctx1)
  | (Normal usedResponse, ctx1) =>
      match (if negb usedResponse then
               if memb DEFAULT (keys messageResponses)
               then invokeEntry DEFAULT m
               else ret tt
             else ret tt) ctx1 with
      | (Normal _, ctx2) => push m ctx2
      | (Throw e, ctx2) => (Throw e, ctx2)
      end
  end.
Proof.
  unfold isSentinel. intros Hs.
  unfold ScriptResponder.respondToLine, bind, handleExitingMessage.
  rewrite Hs. unfold ret at 1. cbn [negb].
  unfold ScriptResponder.handleResponse.
  destruct (handleResponseLoop (keys messageResponses) m false ctx)
    as [[used|e] ctx1]; reflexivity.
Qed.

Lemma firingKeys_dispatched (m k : jsstring) :
  In k (firingKeys RegExp messageResponses m) ->
  In k (dispatchedKeys RegExp messageResponses m).
Proof.
  unfold dispatchedKeys.
  destruct (firingKeys RegExp messageResponses m); [intros []|auto].
Qed.

Lemma default_dispatched (m : jsstring) :
  existsb (fires RegExp m) (keys messageResponses) = false ->
  memb DEFAULT (keys messageResponses) = true ->
  dispatchedKeys RegExp messageResponses m = [DEFAULT].
Proof.
  intros He Hd. unfold dispatchedKeys, firingKeys.
  rewrite (existsb_filter_nil _ _ He), Hd. reflexivity.
Qed.

Lemma dispatchedKeys_keys (m k : jsstring) :
  In k (dispatchedKeys RegExp messageResponses m) -> In k (keys messageResponses).
Proof.
  unfold dispatchedKeys, firingKeys.
  destruct (filter (fires RegExp m) (keys messageResponses)) as [|x xs] eqn:E.
  - destruct (memb DEFAULT (keys messageResponses)) eqn:Ed; [|intros []].
    intros [<-|[]]. apply memb_In. exact Ed.
  - rewrite <- E. intros H. apply filter_In in H. tauto.
Qed.

(** A message that is not the sentinel, on a table of regular expressions
    whose callbacks for it return: the dispatch ends normally, reaches
    [dispatchedKeys], and pushes the message last. *)
Lemma respondToLine_valid (m : jsstring) (ctx : RunContext) :
  validKeys RegExp messageResponses = true ->
  isSentinel m = false ->
  returnOn m (dispatchedKeys RegExp messageResponses m) ->
  exists ctx' new,
    respondToLine m ctx = (Normal tt, ctx') /\
    effects ctx' = effects ctx ++ new ++ [Pushed m] /\
    forallb (fun e => negb (isPushed e)) new = true /\
    invocations new =
      List.map (fun k => (k, m)) (dispatchedKeys RegExp messageResponses m) /\
    (readOnlyOn m (dispatchedKeys RegExp messageResponses m) ->
     logicMessages ctx' = logicMessages ctx ++ [m]).
Proof.
  unfold validKeys. intros Hvalid Hs Hret.
  rewrite (respondToLine_steps m ctx Hs).
  destruct (handleResponseLoop_valid m (keys messageResponses) false ctx
              (fun k H => H) Hvalid
              (returnOn_incl m _ _ (firingKeys_dispatched m) Hret))
    as (ctx1 & new & Hr & HE & Hnp & Hinv).
  pose proof (handleResponseLoop_history m (keys messageResponses) false ctx)
    as HL.
  rewrite Hr in *. simpl in HL.
  assert (HL1 : readOnlyOn m (dispatchedKeys RegExp messageResponses m) ->
                logicMessages ctx1 = logicMessages ctx)
    by (intros Hro; apply HL;
        exact (readOnlyOn_incl m _ _ (firingKeys_dispatched m) Hro)).
  clear HL.
  destruct (existsb (fires RegExp m) (keys messageResponses)) eqn:Eex;
    cbn [orb negb].
  - unfold ret at 1, push. eexists. exists new. split; [reflexivity|]. simpl.
    rewrite HE, <- app_assoc.
    destruct (existsb_filter_cons _ _ Eex) as (x & xs & Ef).
    unfold dispatchedKeys, firingKeys in *. rewrite Hinv, Ef in *.
    repeat split; auto. intros Hro. rewrite (HL1 Hro). reflexivity.
  - destruct (memb DEFAULT (keys messageResponses)) eqn:Ed.
    + rewrite (default_dispatched m Eex Ed) in *.
      rewrite (existsb_filter_nil _ _ Eex) in Hinv.
      unfold ScriptResponder.invokeEntry.
      destruct (lookup_keys DEFAULT messageResponses (proj1 (memb_In _ _) Ed))
        as [cb Hcb].
      rewrite Hcb.
      destruct (invoke_spec DEFAULT cb m ctx1) as (ctx2 & -> & HL2 & HE2).
      rewrite (Hret DEFAULT cb (logicMessages ctx1) (or_introl eq_refl) Hcb).
      unfold push.
      eexists. exists (new ++ Invoked DEFAULT m ::
                   List.map Hooked
                     (hookCalls (steps (cb m uiArgumentMap (logicMessages ctx1))))).
      split; [reflexivity|]. simpl.
      rewrite HE2, HE, <- !app_assoc. split; [reflexivity|]. split; [|split].
      * apply forallb_app_true; [exact Hnp | apply hooks_not_pushed].
      * rewrite invocations_app, Hinv. simpl. rewrite invocations_hooks. reflexivity.
      * intros Hro. rewrite HL2, lastWrite_readOnly, (HL1 Hro);
          [reflexivity|].
        exact (Hro DEFAULT cb (logicMessages ctx1) (or_introl eq_refl) Hcb).
    + unfold ret at 1, push. eexists. exists new. split; [reflexivity|]. simpl.
      rewrite HE, <- app_assoc.
      unfold dispatchedKeys, firingKeys in *.
      rewrite (existsb_filter_nil _ _ Eex), Ed in *.
      repeat split; auto. intros Hro. rewrite (HL1 Hro). reflexivity.
Qed.

(** ** Splitting and the depth of the recursion *)

Lemma forEachFuel_total {A}
    (f : A -> RunContext -> option (Completion unit * RunContext))
    (g : A -> M unit) (l : list A) :
  (forall x, In x l -> forall ctx, f x ctx = Some (g x ctx)) ->
  forall ctx, forEachFuel f l ctx = Some (forEach g l ctx).
Proof.
  induction l as [|x l IH]; intros H ctx; [reflexivity|].
  simpl. unfold bind. rewrite (H x (or_introl eq_refl)).
  destruct (g x ctx) as [[[]|e] ctx']; [|reflexivity].
  apply IH. intros y Hy. apply H. simpl; auto.
Qed.

Lemma forEach_ext {A} (f g : A -> M unit) (l : list A) :
  (forall x, In x l -> forall ctx, f x ctx = g x ctx) ->
  forall ctx, forEach f l ctx = forEach g l ctx.
Proof.
  induction l as [|x l IH]; intros H ctx; [reflexivity|].
  simpl. unfold bind. rewrite (H x (or_introl eq_refl)).
  destruct (g x ctx) as [[[]|e] ctx']; [|reflexivity].
  apply IH. intros y Hy. apply H. simpl; auto.
Qed.

Lemma respondToMessageFuel_S (fuel : nat) (m : jsstring) (ctx : RunContext) :
  respondToMessageFuel (S fuel) m ctx =
  if includes (trim m) [LF] then
    forEachFuel (respondToMessageFuel fuel) (split LF (trim m)) ctx
  else Some (respondToLine m ctx).
Proof. reflexivity. Qed.

Lemma respondToMessageFuel_line (fuel : nat) (m : jsstring) (ctx : RunContext) :
  includes (trim m) [LF] = false ->
  respondToMessageFuel (S fuel) m ctx = Some (respondToLine m ctx).
Proof. intros H. rewrite respondToMessageFuel_S, H. reflexivity. Qed.

Lemma respondToMessage_single (m : jsstring) (ctx : RunContext) :
  includes (trim m) [LF] = false ->
  respondToMessage m ctx = respondToLine m ctx.
Proof.
  intros H. unfold ScriptResponder.respondToMessage.
  rewrite (respondToMessageFuel_line 1 m ctx H). reflexivity.
Qed.

Lemma respondToMessage_split (m : jsstring) (ctx : RunContext) :
  includes (trim m) [LF] = true ->
  respondToMessage m ctx = forEach respondToLine (split LF (trim m)) ctx.
Proof.
  intros H. unfold ScriptResponder.respondToMessage.
  rewrite respondToMessageFuel_S, H.
  rewrite (forEachFuel_total _ respondToLine); [reflexivity|].
  intros x Hx ctx'. apply respondToMessageFuel_line.
  exact (split_piece_single_line _ _ Hx).
Qed.

(** Two levels of recursion are enough for every message: more fuel gives
    the same result, and the bound is never reached. *)
Lemma respondToMessageFuel_enough (n : nat) (m : jsstring) (ctx : RunContext) :
  respondToMessageFuel (S (S n)) m ctx = Some (respondToMessage m ctx).
Proof.
  destruct (includes (trim m) [LF]) eqn:H.
  - rewrite (respondToMessage_split m ctx H).
    rewrite respondToMessageFuel_S, H.
    apply forEachFuel_total. intros x Hx ctx'.
    apply respondToMessageFuel_line.
    exact (split_piece_single_line _ _ Hx).
  - rewrite (respondToMessage_single m ctx H).
    apply respondToMessageFuel_line. exact H.
Qed.

(** The line dispatch, with callbacks that leave the array alone, appends
    the message when it ends normally, and nothing when it throws. *)
Lemma respondToLine_history (m : jsstring) (ctx : RunContext) :
  readOnlyOn m (keys messageResponses) ->
  exists c ctx',
    respondToLine m ctx = (c, ctx') /\
    logicMessages ctx' =
    logicMessages ctx ++ match c with Normal _ => [m] | Throw _ => [] end.
Proof.
  intros Hro.
  destruct (isSentinel m) eqn:Hs.
  - rewrite (respondToLine_sentinel m ctx Hs). eexists _, _. split; reflexivity.
  - rewrite (respondToLine_steps m ctx Hs).
    pose proof (handleResponseLoop_history m (keys messageResponses) false ctx) as HL.
    destruct (handleResponseLoop (keys messageResponses) m false ctx)
      as [[used|e] ctx1]; simpl in HL;
      rewrite <- HL
        by (apply (readOnlyOn_incl m (keys messageResponses)); [|exact Hro];
            intros k Hk; apply filter_In in Hk; tauto).
    2:{ eexists _, _. split; [reflexivity|]. rewrite app_nil_r. reflexivity. }
    destruct used; cbn [negb].
    + unfold ret at 1, push. eexists _, _. split; reflexivity.
    + destruct (memb DEFAULT (keys messageResponses)) eqn:Ed.
      * unfold ScriptResponder.invokeEntry.
        destruct (lookup DEFAULT messageResponses) as [cb|] eqn:El.
        -- destruct (invoke_spec DEFAULT cb m ctx1) as (ctx2 & -> & HL2 & _).
           rewrite lastWrite_readOnly in HL2
             by (apply (Hro DEFAULT cb); [apply memb_In; exact Ed | exact El]).
           destruct (thrown (cb m uiArgumentMap (logicMessages ctx1))).
           ++ eexists _, _. split; [reflexivity|]. rewrite app_nil_r. exact HL2.
           ++ unfold push. eexists _, _. split; [reflexivity|].
              simpl. rewrite HL2. reflexivity.
        -- unfold throw. eexists _, _. split; [reflexivity|].
           rewrite app_nil_r. reflexivity.
      * unfold ret at 1, push. eexists _, _. split; reflexivity.
Qed.

Lemma forEach_respondToLine_history (lines : list jsstring) :
  callbacksReadOnly messageResponses uiArgumentMap ->
  forall ctx, exists more,
    logicMessages (snd (forEach respondToLine lines ctx)) =
    logicMessages ctx ++ more.
Proof.
  intros Hro. induction lines as [|l lines IH]; intros ctx.
  - exists []. simpl. rewrite app_nil_r. reflexivity.
  - simpl. unfold bind.
    destruct (respondToLine_history l ctx (Hro l)) as (c & ctx1 & -> & H).
    destruct c as [[]|e].
    + destruct (IH ctx1) as [more Hm]. exists (l :: more).
      rewrite Hm, H, <- app_assoc. reflexivity.
    + exists []. exact H.
Qed.

(** Whatever the keys, a dispatch only appends to the history, when the
    callbacks leave the array alone. *)
Lemma respondToMessage_append_only (m : jsstring) (ctx : RunContext) :
  callbacksReadOnly messageResponses uiArgumentMap ->
  exists more,
    logicMessages (snd (respondToMessage m ctx)) = logicMessages ctx ++ more.
Proof.
  intros Hro.
  destruct (includes (trim m) [LF]) eqn:H.
  - rewrite (respondToMessage_split m ctx H).
    apply forEach_respondToLine_history. exact Hro.
  - rewrite (respondToMessage_single m ctx H).
    destruct (respondToLine_history m ctx (Hro m)) as (c & ctx1 & -> & HL).
    eexists. exact HL.
Qed.

(** Lines on a table of regular expressions, with callbacks that return:
    each is dispatched to its keys and pushed, one after the other. *)
Lemma forEach_respondToLine_dispatch (lines : list jsstring) :
  validKeys RegExp messageResponses = true ->
  (forall l, In l lines -> isSentinel l = false ->
     returnOn l (dispatchedKeys RegExp messageResponses l)) ->
  forall ctx, exists ctx',
    forEach respondToLine lines ctx = (Normal tt, ctx') /\
    invocations (effects ctx') =
      invocations (effects ctx) ++
      flat_map (lineInvocations RegExp messageResponses) lines /\
    ((forall l, In l lines -> isSentinel l = false ->
        readOnlyOn l (dispatchedKeys RegExp messageResponses l)) ->
     logicMessages ctx' = logicMessages ctx ++ lines).
Proof.
  intros Hvalid. induction lines as [|l lines IH]; intros Hret ctx.
  - exists ctx. simpl. rewrite !app_nil_r. auto.
  - simpl. unfold bind.
    assert (H : exists ctx1,
              respondToLine l ctx = (Normal tt, ctx1) /\
              invocations (effects ctx1) =
                invocations (effects ctx) ++
                lineInvocations RegExp messageResponses l /\
              ((isSentinel l = false ->
                readOnlyOn l (dispatchedKeys RegExp messageResponses l)) ->
               logicMessages ctx1 = logicMessages ctx ++ [l])).
    { unfold lineInvocations. destruct (isSentinel l) eqn:Hs.
      - rewrite (respondToLine_sentinel l ctx Hs). eexists.
        split; [reflexivity|]. simpl. rewrite !invocations_app. simpl.
        rewrite !app_nil_r. auto.
      - destruct (respondToLine_valid l ctx Hvalid Hs
                    (Hret l (or_introl eq_refl) Hs))
          as (ctx1 & new & Hr & HE & _ & Hinv & HL).
        exists ctx1. split; [exact Hr|]. split; [|auto].
        rewrite HE, !invocations_app, Hinv. simpl.
        rewrite app_nil_r. reflexivity. }
    destruct H as (ctx1 & -> & HI & HL).
    destruct (IH (fun x Hx => Hret x (or_intror Hx)) ctx1)
      as (ctx' & -> & HI' & HL').
    exists ctx'. split; [reflexivity|]. split.
    + rewrite HI', HI, <- app_assoc. reflexivity.
    + intros Hro. rewrite HL', HL, <- app_assoc; [reflexivity| |].
      * exact (Hro l (or_introl eq_refl)).
      * intros x Hx. exact (Hro x (or_intror Hx)).
Qed.

Lemma callbacksReturn_dispatched (l : jsstring) :
  callbacksReturn messageResponses uiArgumentMap ->
  returnOn l (dispatchedKeys RegExp messageResponses l).
Proof.
  intros H. exact (returnOn_incl l _ _ (dispatchedKeys_keys l) (H l)).
Qed.

Lemma callbacksReadOnly_dispatched (l : jsstring) :
  callbacksReadOnly messageResponses uiArgumentMap ->
  readOnlyOn l (dispatchedKeys RegExp messageResponses l).
Proof.
  intros H. exact (readOnlyOn_incl l _ _ (dispatchedKeys_keys l) (H l)).
Qed.

(** On a table of regular expressions, with callbacks that return, a
    dispatch ends normally and reaches the callbacks of its lines; it
    appends the lines when the callbacks leave the array alone. *)
Lemma respondToMessage_valid_history (m : jsstring) (ctx : RunContext) :
  validKeys RegExp messageResponses = true ->
  callbacksReturn messageResponses uiArgumentMap ->
  exists ctx',
    respondToMessage m ctx = (Normal tt, ctx') /\
    invocations (effects ctx') =
      invocations (effects ctx) ++
      flat_map (lineInvocations RegExp messageResponses) (linesOf m) /\
    (callbacksReadOnly messageResponses uiArgumentMap ->
     logicMessages ctx' = logicMessages ctx ++ linesOf m).
Proof.
  intros Hvalid Hret.
  assert (H : forall lines, exists ctx',
            forEach respondToLine lines ctx = (Normal tt, ctx') /\
            invocations (effects ctx') =
              invocations (effects ctx) ++
              flat_map (lineInvocations RegExp messageResponses) lines /\
            (callbacksReadOnly messageResponses uiArgumentMap ->
             logicMessages ctx' = logicMessages ctx ++ lines)).
  { intros lines.
    destruct (forEach_respondToLine_dispatch lines Hvalid
                (fun l _ _ => callbacksReturn_dispatched l Hret) ctx)
      as (ctx' & Hr & HI & HL).
    exists ctx'. split; [exact Hr|]. split; [exact HI|].
    intros Hro. apply HL. intros l _ _.
    apply callbacksReadOnly_dispatched, Hro. }
  unfold linesOf.
  destruct (includes (trim m) [LF]) eqn:Hl.
  - rewrite (respondToMessage_split m ctx Hl). apply H.
  - rewrite (respondToMessage_single m ctx Hl).
    destruct (H [m]) as (ctx' & Hr & HL).
    exists ctx'. split; [|exact HL].
    simpl in Hr. unfold bind, ret in Hr.
    destruct (respondToLine m ctx) as [[[]|e] ctx1]; [exact Hr | discriminate].
Qed.
(** ** Matching *)

Lemma matchesb_spec (p m : jsstring) :
  matchesb RegExp p m = true <-> matchesPattern RegExp p m.
Proof.
  unfold matchesb, matchesPattern.
  rewrite orb_true_iff, jsstring_eqb_eq. split.
  - intros [H|H]; [left | right; congruence].
    destruct (RegExp p) as [r|]; [eauto | discriminate].
  - intros [(r & Hr & H)|H]; [left | right; congruence].
    rewrite Hr. exact H.
Qed.

Lemma firingKeys_In (m p : jsstring) :
  In p (firingKeys RegExp messageResponses m) <->
  In p (keys messageResponses) /\ p <> DEFAULT /\ matchesPattern RegExp p m.
Proof.
  unfold firingKeys, fires. rewrite filter_In, andb_true_iff, negb_true_iff.
  rewrite jsstring_eqb_neq, matchesb_spec. tauto.
Qed.

Lemma firingKeys_NoDup (m : jsstring) :
  uniqueKeys messageResponses = true ->
  NoDup (firingKeys RegExp messageResponses m).
Proof. intros H. apply NoDup_filter, uniqueb_NoDup, H. Qed.

Lemma dispatchedKeys_NoDup (m : jsstring) :
  uniqueKeys messageResponses = true ->
  NoDup (dispatchedKeys RegExp messageResponses m).
Proof.
  intros H. unfold dispatchedKeys.
  pose proof (firingKeys_NoDup m H) as Hnd.
  destruct (firingKeys RegExp messageResponses m); [|exact Hnd].
  destruct (memb DEFAULT (keys messageResponses)); repeat constructor.
  simpl; tauto.
Qed.

(** A key other than [_default] is dispatched exactly when it matches. *)
Lemma dispatchedKeys_pattern (m p : jsstring) :
  p <> DEFAULT ->
  (In p (dispatchedKeys RegExp messageResponses m) <->
   In p (keys messageResponses) /\ matchesPattern RegExp p m).
Proof.
  intros Hp. unfold dispatchedKeys.
  pose proof (firingKeys_In m p) as HF.
  destruct (firingKeys RegExp messageResponses m) as [|x xs].
  - split.
    + destruct (memb DEFAULT (keys messageResponses)); simpl; intuition congruence.
    + intros [H1 H2]. exfalso. apply HF. tauto.
  - rewrite HF. tauto.
Qed.

(** [_default] is dispatched exactly when it is registered and no other
    key matches. *)
Lemma dispatchedKeys_default (m : jsstring) :
  In DEFAULT (dispatchedKeys RegExp messageResponses m) <->
  In DEFAULT (keys messageResponses) /\
  forall p, In p (keys messageResponses) -> p <> DEFAULT ->
            ~ matchesPattern RegExp p m.
Proof.
  unfold dispatchedKeys.
  pose proof (firingKeys_In m) as HF.
  destruct (firingKeys RegExp messageResponses m) as [|x xs].
  - destruct (memb DEFAULT (keys messageResponses)) eqn:Ed.
    + apply memb_In in Ed. split; [|simpl; auto].
      intros _. split; [exact Ed|]. intros p Hin Hp Hm.
      apply (HF p). tauto.
    + split; [intros []|]. intros [Hin _]. apply memb_In in Hin. congruence.
  - split.
    + intros H. apply HF in H. tauto.
    + intros [_ H]. exfalso.
      destruct (proj1 (HF x) (or_introl eq_refl)) as (Hin & Hp & Hm).
      exact (H x Hin Hp Hm).
Qed.

Lemma invocationCount_dispatched (m p : jsstring) (ctx ctx' : RunContext) :
  uniqueKeys messageResponses = true ->
  invocations (effects ctx') =
    invocations (effects ctx) ++
    List.map (fun k => (k, m)) (dispatchedKeys RegExp messageResponses m) ->
  invocationCount p (effects ctx') =
  (invocationCount p (effects ctx) +
   if memb p (dispatchedKeys RegExp messageResponses m) then 1 else 0)%nat.
Proof.
  intros Hu Hinv.
  rewrite !invocationCount_invocations, Hinv, filter_app, length_app.
  rewrite filter_key_count by (apply dispatchedKeys_NoDup; exact Hu).
  reflexivity.
Qed.

(** C2: a message whose trimmed form is the exiting sentinel ['Exiting...']
    makes [respondToMessage] call [resolve] with no argument (the promise, if
    pending, is fulfilled with [undefined]); no callback is invoked for it,
    neither a pattern's nor [_default]'s; the message is pushed. *)
Theorem C2_sentinel_resolves_without_dispatch (m : jsstring) (ctx : RunContext) :
  trim m = EXITING_MESSAGE ->
  exists ctx',
    respondToMessage m ctx = (Normal tt, ctx') /\
    promise ctx' = settle (promise ctx) (Fulfilled JsUndefined) /\
    effects ctx' = effects ctx ++ [Hooked (Resolve JsUndefined); Pushed m] /\
    invocations (effects ctx') = invocations (effects ctx) /\
    (forall p, invocationCount p (effects ctx') = invocationCount p (effects ctx)).
Proof.
  intros H.
  assert (Hs : isSentinel m = true)
    by (unfold isSentinel; rewrite H; apply jsstring_eqb_refl).
  assert (Hl : includes (trim m) [LF] = false) by (rewrite H; reflexivity).
  rewrite (respondToMessage_single m ctx Hl), (respondToLine_sentinel m ctx Hs).
  eexists. split; [reflexivity|]. simpl. rewrite <- app_assoc. simpl.
  repeat split.
  - rewrite invocations_app. simpl. apply app_nil_r.
  - intros p. rewrite invocationCount_app. simpl. lia.
Qed.

(** C3, amended: on a table (an object: each key once) whose keys other
    than [_default] are all regular expressions, a single-line message that
    is not the sentinel, with the callbacks it reaches returning, invokes
    the callback of every matching key exactly once and of no other key,
    each with this message; [_default] is invoked exactly once when it is
    registered and no other key matches, and not at all otherwise. *)
Theorem C3_fan_out_when_callbacks_return (m : jsstring) (ctx : RunContext) :
  validKeys RegExp messageResponses = true ->
  uniqueKeys messageResponses = true ->
  includes (trim m) [LF] = false ->
  trim m <> EXITING_MESSAGE ->
  returnOn m (dispatchedKeys RegExp messageResponses m) ->
  exists ctx',
    respondToMessage m ctx = (Normal tt, ctx') /\
    invocations (effects ctx') =
      invocations (effects ctx) ++
      List.map (fun k => (k, m)) (dispatchedKeys RegExp messageResponses m) /\
    (forall p, In p (keys messageResponses) -> p <> DEFAULT ->
       (matchesPattern RegExp p m ->
        invocationCount p (effects ctx') = S (invocationCount p (effects ctx))) /\
       (~ matchesPattern RegExp p m ->
        invocationCount p (effects ctx') = invocationCount p (effects ctx))) /\
    let fallsToDefault :=
      In DEFAULT (keys messageResponses) /\
      forall p, In p (keys messageResponses) -> p <> DEFAULT ->
                ~ matchesPattern RegExp p m in
    (fallsToDefault ->
     invocationCount DEFAULT (effects ctx') =
       S (invocationCount DEFAULT (effects ctx))) /\
    (~ fallsToDefault ->
     invocationCount DEFAULT (effects ctx') =
       invocationCount DEFAULT (effects ctx)).
Proof.
  intros Hvalid Hu Hl Hns Hret.
  assert (Hs : isSentinel m = false)
    by (unfold isSentinel; apply jsstring_eqb_neq; exact Hns).
  rewrite (respondToMessage_single m ctx Hl).
  destruct (respondToLine_valid m ctx Hvalid Hs Hret)
    as (ctx' & new & -> & HE & _ & Hinv & _).
  exists ctx'. split; [reflexivity|].
  assert (Hall : invocations (effects ctx') =
                 invocations (effects ctx) ++
                 List.map (fun k => (k, m))
                   (dispatchedKeys RegExp messageResponses m)).
  { rewrite HE, !invocations_app, Hinv. simpl. rewrite app_nil_r. reflexivity. }
  split; [exact Hall|].
  assert (Hcount : forall p,
    invocationCount p (effects ctx') =
    (invocationCount p (effects ctx) +
     if memb p (dispatchedKeys RegExp messageResponses m) then 1 else 0)%nat)
    by (intros p; apply (invocationCount_dispatched m p ctx ctx' Hu Hall)).
  split; [|split].
  - intros p Hin Hp. rewrite Hcount.
    pose proof (dispatchedKeys_pattern m p Hp) as HD.
    destruct (memb p (dispatchedKeys RegExp messageResponses m)) eqn:Em.
    + apply memb_In in Em. split; [intros; lia|].
      intros Hno. exfalso. apply Hno. apply HD. exact Em.
    + split; [|intros; lia]. intros Hm. exfalso.
      assert (In p (dispatchedKeys RegExp messageResponses m)) as Hd
        by (apply HD; tauto).
      apply memb_In in Hd. congruence.
  - intros Hd. rewrite Hcount.
    apply dispatchedKeys_default, memb_In in Hd. rewrite Hd. lia.
  - intros Hd. rewrite Hcount.
    destruct (memb DEFAULT (dispatchedKeys RegExp messageResponses m)) eqn:Em;
      [|lia].
    exfalso. apply Hd. apply dispatchedKeys_default, memb_In. exact Em.
Qed.

(** Past a key that is no regular expression the loop does not go: it
    throws, having invoked callbacks of earlier keys only. *)
Lemma handleResponseLoop_invalid (m k : jsstring) (after : list jsstring) :
  k <> DEFAULT -> RegExp k = None ->
  forall (before : list jsstring) (handled : bool) (ctx : RunContext),
  exists e ctx' new,
    handleResponseLoop (before ++ k :: after) m handled ctx = (Throw e, ctx') /\
    effects ctx' = effects ctx ++ new /\
    forallb (fun e => negb (isPushed e)) new = true /\
    (forall p, (In p before -> p = DEFAULT) -> invocationCount p new = O) /\
    (readOnlyOn m (filter (fires RegExp m) before) ->
     logicMessages ctx' = logicMessages ctx) /\
    (validPrompts before = true ->
     (forall k', In k' before -> In k' (keys messageResponses)) ->
     returnOn m (filter (fires RegExp m) before) ->
     e = invalidRegExp k).
Proof.
  intros Hk Hinvalid. apply jsstring_eqb_neq in Hk.
  induction before as [|k' before IH]; intros handled ctx.
  - exists (invalidRegExp k), ctx, []. simpl app.
    rewrite handleResponseLoop_cons, Hk, Hinvalid, app_nil_r.
    repeat split; auto.
  - simpl app. rewrite handleResponseLoop_cons.
    assert (Hskip : forall handled',
      exists e ctx' new,
        handleResponseLoop (before ++ k :: after) m handled' ctx = (Throw e, ctx') /\
        effects ctx' = effects ctx ++ new /\
        forallb (fun e => negb (isPushed e)) new = true /\
        (forall p, (In p (k' :: before) -> p = DEFAULT) ->
           invocationCount p new = O) /\
        (readOnlyOn m (filter (fires RegExp m) (k' :: before)) ->
         logicMessages ctx' = logicMessages ctx) /\
        (validPrompts (k' :: before) = true ->
         (forall x, In x (k' :: before) -> In x (keys messageResponses)) ->
         returnOn m (filter (fires RegExp m) (k' :: before)) ->
         e = invalidRegExp k)).
    { intros handled'.
      destruct (IH handled' ctx) as (e & ctx' & new & Hr & HE & Hnp & Hcount & HL & He).
      exists e, ctx', new. split; [exact Hr|]. split; [exact HE|].
      split; [exact Hnp|]. split; [|split].
      - intros p Hp. apply Hcount. intros Hin. apply Hp. simpl; auto.
      - intros Hro. apply HL.
        exact (readOnlyOn_incl m _ _ (filter_tail_In _ k' before) Hro).
      - intros Hv Hin Hret. simpl in Hv. apply andb_true_iff in Hv.
        apply He; [tauto | intros x Hx; apply Hin; simpl; auto |].
        exact (returnOn_incl m _ _ (filter_tail_In _ k' before) Hret). }
    destruct (JsString.eqb k' DEFAULT) eqn:Ek'; [apply Hskip|].
    destruct (RegExp k') as [r|] eqn:Er.
    2:{ exists (invalidRegExp k'), ctx, []. rewrite app_nil_r.
        repeat (split; [reflexivity|]).
        intros Hv _ _. simpl in Hv. rewrite Ek', Er in Hv. discriminate. }
    destruct (r m || JsString.eqb k' (trim m)) eqn:Em; [|apply Hskip].
    assert (Hf : In k' (filter (fires RegExp m) (k' :: before))).
    { apply filter_In. split; [left; reflexivity|].
      rewrite (fires_regexp m k' r Ek' Er). exact Em. }
    unfold ScriptResponder.invokeEntry.
    destruct (lookup k' messageResponses) as [cb|] eqn:El.
    2:{ exists (JsErr TypeError k'), ctx, []. unfold throw. rewrite app_nil_r.
        repeat (split; [reflexivity|]).
        intros _ Hin _.
        destruct (lookup_keys k' messageResponses (Hin k' (or_introl eq_refl)))
          as [cb Hcb]. congruence. }
    destruct (invoke_spec k' cb m ctx) as (ctx1 & -> & HL1 & HE1).
    assert (Hcount1 : forall p, (In p (k' :: before) -> p = DEFAULT) ->
              invocationCount p
                (Invoked k' m ::
                 List.map Hooked
                   (hookCalls (steps (cb m uiArgumentMap (logicMessages ctx))))) = O).
    { intros p Hp. simpl.
      destruct (JsString.eqb k' p) eqn:Ep.
      - apply jsstring_eqb_eq in Ep. subst p.
        rewrite (Hp (or_introl eq_refl)), jsstring_eqb_refl in Ek'. discriminate.
      - rewrite invocationCount_invocations, invocations_hooks. reflexivity. }
    assert (HL1' : readOnlyOn m (filter (fires RegExp m) (k' :: before)) ->
                   logicMessages ctx1 = logicMessages ctx).
    { intros Hro. rewrite HL1. apply lastWrite_readOnly.
      exact (Hro k' cb (logicMessages ctx) Hf El). }
    destruct (thrown (cb m uiArgumentMap (logicMessages ctx))) as [e0|] eqn:Eth.
    + exists e0, ctx1,
        (Invoked k' m ::
         List.map Hooked (hookCalls (steps (cb m uiArgumentMap (logicMessages ctx))))).
      split; [reflexivity|]. split; [exact HE1|].
      split; [apply hooks_not_pushed|]. split; [exact Hcount1|].
      split; [exact HL1'|].
      intros _ _ Hret. rewrite (Hret k' cb (logicMessages ctx) Hf El) in Eth.
      discriminate.
    + destruct (IH true ctx1) as (e & ctx' & new & Hr & HE & Hnp & Hcount & HL & He).
      exists e, ctx',
        ((Invoked k' m ::
          List.map Hooked (hookCalls (steps (cb m uiArgumentMap (logicMessages ctx)))))
           ++ new).
      split; [exact Hr|]. split; [rewrite HE, HE1, <- app_assoc; reflexivity|].
      split; [apply forallb_app_true; [apply hooks_not_pushed | exact Hnp]|].
      split; [|split].
      * intros p Hp. rewrite invocationCount_app, (Hcount1 p Hp).
        apply Hcount. intros Hin. apply Hp. simpl; auto.
      * intros Hro. rewrite HL, (HL1' Hro); [reflexivity|].
        exact (readOnlyOn_incl m _ _ (filter_tail_In _ k' before) Hro).
      * intros Hv Hin Hret. simpl in Hv. apply andb_true_iff in Hv.
        apply He; [tauto | intros x Hx; apply Hin; simpl; auto |].
        exact (returnOn_incl m _ _ (filter_tail_In _ k' before) Hret).
Qed.

Lemma uniqueb_app_not_In (a b : list jsstring) (p : jsstring) :
  uniqueb (a ++ b) = true -> In p b -> ~ In p a.
Proof.
  induction a as [|x a IH]; simpl; [tauto|].
  intros H Hb. apply andb_true_iff in H. destruct H as [Hx Ha].
  intros [->|Hin]; [|exact (IH Ha Hb Hin)].
  apply negb_true_iff in Hx.
  assert (memb p (a ++ b) = true) by (apply memb_In, in_or_app; auto).
  congruence.
Qed.

(** C10: with a key other than [_default] that is no regular expression in
    the table, the dispatch of a single-line message that is not the
    sentinel throws: the callbacks of the keys enumerated after that key are
    not invoked, nor is [_default]'s; the message is not pushed (the array
    is as it was, unless a callback invoked before wrote to it); and the
    exception leaves [respondToMessage]. It is the SyntaxError of that key
    when the keys before it are regular expressions and their callbacks
    return. *)
Theorem C10_invalid_key_aborts_dispatch
    (before after : ResponseTable) (k : jsstring) (cb : ResponseCallback)
    (m : jsstring) (ctx : RunContext) :
  messageResponses = before ++ (k, cb) :: after ->
  uniqueKeys messageResponses = true ->
  k <> DEFAULT ->
  RegExp k = None ->
  includes (trim m) [LF] = false ->
  trim m <> EXITING_MESSAGE ->
  exists e ctx',
    respondToMessage m ctx = (Throw e, ctx') /\
    (exists new,
       effects ctx' = effects ctx ++ new /\
       forallb (fun e => negb (isPushed e)) new = true) /\
    (readOnlyOn m (firingKeys RegExp before m) ->
     logicMessages ctx' = logicMessages ctx) /\
    (forall p, In p (keys after) ->
       invocationCount p (effects ctx') = invocationCount p (effects ctx)) /\
    invocationCount DEFAULT (effects ctx') = invocationCount DEFAULT (effects ctx) /\
    (validKeys RegExp before = true ->
     returnOn m (firingKeys RegExp before m) ->
     e = invalidRegExp k) /\
    (forall r, context r = ctx ->
       uncaught (ScriptCommunicator.onMessage RegExp messageResponses
                   uiArgumentMap m r) = uncaught r ++ [e]).
Proof.
  intros Ht Hu Hk Hinvalid Hl Hns.
  assert (Hs : isSentinel m = false)
    by (unfold isSentinel; apply jsstring_eqb_neq; exact Hns).
  assert (Hun : forall e ctx',
            respondToMessage m ctx = (Throw e, ctx') ->
            forall r, context r = ctx ->
              uncaught (ScriptCommunicator.onMessage RegExp messageResponses
                          uiArgumentMap m r) = uncaught r ++ [e]).
  { intros e ctx' Hr r Hctx. unfold ScriptCommunicator.onMessage.
    rewrite Hctx, Hr. reflexivity. }
  revert Hun.
  rewrite (respondToMessage_single m ctx Hl), (respondToLine_steps m ctx Hs).
  assert (Hkeys : keys messageResponses = keys before ++ k :: keys after)
    by (rewrite Ht; unfold keys; rewrite map_app; reflexivity).
  rewrite Hkeys.
  destruct (handleResponseLoop_invalid m k (keys after) Hk Hinvalid
              (keys before) false ctx)
    as (e & ctx' & new & -> & HE & Hnp & Hcount & HL & He).
  intros Hun.
  exists e, ctx'. split; [reflexivity|].
  split; [exists new; split; assumption|].
  split; [exact HL|].
  rewrite HE. split; [|split; [|split]].
  - intros p Hp. rewrite invocationCount_app, Hcount; [lia|].
    intros Hin. exfalso.
    unfold uniqueKeys in Hu. rewrite Hkeys in Hu.
    apply (uniqueb_app_not_In (keys before) (k :: keys after) p Hu);
      simpl; auto.
  - rewrite invocationCount_app, Hcount; [lia | auto].
  - intros Hv Hret. apply He; [exact Hv | | exact Hret].
    intros k' Hin. rewrite Hkeys. apply in_or_app. auto.
  - exact (Hun e ctx' eq_refl).
Qed.

(** C7, amended: a message whose trimmed form holds a line separator is
    split, after trimming, into its lines, and [respondToMessage] is applied
    to each in order, each taking the single-line path; the chunk itself is
    not among them. When the table's keys are regular expressions, no key
    matches any of the lines, none of the lines is the sentinel, [_default]
    is registered and returns on each of the lines, [_default] is invoked
    once per line, in order; and the history grows by the lines, in order,
    when [_default] leaves the array alone. *)
Theorem C7_chunks_are_dispatched_line_by_line (m : jsstring) (ctx : RunContext) :
  includes (trim m) [LF] = true ->
  let lines := split LF (trim m) in
  respondToMessage m ctx = forEach respondToMessage lines ctx /\
  (forall l, In l lines ->
     includes (trim l) [LF] = false /\
     forall c, respondToMessage l c = respondToLine l c) /\
  ~ In m lines /\
  (validKeys RegExp messageResponses = true ->
   In DEFAULT (keys messageResponses) ->
   (forall l, In l lines ->
      trim l <> EXITING_MESSAGE /\
      forall p, In p (keys messageResponses) -> p <> DEFAULT ->
                ~ matchesPattern RegExp p l) ->
   (forall l, In l lines -> returnOn l [DEFAULT]) ->
   exists ctx',
     respondToMessage m ctx = (Normal tt, ctx') /\
     invocations (effects ctx') =
       invocations (effects ctx) ++ List.map (fun l => (DEFAULT, l)) lines /\
     ((forall l, In l lines -> readOnlyOn l [DEFAULT]) ->
      logicMessages ctx' = logicMessages ctx ++ lines)).
Proof.
  intros H lines.
  assert (Hsingle : forall l, In l lines -> includes (trim l) [LF] = false)
    by (intros l Hl; exact (split_piece_single_line _ _ Hl)).
  split; [|split; [|split]].
  - rewrite (respondToMessage_split m ctx H). symmetry.
    apply forEach_ext. intros l Hl c.
    apply respondToMessage_single, Hsingle, Hl.
  - intros l Hl. split; [auto|]. intros c.
    apply respondToMessage_single, Hsingle, Hl.
  - intros Hin. apply (split_no_sep LF (trim m) m Hin).
    apply trim_In. apply includes_unit_In. exact H.
  - intros Hvalid Hdef Hlines Hret.
    rewrite (respondToMessage_split m ctx H).
    assert (Hns : forall l, In l lines -> isSentinel l = false).
    { intros l Hl. unfold isSentinel. apply jsstring_eqb_neq.
      apply (Hlines l Hl). }
    assert (Hd : forall l, In l lines ->
                 dispatchedKeys RegExp messageResponses l = [DEFAULT]).
    { intros l Hl. unfold dispatchedKeys.
      destruct (firingKeys RegExp messageResponses l) as [|x xs] eqn:Ef.
      - apply memb_In in Hdef. rewrite Hdef. reflexivity.
      - exfalso.
        assert (Hx : In x (firingKeys RegExp messageResponses l))
          by (rewrite Ef; simpl; auto).
        apply firingKeys_In in Hx. destruct Hx as (Hin & Hp & Hm).
        exact (proj2 (Hlines l Hl) x Hin Hp Hm). }
    destruct (forEach_respondToLine_dispatch lines Hvalid) with (ctx := ctx)
      as (ctx' & Hr & HI & HL).
    { intros l Hl _. rewrite (Hd l Hl). exact (Hret l Hl). }
    exists ctx'. split; [exact Hr|]. split.
    + rewrite HI. f_equal.
      clear - Hd Hns. induction lines as [|l lines IH]; [reflexivity|].
      simpl. unfold lineInvocations at 1.
      rewrite (Hns l (or_introl eq_refl)), (Hd l (or_introl eq_refl)).
      simpl. f_equal.
      apply IH; intros x Hx; [apply Hns | apply Hd]; simpl; auto.
    + intros Hro. apply HL. intros l Hl _. rewrite (Hd l Hl). exact (Hro l Hl).
Qed.

End ResponderFacts.

(** C8, where the code departs from it: by the claim a key matches when the
    trimmed message equals it literally, and the comment above the test in
    [handleResponse] says the same ("as a regex or exact matched string").
    For a key that is no regular expression the expression is constructed
    first and the construction throws: a message whose trimmed form is the
    key itself matches by the claim's rule, yet the test throws before the
    comparison, and the dispatch of the message on the table of that key
    throws the SyntaxError, leaving everything as it was: the key's
    callback is not invoked and the message is not pushed. *)
Theorem C8_literal_match_is_lost_on_invalid_key
    (RegExp : RegExpEngine) (uiArgumentMap : ArgumentMap)
    (p m : jsstring) (cb : ResponseCallback) (ctx : RunContext) :
  RegExp p = None ->
  p <> DEFAULT ->
  trim m = p ->
  includes (trim m) [LF] = false ->
  trim m <> EXITING_MESSAGE ->
  matchesPattern RegExp p m /\
  promptMatches RegExp p m ctx = (Throw (invalidRegExp p), ctx) /\
  handleResponse RegExp [(p, cb)] uiArgumentMap m ctx =
    (Throw (invalidRegExp p), ctx) /\
  respondToMessage RegExp [(p, cb)] uiArgumentMap m ctx =
    (Throw (invalidRegExp p), ctx).
Proof.
  intros Hinvalid Hp Ht Hl Hns.
  assert (Hs : isSentinel m = false)
    by (unfold isSentinel; apply jsstring_eqb_neq; exact Hns).
  apply jsstring_eqb_neq in Hp.
  assert (Hh : handleResponse RegExp [(p, cb)] uiArgumentMap m ctx =
               (Throw (invalidRegExp p), ctx)).
  { unfold handleResponse. simpl keys.
    rewrite handleResponseLoop_cons, Hp, Hinvalid. reflexivity. }
  split; [right; exact Ht|].
  split; [unfold promptMatches; rewrite Hinvalid; reflexivity|].
  split; [exact Hh|].
  rewrite (respondToMessage_single RegExp [(p, cb)] uiArgumentMap m ctx Hl).
  rewrite (respondToLine_steps RegExp [(p, cb)] uiArgumentMap m ctx Hs).
  unfold handleResponse in Hh. rewrite Hh. reflexivity.
Qed.
(** ** What a dispatch preserves *)

Section Preservation.

Variable RegExp : RegExpEngine.
Variable messageResponses : ResponseTable.
Variable uiArgumentMap : ArgumentMap.

(** A property of the context that hook calls, writes of the callbacks,
    observations and pushes keep. *)
Variable Q : RunContext -> Prop.
Hypothesis Q_callHook : forall h ctx, Q ctx -> Q (snd (callHook h ctx)).
Hypothesis Q_write : forall l ctx, Q ctx -> Q (snd (writeMessages l ctx)).
Hypothesis Q_observe :
  forall p m ctx, Q ctx -> Q (snd (observe (Invoked p m) ctx)).
Hypothesis Q_push : forall m ctx, Q ctx -> Q (snd (push m ctx)).

Lemma performAll_preserves (ss : list CallbackStep) :
  forall ctx, Q ctx -> Q (snd (forEach perform ss ctx)).
Proof.
  induction ss as [|[h|l] ss IH]; intros ctx H; [exact H| |].
  - simpl. unfold bind. simpl. apply IH. exact (Q_callHook h ctx H).
  - simpl. unfold bind. simpl. apply IH. exact (Q_write l ctx H).
Qed.

Lemma invoke_preserves (p : jsstring) (cb : ResponseCallback) (m : jsstring)
    (ctx : RunContext) :
  Q ctx -> Q (snd (invoke uiArgumentMap p cb m ctx)).
Proof.
  intros H. unfold invoke. cbv zeta. unfold bind at 1. simpl.
  unfold bind.
  pose proof (performAll_preserves
                (steps (cb m uiArgumentMap (logicMessages ctx))) _
                (Q_observe p m ctx H)) as H1.
  destruct (forEach perform (steps (cb m uiArgumentMap (logicMessages ctx))) _)
    as [[[]|e] ctx1]; [|exact H1].
  destruct (thrown (cb m uiArgumentMap (logicMessages ctx))); exact H1.
Qed.

Lemma invokeEntry_preserves (p m : jsstring) (ctx : RunContext) :
  Q ctx -> Q (snd (invokeEntry messageResponses uiArgumentMap p m ctx)).
Proof.
  intros H. unfold invokeEntry.
  destruct (lookup p messageResponses); [apply invoke_preserves | ]; exact H.
Qed.

Lemma handleResponseLoop_preserves (m : jsstring) (prompts : list jsstring) :
  forall handled ctx,
    Q ctx ->
    Q (snd (handleResponseLoop RegExp messageResponses uiArgumentMap
              prompts m handled ctx)).
Proof.
  induction prompts as [|k prompts IH]; intros handled ctx H; [exact H|].
  simpl. destruct (JsString.eqb k DEFAULT); simpl; [apply IH; exact H|].
  unfold bind at 1, promptMatches.
  destruct (RegExp k) as [r|]; [|exact H]. unfold ret at 1.
  destruct (r m || JsString.eqb k (trim m)); [|apply IH; exact H].
  unfold bind at 1.
  pose proof (invokeEntry_preserves k m ctx H) as H1.
  destruct (invokeEntry messageResponses uiArgumentMap k m ctx) as [[[]|e] ctx1];
    [apply IH|]; exact H1.
Qed.

Lemma respondToLine_preserves (m : jsstring) (ctx : RunContext) :
  Q ctx ->
  Q (snd (respondToLine RegExp messageResponses uiArgumentMap m ctx)).
Proof.
  intros H. destruct (isSentinel m) eqn:Hs.
  - unfold isSentinel in Hs.
    unfold respondToLine, bind, handleExitingMessage. rewrite Hs.
    unfold bind, ret. simpl.
    exact (Q_push m _ (Q_callHook (Resolve JsUndefined) ctx H)).
  - rewrite (respondToLine_steps _ _ _ m ctx Hs).
    pose proof (handleResponseLoop_preserves m (keys messageResponses) false ctx H)
      as H1.
    destruct (handleResponseLoop RegExp messageResponses uiArgumentMap
                (keys messageResponses) m false ctx) as [[used|e] ctx1];
      [|exact H1].
    simpl in H1.
    assert (H2 : Q (snd ((if negb used then
                            if memb DEFAULT (keys messageResponses)
                            then invokeEntry messageResponses uiArgumentMap DEFAULT m
                            else ret tt
                          else ret tt) ctx1))).
    { destruct used; simpl; [exact H1|].
      destruct (memb DEFAULT (keys messageResponses));
        [apply invokeEntry_preserves|]; exact H1. }
    destruct ((if negb used then
                 if memb DEFAULT (keys messageResponses)
                 then invokeEntry messageResponses uiArgumentMap DEFAULT m
                 else ret tt
               else ret tt) ctx1) as [[[]|e] ctx2];
      [apply Q_push|]; exact H2.
Qed.

Lemma forEach_respondToLine_preserves (lines : list jsstring) :
  forall ctx,
    Q ctx ->
    Q (snd (forEach (respondToLine RegExp messageResponses uiArgumentMap)
              lines ctx)).
Proof.
  induction lines as [|l lines IH]; intros ctx H; [exact H|].
  simpl. unfold bind.
  pose proof (respondToLine_preserves l ctx H) as H1.
  destruct (respondToLine RegExp messageResponses uiArgumentMap l ctx)
    as [[[]|e] ctx1]; [apply IH|]; exact H1.
Qed.

Lemma respondToMessage_preserves (m : jsstring) (ctx : RunContext) :
  Q ctx ->
  Q (snd (respondToMessage RegExp messageResponses uiArgumentMap m ctx)).
Proof.
  intros H. destruct (includes (trim m) [LF]) eqn:Hl.
  - rewrite (respondToMessage_split _ _ _ m ctx Hl).
    apply forEach_respondToLine_preserves. exact H.
  - rewrite (respondToMessage_single _ _ _ m ctx Hl).
    apply respondToLine_preserves. exact H.
Qed.

End Preservation.

Lemma settle_settled (p outcome : PromiseState) :
  p <> Pending -> settle p outcome = p.
Proof. destruct p; simpl; congruence. Qed.

(** Once the promise is settled no dispatch changes it. *)
Lemma respondToMessage_settled
    (RegExp : RegExpEngine) (t : ResponseTable) (args : ArgumentMap)
    (m : jsstring) (ctx : RunContext) :
  promise ctx <> Pending ->
  promise (snd (respondToMessage RegExp t args m ctx)) = promise ctx.
Proof.
  intros Hp.
  apply (respondToMessage_preserves RegExp t args
           (fun c => promise c = promise ctx)); try reflexivity.
  - intros h c Hc. simpl. rewrite Hc.
    destruct h; try reflexivity; apply settle_settled; exact Hp.
  - intros l c Hc. exact Hc.
  - intros p m' c Hc. exact Hc.
  - intros m' c Hc. exact Hc.
Qed.

(** ** The communicator *)

Lemma react_context (r : Run) : context (react r) = context r.
Proof.
  unfold react, catchReaction, onFulfilled, onRejected.
  destruct r as [[[t sg]|] l c re ec oc un]; simpl;
    destruct re; simpl; try reflexivity;
    destruct (promise c) as [|v|e]; simpl; try reflexivity;
    try (destruct t; reflexivity);
    destruct (readMessage e); simpl; try reflexivity;
    destruct t; reflexivity.
Qed.

Lemma react_listening (r : Run) : listening (react r) = listening r.
Proof.
  unfold react, catchReaction, onFulfilled, onRejected.
  destruct r as [[[t sg]|] l c re ec oc un]; simpl;
    destruct re; simpl; try reflexivity;
    destruct (promise c) as [|v|e]; simpl; try reflexivity;
    try (destruct t; reflexivity);
    destruct (readMessage e); simpl; try reflexivity;
    destruct t; reflexivity.
Qed.

Lemma react_terminatedFlag (r : Run) :
  terminatedFlag (react r) = terminatedFlag r.
Proof.
  unfold react, catchReaction, onFulfilled, onRejected, terminatedFlag.
  destruct r as [[[t sg]|] l c re ec oc un]; simpl;
    destruct re; simpl; try reflexivity;
    destruct (promise c) as [|v|e]; simpl; try reflexivity;
    try (destruct t; reflexivity);
    destruct (readMessage e); simpl; try reflexivity;
    destruct t; reflexivity.
Qed.

Lemma react_reacted_id (r : Run) : reacted r = true -> react r = r.
Proof. unfold react. intros ->. reflexivity. Qed.

Lemma react_pending_id (r : Run) :
  promise (context r) = Pending -> react r = r.
Proof. unfold react. intros ->. destruct (reacted r); reflexivity. Qed.

(** Both termination paths read the flag first: on a handle that has
    terminated the reactions send no signal. *)
Lemma react_terminated_no_signal (r : Run) :
  terminatedFlag r = true -> signalsOf (react r) = signalsOf r.
Proof.
  unfold react, catchReaction, onFulfilled, onRejected, terminatedFlag, signalsOf.
  destruct r as [[[t sg]|] l c re ec oc un]; simpl; intros Ht; subst;
    destruct re; simpl; try reflexivity;
    destruct (promise c) as [|v|e]; simpl; try reflexivity;
    try discriminate;
    destruct (readMessage e); reflexivity.
Qed.

(** Closes the cases of a reaction once the run is taken apart. *)
Ltac close_case :=
  repeat split; simpl in *; auto; try discriminate; try congruence; try lia;
  try (intros ? [<-|[]]; reflexivity);
  try (intros ? []).

(** The reactions of a fresh run leave it consistent. *)
Lemma react_fresh (r : Run) : fresh r -> consistent (react r).
Proof.
  unfold fresh, consistent, react, catchReaction, onFulfilled, onRejected,
    signalsOf.
  destruct r as [[[t sg]|] l c re ec oc un]; simpl;
    intros (Hre & Hsg & Hec & Hoc & Hl & Hi); subst; try congruence.
  destruct (promise c) as [|v|e] eqn:Hp; simpl.
  - rewrite Hp. close_case.
  - destruct t; simpl; rewrite Hp; close_case.
  - destruct (readMessage e); simpl; [destruct t; simpl|]; rewrite Hp; close_case.
Qed.

Section CommunicatorFacts.

Variable RegExp : RegExpEngine.
Variable messageResponses : ResponseTable.
Variable uiArgumentMap : ArgumentMap.
Variable isPythonShell : bool.

Local Notation onMessage :=
  (ScriptCommunicator.onMessage RegExp messageResponses uiArgumentMap).
Local Notation step :=
  (ScriptCommunicator.step RegExp messageResponses uiArgumentMap isPythonShell).
Local Notation runEvents :=
  (ScriptCommunicator.runEvents RegExp messageResponses uiArgumentMap isPythonShell).
Local Notation respondToMessage :=
  (ScriptResponder.respondToMessage RegExp messageResponses uiArgumentMap).

(** The message listener changes the context and may leave an exception
    uncaught; it touches nothing else. *)
Lemma onMessage_fields (m : jsstring) (r : Run) :
  interpreter (onMessage m r) = interpreter r /\
  listening (onMessage m r) = listening r /\
  reacted (onMessage m r) = reacted r /\
  endCallback (onMessage m r) = endCallback r /\
  outerCalls (onMessage m r) = outerCalls r /\
  context (onMessage m r) = snd (respondToMessage m (context r)).
Proof.
  unfold ScriptCommunicator.onMessage.
  destruct (respondToMessage m (context r)) as [[[]|e] ctx]; simpl; auto 10.
Qed.

Lemma run_consistent (s : Spawn) : consistent (run s).
Proof.
  destruct s as [err|err|];
    unfold run, executor, react, catchReaction, onRejected, consistent, fresh,
      signalsOf; simpl;
    try (destruct (readMessage err); simpl); close_case.
Qed.

Lemma consistent_pending (r : Run) :
  consistent r -> promise (context r) = Pending -> fresh r.
Proof.
  intros (Ha & Hb & _) Hp. apply Hb. rewrite Ha, Hp. reflexivity.
Qed.

Lemma consistent_settled (r : Run) :
  consistent r -> promise (context r) <> Pending -> reacted r = true.
Proof.
  intros (Ha & _) Hp. rewrite Ha.
  destruct (promise (context r)); [congruence | reflexivity | reflexivity].
Qed.

(** A listener that only works on the context, and leaves a settled promise
    as it is, keeps the run consistent once the reactions have run. *)
Lemma listener_consistent (r r' : Run) :
  consistent r ->
  signalsOf r' = signalsOf r ->
  (interpreter r <> None -> interpreter r' <> None) ->
  listening r' = listening r ->
  reacted r' = reacted r ->
  endCallback r' = endCallback r ->
  outerCalls r' = outerCalls r ->
  (promise (context r) <> Pending ->
   promise (context r') = promise (context r)) ->
  consistent (react r').
Proof.
  intros Hc Hsg Hi Hl Hre Hec Hoc Hp.
  destruct (promise (context r)) as [|v|e] eqn:Epr.
  - apply react_fresh.
    destruct (consistent_pending r Hc Epr) as (F1 & F2 & F3 & F4 & F5 & F6).
    unfold fresh. rewrite Hre, Hsg, Hec, Hoc, Hl. auto 10.
  - assert (Hr : reacted r = true) by (apply consistent_settled; congruence).
    rewrite react_reacted_id by congruence.
    destruct Hc as (Ha & Hb & Hc & Hd).
    unfold consistent. rewrite Hre, Hsg, Hp by discriminate.
    rewrite Epr in Ha, Hd.
    split; [exact Ha|]. split; [intros H; congruence|]. split; assumption.
  - assert (Hr : reacted r = true) by (apply consistent_settled; congruence).
    rewrite react_reacted_id by congruence.
    destruct Hc as (Ha & Hb & Hc & Hd).
    unfold consistent. rewrite Hre, Hsg, Hp by discriminate.
    rewrite Epr in Ha, Hd.
    split; [exact Ha|]. split; [intros H; congruence|]. split; assumption.
Qed.

Lemma onMessage_consistent (m : jsstring) (r : Run) :
  consistent r -> consistent (react (onMessage m r)).
Proof.
  intros Hc.
  destruct (onMessage_fields m r) as (Hi & Hl & Hre & Hec & Hoc & Hctx).
  apply (listener_consistent r); auto.
  - unfold signalsOf. rewrite Hi. reflexivity.
  - rewrite Hi. auto.
  - intros Hp. rewrite Hctx. apply respondToMessage_settled. exact Hp.
Qed.

Lemma onError_consistent (err : JsValue) (r : Run) :
  consistent r -> consistent (react (onError err r)).
Proof.
  intros Hc. apply (listener_consistent r); auto.
  intros Hp. simpl. apply settle_settled. exact Hp.
Qed.

(** What the handle does as the subprocess goes away touches its flag
    only. *)
Lemma exitProcess_fields (r : Run) :
  signalsOf (exitProcess r) = signalsOf r /\
  (interpreter r <> None ->
   interpreter (exitProcess r) <> None /\ terminatedFlag (exitProcess r) = true) /\
  listening (exitProcess r) = listening r /\
  reacted (exitProcess r) = reacted r /\
  endCallback (exitProcess r) = endCallback r /\
  outerCalls (exitProcess r) = outerCalls r /\
  context (exitProcess r) = context r /\
  uncaught (exitProcess r) = uncaught r.
Proof.
  unfold exitProcess, signalsOf, terminatedFlag.
  destruct (interpreter r) eqn:E; simpl; rewrite ?E; repeat split; auto;
    discriminate.
Qed.

Lemma exitProcess_context (r : Run) : context (exitProcess r) = context r.
Proof. apply exitProcess_fields. Qed.

Lemma exitProcess_listening (r : Run) :
  listening (exitProcess r) = listening r.
Proof. apply exitProcess_fields. Qed.

Lemma exitProcess_signals (r : Run) : signalsOf (exitProcess r) = signalsOf r.
Proof. apply exitProcess_fields. Qed.

Lemma exitProcess_terminated (r : Run) :
  terminatedFlag r = true -> terminatedFlag (exitProcess r) = true.
Proof.
  unfold exitProcess, terminatedFlag.
  destruct (interpreter r) eqn:E; simpl; rewrite ?E; auto.
Qed.

Lemma exitProcess_consistent (r : Run) :
  consistent r -> consistent (exitProcess r).
Proof.
  intros Hc. unfold exitProcess.
  destruct (interpreter r) as [h|] eqn:Ei; [|exact Hc].
  revert Hc. unfold consistent, fresh, signalsOf. rewrite Ei. simpl.
  intros (Ha & Hb & Hc & Hd). repeat split; auto; try apply Hb; auto.
  discriminate.
Qed.

Lemma pythonError_consistent (err : JsValue) (r : Run) :
  consistent r -> consistent (react (exitProcess (onError err r))).
Proof.
  intros Hc.
  destruct (exitProcess_fields (onError err r))
    as (E1 & E2 & E3 & E4 & E5 & E6 & E7 & _).
  apply (listener_consistent r); auto.
  - intros Hi. apply E2. exact Hi.
  - intros Hp. rewrite E7. simpl. apply settle_settled. exact Hp.
Qed.

Lemma step_consistent (r : Run) (ev : Event) :
  consistent r -> consistent (step r ev).
Proof.
  intros Hc. destruct ev as [m|err|err| |err]; simpl.
  - destruct (listening r); [apply onMessage_consistent|]; exact Hc.
  - destruct (listening r); [apply onError_consistent|]; exact Hc.
  - destruct isPythonShell; [|exact Hc].
    destruct (listening r);
      [apply pythonError_consistent | apply exitProcess_consistent]; exact Hc.
  - apply exitProcess_consistent. exact Hc.
  - destruct (endCallback r) as [result|] eqn:Eec; [|exact Hc].
    assert (Hr : reacted r = true).
    { destruct (reacted r) eqn:Er; [reflexivity|].
      destruct Hc as (_ & Hb & _). destruct (Hb Er) as (_ & _ & F & _).
      congruence. }
    revert Hc. unfold consistent, onEnd.
    destruct (truthy err); simpl; rewrite Hr;
      intros (Ha & Hb & Hc & Hd); repeat split; auto; discriminate.
Qed.

Lemma fold_step_consistent (evs : list Event) :
  forall r, consistent r -> consistent (fold_left step evs r).
Proof.
  induction evs as [|ev evs IH]; intros r Hc; [exact Hc|].
  simpl. apply IH, step_consistent, Hc.
Qed.

Lemma runEvents_consistent (s : Spawn) (evs : list Event) :
  consistent (runEvents s evs).
Proof. apply fold_step_consistent, run_consistent. Qed.

(** After the reactions have run, a turn sends no signal, registers no
    callback with [end], and delivers nothing unless it is the callback of
    [end] that is called. *)
Lemma step_after_reaction (r : Run) (ev : Event) :
  reacted r = true ->
  reacted (step r ev) = true /\
  endCallback (step r ev) = endCallback r /\
  signalsOf (step r ev) = signalsOf r /\
  (isEndCallbackEvent ev = false \/ endCallback r = None ->
   outerCalls (step r ev) = outerCalls r).
Proof.
  intros Hr.
  assert (Hm : forall m, reacted (onMessage m r) = true /\
                         endCallback (onMessage m r) = endCallback r /\
                         signalsOf (onMessage m r) = signalsOf r /\
                         outerCalls (onMessage m r) = outerCalls r).
  { intros m. destruct (onMessage_fields m r) as (Hi & _ & Hre & Hec & Hoc & _).
    unfold signalsOf. rewrite Hi, Hre, Hec, Hoc. auto. }
  destruct ev as [m|err|err| |err]; simpl.
  - destruct (listening r); [|auto].
    destruct (Hm m) as (H1 & H2 & H3 & H4).
    rewrite react_reacted_id by exact H1. auto.
  - destruct (listening r); [|auto].
    rewrite react_reacted_id by exact Hr. auto.
  - destruct isPythonShell; [|auto]. destruct (listening r).
    + destruct (exitProcess_fields (onError err r))
        as (E1 & _ & _ & E4 & E5 & E6 & _).
      rewrite react_reacted_id by (rewrite E4; exact Hr).
      rewrite E1, E4, E5, E6. auto.
    + destruct (exitProcess_fields r) as (E1 & _ & _ & E4 & E5 & E6 & _).
      rewrite E1, E4, E5, E6. auto.
  - unfold exitProcess, signalsOf.
    destruct (interpreter r) eqn:Ei; simpl; rewrite ?Ei; auto.
  - destruct (endCallback r) as [result|] eqn:Eec; [|auto].
    unfold onEnd, signalsOf. destruct (truthy err); simpl;
      repeat split; auto; intros [H|H]; discriminate.
Qed.

(** Once the reactions have run with nothing handed to [end], nothing is
    ever delivered or signalled. *)
Lemma quiet_forever (evs : list Event) :
  forall r,
    reacted r = true -> endCallback r = None ->
    outerCalls (fold_left step evs r) = outerCalls r /\
    signalsOf (fold_left step evs r) = signalsOf r /\
    endCallback (fold_left step evs r) = None.
Proof.
  induction evs as [|ev evs IH]; intros r Hr Hec; [auto|].
  simpl. destruct (step_after_reaction r ev Hr) as (H1 & H2 & H3 & H4).
  destruct (IH (step r ev) H1) as (I1 & I2 & I3); [congruence|].
  rewrite I1, I2, I3, H3, H4; auto.
Qed.

(** Until the callback of [end] is called, nothing is delivered. *)
Lemma waiting_for_end (evs : list Event) :
  forall r,
    reacted r = true ->
    forallb (fun ev => negb (isEndCallbackEvent ev)) evs = true ->
    reacted (fold_left step evs r) = true /\
    outerCalls (fold_left step evs r) = outerCalls r /\
    signalsOf (fold_left step evs r) = signalsOf r /\
    endCallback (fold_left step evs r) = endCallback r.
Proof.
  induction evs as [|ev evs IH]; intros r Hr Hevs; [auto|].
  simpl in Hevs |- *. apply andb_true_iff in Hevs. destruct Hevs as [Hev Hevs].
  apply negb_true_iff in Hev.
  destruct (step_after_reaction r ev Hr) as (H1 & H2 & H3 & H4).
  destruct (IH (step r ev) H1 Hevs) as (I1 & I2 & I3 & I4).
  rewrite I2, I3, I4, H2, H3, H4; auto.
Qed.

Lemma step_context (r : Run) (ev : Event) :
  context (step r ev) =
  match ev with
  | MessageEvent m =>
      if listening r then snd (respondToMessage m (context r)) else context r
  | ErrorEvent err =>
      if listening r then context (onError err r) else context r
  | PythonErrorEvent err =>
      if listening r && isPythonShell then context (onError err r)
      else context r
  | _ => context r
  end.
Proof.
  destruct ev as [m|err|err| |err]; simpl.
  - destruct (listening r); [|reflexivity].
    rewrite react_context. apply onMessage_fields.
  - destruct (listening r); [|reflexivity]. apply react_context.
  - destruct isPythonShell; [|rewrite andb_false_r; reflexivity].
    rewrite andb_true_r. destruct (listening r).
    + rewrite react_context. apply exitProcess_context.
    + apply exitProcess_context.
  - unfold exitProcess. destruct (interpreter r); reflexivity.
  - destruct (endCallback r); [|reflexivity].
    unfold onEnd. destruct (truthy err); reflexivity.
Qed.

Lemma step_listening (r : Run) (ev : Event) :
  listening (step r ev) = listening r.
Proof.
  destruct ev as [m|err|err| |err]; simpl.
  - destruct (listening r) eqn:El; [|exact El].
    rewrite react_listening.
    destruct (onMessage_fields m r) as (_ & H & _). congruence.
  - destruct (listening r) eqn:El; [|exact El].
    rewrite react_listening. exact El.
  - destruct isPythonShell; [|reflexivity]. destruct (listening r) eqn:El.
    + rewrite react_listening, exitProcess_listening. exact El.
    + rewrite exitProcess_listening. exact El.
  - unfold exitProcess. destruct (interpreter r); reflexivity.
  - destruct (endCallback r); [|reflexivity].
    unfold onEnd. destruct (truthy err); reflexivity.
Qed.

(** A settled promise stays as it is, whatever the turn. *)
Lemma step_promise_settled (r : Run) (ev : Event) :
  promise (context r) <> Pending ->
  promise (context (step r ev)) = promise (context r).
Proof.
  intros Hp. rewrite step_context.
  destruct ev as [m|err|err| |err]; try reflexivity.
  - destruct (listening r); [|reflexivity].
    apply respondToMessage_settled. exact Hp.
  - destruct (listening r); [|reflexivity]. simpl.
    apply settle_settled. exact Hp.
  - destruct (listening r && isPythonShell); [|reflexivity]. simpl.
    apply settle_settled. exact Hp.
Qed.

Lemma fold_promise_settled (evs : list Event) :
  forall r,
    promise (context r) <> Pending ->
    promise (context (fold_left step evs r)) = promise (context r).
Proof.
  induction evs as [|ev evs IH]; intros r Hp; [reflexivity|].
  simpl. rewrite IH; rewrite step_promise_settled; auto.
Qed.

(** On a handle that has terminated no turn sends a signal. *)
Lemma step_terminated_no_signal (r : Run) (ev : Event) :
  terminatedFlag r = true -> signalsOf (step r ev) = signalsOf r.
Proof.
  intros Ht.
  assert (Hm : forall m, terminatedFlag (onMessage m r) = true /\
                         signalsOf (onMessage m r) = signalsOf r).
  { intros m. destruct (onMessage_fields m r) as (Hi & _).
    unfold terminatedFlag, signalsOf in *. rewrite Hi. auto. }
  destruct ev as [m|err|err| |err]; simpl.
  - destruct (listening r); [|reflexivity].
    destruct (Hm m) as [H1 H2].
    rewrite react_terminated_no_signal by exact H1. exact H2.
  - destruct (listening r); [|reflexivity].
    rewrite react_terminated_no_signal by exact Ht. reflexivity.
  - destruct isPythonShell; [|reflexivity]. destruct (listening r).
    + rewrite react_terminated_no_signal
        by (apply exitProcess_terminated; exact Ht).
      rewrite exitProcess_signals. reflexivity.
    + apply exitProcess_signals.
  - unfold exitProcess, signalsOf.
    destruct (interpreter r) eqn:Ei; simpl; rewrite ?Ei; reflexivity.
  - destruct (endCallback r); [|reflexivity].
    unfold onEnd, signalsOf. destruct (truthy err); reflexivity.
Qed.

(** Whatever the keys, a turn only appends to the history, when the
    callbacks leave the array alone. *)
Lemma step_append_only (r : Run) (ev : Event) :
  callbacksReadOnly messageResponses uiArgumentMap ->
  exists more,
    logicMessages (context (step r ev)) = logicMessages (context r) ++ more.
Proof.
  intros Hro. rewrite step_context.
  assert (Hnil : exists more : list jsstring,
             logicMessages (context r) = logicMessages (context r) ++ more)
    by (exists []; rewrite app_nil_r; reflexivity).
  destruct ev as [m|err|err| |err]; try exact Hnil.
  - destruct (listening r); [|exact Hnil].
    apply respondToMessage_append_only. exact Hro.
  - destruct (listening r); exact Hnil.
  - destruct (listening r && isPythonShell); exact Hnil.
Qed.

(** On a table of regular expressions whose callbacks return, the
    callbacks invoked in a run with its listeners in place are those of the
    lines of the messages delivered; the history is these lines when the
    callbacks leave the array alone. *)
Lemma fold_history_valid (evs : list Event) :
  validKeys RegExp messageResponses = true ->
  callbacksReturn messageResponses uiArgumentMap ->
  forall r,
    listening r = true ->
    invocations (effects (context (fold_left step evs r))) =
      invocations (effects (context r)) ++
      flat_map (lineInvocations RegExp messageResponses)
               (flat_map linesOf (messagesOf evs)) /\
    (callbacksReadOnly messageResponses uiArgumentMap ->
     logicMessages (context (fold_left step evs r)) =
       logicMessages (context r) ++ flat_map linesOf (messagesOf evs)).
Proof.
  intros Hvalid Hret. induction evs as [|ev evs IH]; intros r Hl.
  - simpl. rewrite !app_nil_r. auto.
  - simpl fold_left.
    destruct (IH (step r ev)) as [IH1 IH2]; [rewrite step_listening; exact Hl|].
    rewrite IH1, step_context.
    destruct ev as [m|err|err| |err]; simpl messagesOf; simpl flat_map;
      rewrite ?Hl; cbn [andb].
    + destruct (respondToMessage_valid_history RegExp messageResponses
                  uiArgumentMap m (context r) Hvalid Hret)
        as (ctx' & Hr & HI & HL).
      rewrite Hr in *. simpl snd in *.
      rewrite HI, flat_map_app, <- !app_assoc. split; [reflexivity|].
      intros Hro. rewrite (IH2 Hro), step_context, Hl, Hr. simpl snd.
      rewrite (HL Hro), <- app_assoc. reflexivity.
    + split; [reflexivity|]. intros Hro.
      rewrite (IH2 Hro), step_context, Hl. reflexivity.
    + split; [destruct isPythonShell; reflexivity|]. intros Hro.
      rewrite (IH2 Hro), step_context, Hl. destruct isPythonShell; reflexivity.
    + split; [reflexivity|]. intros Hro.
      rewrite (IH2 Hro), step_context. reflexivity.
    + split; [reflexivity|]. intros Hro.
      rewrite (IH2 Hro), step_context. reflexivity.
Qed.

(** The success path on a running subprocess: [end] is signalled and its
    callback keeps the result. *)
Lemma react_fulfilled_running (r : Run) (v : JsValue) (h : Interpreter) :
  reacted r = false ->
  promise (context r) = Fulfilled v ->
  interpreter r = Some h ->
  terminated h = false ->
  react r =
  withEndCallback v (withInterpreter (Some (signal EndSignal h)) (withReacted r)).
Proof.
  intros Hr Hp Hi Ht. unfold react, onFulfilled. rewrite Hr, Hp. simpl.
  rewrite Hi, Ht. reflexivity.
Qed.

(** A run without listeners, handle or [end] callback ignores every event. *)
Lemma deaf_forever (evs : list Event) (r : Run) :
  listening r = false -> interpreter r = None -> endCallback r = None ->
  fold_left step evs r = r.
Proof.
  intros Hl Hi Hec. induction evs as [|ev evs IH]; [reflexivity|].
  simpl fold_left.
  assert (Hs : step r ev = r).
  { destruct ev; simpl; unfold exitProcess; rewrite ?Hl, ?Hi, ?Hec;
      try reflexivity. destruct isPythonShell; reflexivity. }
  rewrite Hs. exact IH.
Qed.

(** C1, at the input where it fails: the subprocess goes away, then its
    last line, the sentinel, is delivered. The success is recorded, [then]
    finds [terminated] set and does nothing: neither [resolve] nor [reject]
    of the caller is ever called, whatever happens afterwards, and the
    promise of [runScript] stays pending. *)
Theorem C1_no_delivery_when_already_terminated (rest : list Event) :
  let r := runEvents Spawned
             ([ProcessExit; MessageEvent EXITING_MESSAGE] ++ rest) in
  promise (context r) = Fulfilled JsUndefined /\
  outerCalls r = [] /\
  runScriptPromise r = Pending.
Proof.
  intros r. subst r. unfold ScriptCommunicator.runEvents.
  rewrite fold_left_app.
  set (r2 := fold_left step [ProcessExit; MessageEvent EXITING_MESSAGE] (run Spawned)).
  assert (H2 : promise (context r2) = Fulfilled JsUndefined /\
               reacted r2 = true /\ endCallback r2 = None /\ outerCalls r2 = []).
  { subst r2. simpl fold_left.
    unfold ScriptCommunicator.onMessage.
    rewrite (respondToMessage_single RegExp messageResponses uiArgumentMap
               EXITING_MESSAGE _ eq_refl).
    rewrite (respondToLine_sentinel RegExp messageResponses uiArgumentMap
               EXITING_MESSAGE _ eq_refl).
    simpl. auto. }
  destruct H2 as (Hp & Hr & Hec & Hoc).
  destruct (quiet_forever rest r2 Hr Hec) as (Q1 & _ & _).
  split; [|split].
  - rewrite fold_promise_settled; rewrite Hp; [reflexivity | discriminate].
  - rewrite Q1. exact Hoc.
  - unfold runScriptPromise. rewrite Q1, Hoc. reflexivity.
Qed.

(** The sibling path delivers whatever the flag says: after a failure is
    recorded with an error object, [reject] of the caller is called. *)
Lemma failure_is_delivered (evs : list Event) (k : ErrorKind) (msg : jsstring) :
  let r := runEvents Spawned evs in
  promise (context r) = Pending ->
  outerCalls (step r (ErrorEvent (JsErr k msg))) =
    [OuterReject (JsErr k msg)].
Proof.
  intros r Hp.
  destruct (consistent_pending r (runEvents_consistent Spawned evs) Hp)
    as (Hr & Hsg & Hec & Hoc & Hl & Hi).
  simpl. rewrite Hl.
  unfold react, catchReaction, onRejected, onError, settleInner. simpl.
  rewrite Hr, Hp. simpl.
  destruct (interpreter r) as [h|]; [|congruence].
  destruct (terminated h); simpl; rewrite Hoc; reflexivity.
Qed.

(** C9, at the input where it fails: the executor throws before the handle
    exists. The [catch] function reads [terminated] off the unassigned
    variable and throws in its turn: no [reject] of the caller, ever, and an
    unhandled rejection instead. Nothing is dispatched and nothing is
    signalled. *)
Theorem C9_spawn_error_before_handle_is_lost (err : JsValue) (evs : list Event) :
  let r := runEvents (ThrowsBeforeHandle err) evs in
  outerCalls r = [] /\
  runScriptPromise r = Pending /\
  signalsOf r = [] /\
  logicMessages (context r) = [] /\
  effects (context r) = [] /\
  uncaught r =
    [match readMessage err with
     | Throw e => e
     | Normal _ => cannotRead "terminated"
     end].
Proof.
  intros r. subst r. unfold ScriptCommunicator.runEvents.
  rewrite deaf_forever.
  - unfold run, executor, react, catchReaction, onRejected, runScriptPromise,
      signalsOf. simpl.
    destruct (readMessage err); simpl; auto 10.
  - unfold run, executor, react, catchReaction, onRejected. simpl.
    destruct (readMessage err); reflexivity.
  - unfold run, executor, react, catchReaction, onRejected. simpl.
    destruct (readMessage err); reflexivity.
  - unfold run, executor, react, catchReaction, onRejected. simpl.
    destruct (readMessage err); reflexivity.
Qed.

(** With the handle in hand the same path does what is expected of it: an
    error object thrown while the listeners are registered kills the
    subprocess and is delivered; no message is ever dispatched. *)
Lemma wiring_error_is_delivered (k : ErrorKind) (msg : jsstring)
    (evs : list Event) :
  let r := runEvents (ThrowsWhileWiring (JsErr k msg)) evs in
  outerCalls r = [OuterReject (JsErr k msg)] /\
  signalsOf r = [KillSignal] /\
  logicMessages (context r) = [].
Proof.
  intros r. subst r. unfold ScriptCommunicator.runEvents.
  set (r0 := run (ThrowsWhileWiring (JsErr k msg))).
  destruct (quiet_forever evs r0 eq_refl eq_refl) as (Q1 & Q2 & _).
  rewrite Q1, Q2. split; [reflexivity|]. split; [reflexivity|].
  assert (Hl : forall evs r, listening r = false ->
                 logicMessages (context (fold_left step evs r)) =
                 logicMessages (context r)).
  { clear. induction evs as [|ev evs IH]; intros r Hl; [reflexivity|].
    simpl fold_left. rewrite IH by (rewrite step_listening; exact Hl).
    rewrite step_context. destruct ev; rewrite ?Hl; reflexivity. }
  rewrite Hl; reflexivity.
Qed.

(** C4, amended: with callbacks that leave the array they are handed
    alone, the message history only grows, whatever the keys. On a table
    whose keys other than [_default] are all regular expressions and whose
    callbacks return, the history of a run is then, in delivery order and
    with neither loss nor repetition, the lines of the delivered messages: a
    message whose trimmed form holds no line separator as it was delivered,
    any other as the pieces of its trimmed form; and each single-line
    message, sentinel or not, matched or not, is pushed exactly once, as
    the last thing its dispatch does. *)
Theorem C4_history_when_callbacks_behave (evs : list Event) :
  callbacksReadOnly messageResponses uiArgumentMap ->
  (forall (s : Spawn) (prefix : list Event) (ev : Event),
     exists more,
       logicMessages (context (step (runEvents s prefix) ev)) =
       logicMessages (context (runEvents s prefix)) ++ more) /\
  (validKeys RegExp messageResponses = true ->
   callbacksReturn messageResponses uiArgumentMap ->
   logicMessages (context (runEvents Spawned evs)) =
     flat_map linesOf (messagesOf evs) /\
   (forall (m : jsstring) (ctx : RunContext),
      includes (trim m) [LF] = false ->
      exists ctx' dispatch,
        respondToMessage m ctx = (Normal tt, ctx') /\
        logicMessages ctx' = logicMessages ctx ++ [m] /\
        effects ctx' = effects ctx ++ dispatch ++ [Pushed m] /\
        forallb (fun e => negb (isPushed e)) dispatch = true)).
Proof.
  intros Hro. split.
  - intros s prefix ev. apply step_append_only. exact Hro.
  - intros Hvalid Hret. split.
    + unfold ScriptCommunicator.runEvents.
      rewrite (proj2 (fold_history_valid evs Hvalid Hret (run Spawned)
                        eq_refl) Hro).
      reflexivity.
    + intros m ctx Hl.
      rewrite (respondToMessage_single _ _ _ m ctx Hl).
      destruct (isSentinel m) eqn:Hs.
      * rewrite (respondToLine_sentinel _ _ _ m ctx Hs).
        eexists. exists [Hooked (Resolve JsUndefined)].
        split; [reflexivity|]. simpl. rewrite <- app_assoc. auto.
      * destruct (respondToLine_valid _ _ uiArgumentMap m ctx Hvalid Hs
                    (callbacksReturn_dispatched _ _ _ m Hret))
          as (ctx' & new & Hr & HE & Hnp & _ & HL).
        exists ctx', new. split; [exact Hr|]. split; [|auto].
        apply HL. apply callbacksReadOnly_dispatched. exact Hro.
Qed.

(** C5: a success is recorded while the subprocess has not terminated:
    [end] is signalled and nothing is delivered while the exit is awaited.
    When the callback of [end] then reports an error, [reject] of the caller
    is called with that error and [resolve] with the recorded result after
    it: the promise of [runScript] is rejected with the shutdown error. *)
Theorem C5_shutdown_error_overrides_success
    (evs mid : list Event) (m : jsstring) (result err : JsValue) :
  let r0 := runEvents Spawned evs in
  let r1 := step r0 (MessageEvent m) in
  let r2 := fold_left step mid r1 in
  let r3 := step r2 (EndCallbackEvent err) in
  promise (context r0) = Pending ->
  terminatedFlag r0 = false ->
  promise (context r1) = Fulfilled result ->
  forallb (fun ev => negb (isEndCallbackEvent ev)) mid = true ->
  truthy err = true ->
  signalsOf r1 = [EndSignal] /\
  endCallback r1 = Some result /\
  outerCalls r2 = [] /\
  runScriptPromise r2 = Pending /\
  outerCalls r3 = [OuterReject err; OuterResolve result] /\
  runScriptPromise r3 = Rejected err.
Proof.
  intros r0 r1 r2 r3 Hp Ht Hres Hmid Herr.
  destruct (consistent_pending r0 (runEvents_consistent Spawned evs) Hp)
    as (Hr & Hsg & Hec & Hoc & Hl & Hi).
  destruct (onMessage_fields m r0) as (Fi & Fl & Fr & Fec & Foc & Fctx).
  assert (E1 : r1 = react (onMessage m r0))
    by (subst r1; simpl; rewrite Hl; reflexivity).
  rewrite E1, react_context in Hres.
  destruct (interpreter r0) as [h|] eqn:Eh; [|congruence].
  unfold terminatedFlag in Ht. rewrite Eh in Ht.
  unfold signalsOf in Hsg. rewrite Eh in Hsg.
  assert (E1' : r1 = withEndCallback result
                      (withInterpreter (Some (signal EndSignal h))
                         (withReacted (onMessage m r0)))).
  { rewrite E1. apply react_fulfilled_running; congruence. }
  assert (S1 : signalsOf r1 = [EndSignal])
    by (rewrite E1'; unfold signalsOf; simpl; rewrite Hsg; reflexivity).
  assert (C1 : endCallback r1 = Some result) by (rewrite E1'; reflexivity).
  assert (O1 : outerCalls r1 = []) by (rewrite E1'; simpl; congruence).
  assert (R1 : reacted r1 = true) by (rewrite E1'; reflexivity).
  destruct (waiting_for_end mid r1 R1 Hmid) as (_ & O2 & _ & C2).
  fold r2 in O2, C2. rewrite O1 in O2. rewrite C1 in C2.
  assert (O3 : outerCalls r3 = [OuterReject err; OuterResolve result]).
  { subst r3. simpl. rewrite C2. unfold onEnd. rewrite Herr. simpl.
    rewrite O2. reflexivity. }
  repeat split; auto.
  - unfold runScriptPromise. rewrite O2. reflexivity.
  - unfold runScriptPromise. rewrite O3. reflexivity.
Qed.

(** After the reactions have run no further signal is sent. *)
Lemma signals_after_reaction (more : list Event) :
  forall r, reacted r = true ->
            signalsOf (fold_left step more r) = signalsOf r.
Proof.
  induction more as [|ev more IH]; intros r Hr; [reflexivity|].
  simpl fold_left.
  destruct (step_after_reaction r ev Hr) as (H1 & _ & H3 & _).
  rewrite IH; [exact H3 | exact H1].
Qed.

(** A turn is the reactions run on a state that differs from the one
    before in its context, its uncaught exceptions and the flag of its
    handle only, or it leaves the context alone. *)
Lemma step_as_reaction (r : Run) (ev : Event) :
  (exists r',
     step r ev = react r' /\
     signalsOf r' = signalsOf r /\
     (interpreter r <> None ->
      interpreter r' <> None /\
      terminatedFlag r' = terminatedFlag r || isPythonErrorEvent ev) /\
     listening r' = listening r /\
     reacted r' = reacted r /\ endCallback r' = endCallback r /\
     outerCalls r' = outerCalls r) \/
  (context (step r ev) = context r /\
   reacted (step r ev) = reacted r /\
   signalsOf (step r ev) = signalsOf r /\
   exists more, outerCalls (step r ev) = outerCalls r ++ more).
Proof.
  assert (Hright : context r = context r /\ reacted r = reacted r /\
                   signalsOf r = signalsOf r /\
                   exists more, outerCalls r = outerCalls r ++ more).
  { repeat split. exists []. rewrite app_nil_r. reflexivity. }
  destruct ev as [m|err|err| |err]; simpl.
  - destruct (listening r) eqn:El; [left | right; exact Hright].
    exists (onMessage m r).
    destruct (onMessage_fields m r) as (Hi & Hl & Hre & Hec & Hoc & _).
    unfold signalsOf, terminatedFlag. rewrite Hi, orb_false_r.
    repeat split; congruence.
  - destruct (listening r) eqn:El; [left | right; exact Hright].
    exists (onError err r). unfold signalsOf, terminatedFlag. simpl.
    rewrite orb_false_r. repeat split; congruence.
  - destruct isPythonShell; [|right; exact Hright].
    destruct (listening r) eqn:El.
    + left. exists (exitProcess (onError err r)).
      destruct (exitProcess_fields (onError err r))
        as (E1 & E2 & E3 & E4 & E5 & E6 & _).
      split; [reflexivity|]. split; [exact E1|]. split.
      * intros Hi. destruct (E2 Hi) as [H1 H2]. rewrite H2, orb_true_r. auto.
      * rewrite E3, E4, E5, E6. simpl. auto.
    + right. destruct (exitProcess_fields r) as (E1 & _ & _ & E4 & _ & E6 & E7 & _).
      rewrite E1, E4, E6, E7. exact Hright.
  - right. unfold exitProcess, signalsOf.
    destruct (interpreter r) eqn:Ei; simpl; rewrite ?Ei; repeat split;
      exists []; rewrite app_nil_r; reflexivity.
  - right. destruct (endCallback r) as [result|]; [|exact Hright].
    unfold onEnd, signalsOf. destruct (truthy err); simpl; repeat split.
    + exists [OuterReject err; OuterResolve result].
      rewrite <- app_assoc. reflexivity.
    + eexists. reflexivity.
Qed.

(** The turn that ends with an outcome recorded on a pending run: what the
    reactions find. *)
Lemma outcome_recorded (r0 : Run) (ev : Event) :
  consistent r0 ->
  promise (context r0) = Pending ->
  promise (context (step r0 ev)) <> Pending ->
  exists r' h,
    step r0 ev = react r' /\
    interpreter r' = Some h /\ signals h = [] /\
    terminated h = terminatedFlag r0 || isPythonErrorEvent ev /\
    reacted r' = false /\ endCallback r' = None /\ outerCalls r' = [] /\
    promise (context r') = promise (context (step r0 ev)).
Proof.
  intros Hc Hp Hrec.
  destruct (consistent_pending r0 Hc Hp) as (Hr & Hsg & Hec & Hoc & Hl & Hi).
  destruct (step_as_reaction r0 ev)
    as [(r' & E & Fs & Fi & Fl & Fr & Fec & Foc)|(Hctx & _)].
  - destruct (Fi Hi) as [Hi' Ht'].
    destruct (interpreter r') as [h|] eqn:Eh; [|congruence].
    exists r', h. rewrite E, react_context.
    unfold signalsOf, terminatedFlag in *. rewrite Eh in *.
    repeat split; congruence.
  - rewrite Hctx in Hrec. congruence.
Qed.

(** The signal the reactions send, by the outcome and the flag they find. *)
Lemma react_signal (r : Run) (h : Interpreter) :
  reacted r = false -> interpreter r = Some h -> signals h = [] ->
  match promise (context r) with
  | Pending => signalsOf (react r) = []
  | Fulfilled _ =>
      signalsOf (react r) = if terminated h then [] else [EndSignal]
  | Rejected e =>
      e <> JsUndefined -> e <> JsNull ->
      signalsOf (react r) = if terminated h then [] else [KillSignal]
  end.
Proof.
  destruct r as [i l c re ec oc un]. simpl. intros -> -> Hsg.
  unfold react, catchReaction, onFulfilled, onRejected, signalsOf. simpl.
  destruct (promise c) as [|v|e]; simpl.
  - exact Hsg.
  - destruct (terminated h); simpl; rewrite Hsg; reflexivity.
  - intros Hu Hn. destruct e; try congruence; simpl;
      destruct (terminated h); simpl; rewrite Hsg; reflexivity.
Qed.

(** The signal of the turn that records an outcome: one for a handle that
    has not terminated, none for one that has. *)
Lemma step_signal (r : Run) (ev : Event) :
  consistent r ->
  promise (context r) = Pending ->
  match promise (context (step r ev)) with
  | Pending => signalsOf (step r ev) = []
  | Fulfilled _ =>
      signalsOf (step r ev) =
      if terminatedFlag r || isPythonErrorEvent ev then [] else [EndSignal]
  | Rejected e =>
      e <> JsUndefined -> e <> JsNull ->
      signalsOf (step r ev) =
      if terminatedFlag r || isPythonErrorEvent ev then [] else [KillSignal]
  end.
Proof.
  intros Hc Hp.
  destruct (promise (context (step r ev))) as [|v|e] eqn:Ep1.
  - pose proof (step_consistent r ev Hc) as (_ & _ & _ & H).
    rewrite Ep1 in H.
    destruct (signalsOf (step r ev)) as [|sg sgs]; [reflexivity|].
    destruct (H sg (or_introl eq_refl)).
  - destruct (outcome_recorded r ev Hc Hp)
      as (r' & h & E & Hi & Hsg & Ht & Hre & _ & _ & Hpr);
      [rewrite Ep1; discriminate|].
    pose proof (react_signal r' h Hre Hi Hsg) as H.
    rewrite Hpr, Ep1, Ht, <- E in H. exact H.
  - destruct (outcome_recorded r ev Hc Hp)
      as (r' & h & E & Hi & Hsg & Ht & Hre & _ & _ & Hpr);
      [rewrite Ep1; discriminate|].
    pose proof (react_signal r' h Hre Hi Hsg) as H.
    rewrite Hpr, Ep1, Ht, <- E in H. exact H.
Qed.

(** C6, amended: in every run the subprocess is signalled to terminate at
    most once, and only once an outcome is recorded (a throw of the executor
    records a failure): [end] after a success, [kill] after a failure. The
    turn that records the outcome sends that one signal when the handle has
    not terminated, and none when it has: its [terminated] flag was set
    before, or it is set in the turn itself, which is the turn of a
    [pythonError]. (Failures are taken with a reason other than [undefined]
    and [null].) A throw while the listeners are registered kills the new
    handle. No turn sends a signal to a handle whose flag is set; and once
    an outcome is recorded, no event changes it or causes another signal. *)
Theorem C6_one_signal_for_a_handle_that_runs (s : Spawn) (evs : list Event) :
  let r := runEvents s evs in
  (List.length (signalsOf r) <= 1)%nat /\
  (forall sg, In sg (signalsOf r) ->
     match promise (context r) with
     | Pending => False
     | Fulfilled _ => sg = EndSignal
     | Rejected _ => sg = KillSignal
     end) /\
  (forall ev,
     promise (context r) = Pending ->
     let gone := terminatedFlag r || isPythonErrorEvent ev in
     match promise (context (step r ev)) with
     | Pending => signalsOf (step r ev) = []
     | Fulfilled _ =>
         signalsOf (step r ev) = if gone then [] else [EndSignal]
     | Rejected e =>
         e <> JsUndefined -> e <> JsNull ->
         signalsOf (step r ev) = if gone then [] else [KillSignal]
     end) /\
  (forall err, s = ThrowsWhileWiring err ->
     err <> JsUndefined -> err <> JsNull -> signalsOf r = [KillSignal]) /\
  (forall ev, terminatedFlag r = true -> signalsOf (step r ev) = signalsOf r) /\
  (forall more, promise (context r) <> Pending ->
     promise (context (fold_left step more r)) = promise (context r) /\
     signalsOf (fold_left step more r) = signalsOf r).
Proof.
  intros r.
  pose proof (runEvents_consistent s evs) as Hc. fold r in Hc.
  split; [apply Hc|]. split; [apply Hc|]. split; [|split; [|split]].
  - intros ev Hp. apply step_signal; assumption.
  - intros err -> Hu Hn. subst r. unfold ScriptCommunicator.runEvents.
    rewrite signals_after_reaction.
    + unfold run, executor, react, catchReaction, onRejected, signalsOf. simpl.
      destruct err; try congruence; reflexivity.
    + unfold run, executor, react, catchReaction, onRejected. simpl.
      destruct err; reflexivity.
  - intros ev. apply step_terminated_no_signal.
  - intros more Hp. split; [apply fold_promise_settled; exact Hp|].
    apply signals_after_reaction, consistent_settled; assumption.
Qed.

End CommunicatorFacts.
(** * The development evaluated *)

(** Settles what the callbacks of a table given in full do, one callback
    after the other. *)
Ltac callbacks_of_table :=
  intros;
  match goal with
  | H : lookup _ _ = Some _ |- _ =>
      simpl in H;
      repeat match type of H with
             | (if ?b then _ else _) = _ => destruct b
             end;
      inversion H; subst; reflexivity
  end.

(** ** Scenarios of the specification *)

(** Scenario A: [^READY$] acknowledged once, [_default] never invoked, the
    run succeeds with no value once the subprocess has exited cleanly. *)
Example scenario_A :
  let r := ScriptCommunicator.runEvents literalRegExp tableReady [] true Spawned
             [MessageEvent (js "READY"); MessageEvent EXITING_MESSAGE;
              EndCallbackEvent JsUndefined] in
  invocations (effects (context r)) = [(js "^READY$", js "READY")] /\
  runScriptPromise r = Fulfilled JsUndefined /\
  signalsOf r = [EndSignal].
Proof. vm_compute. auto. Qed.

(** Scenario C: an error event before any message: the run fails with it,
    the subprocess is killed, the history is empty. *)
Example scenario_C :
  let r := ScriptCommunicator.runEvents literalRegExp tableReady [] true Spawned
             [ErrorEvent boom] in
  runScriptPromise r = Rejected boom /\
  signalsOf r = [KillSignal] /\
  logicMessages (context r) = [].
Proof. vm_compute. auto. Qed.

(** ** Witnesses *)

Lemma C2_witness :
  exists ctx',
    respondToMessage literalRegExp tableReady [] (js " Exiting... ") newContext
      = (Normal tt, ctx') /\
    promise ctx' = settle (promise newContext) (Fulfilled JsUndefined) /\
    effects ctx' =
      effects newContext ++
      [Hooked (Resolve JsUndefined); Pushed (js " Exiting... ")] /\
    invocations (effects ctx') = invocations (effects newContext) /\
    (forall p, invocationCount p (effects ctx') =
               invocationCount p (effects newContext)).
Proof.
  apply (C2_sentinel_resolves_without_dispatch literalRegExp tableReady []
           (js " Exiting... ") newContext).
  reflexivity.
Defined.

Lemma C3_witness :
  exists ctx',
    respondToMessage literalRegExp tableReady [] (js "READY") newContext
      = (Normal tt, ctx') /\
    invocationCount (js "^READY$") (effects ctx') = 1%nat /\
    invocationCount (js "done") (effects ctx') = 0%nat /\
    invocationCount DEFAULT (effects ctx') = 0%nat.
Proof.
  destruct (C3_fan_out_when_callbacks_return literalRegExp tableReady []
              (js "READY") newContext)
    as (ctx' & Hr & Hinv & Hp & Hd1 & Hd0).
  - reflexivity.
  - reflexivity.
  - reflexivity.
  - vm_compute. discriminate.
  - unfold returnOn. callbacks_of_table.
  - exists ctx'. split; [exact Hr|].
    rewrite !invocationCount_invocations, Hinv. vm_compute. auto.
Defined.

Lemma C4_witness :
  logicMessages
    (context (ScriptCommunicator.runEvents literalRegExp tableReady [] true
                Spawned
                [MessageEvent (js " READY "); ErrorEvent boom;
                 MessageEvent chunkFooExiting])) =
  [js " READY "; js "foo"; EXITING_MESSAGE].
Proof.
  refine (proj1 (proj2 (C4_history_when_callbacks_behave literalRegExp
                          tableReady [] true
                          [MessageEvent (js " READY "); ErrorEvent boom;
                           MessageEvent chunkFooExiting] _) eq_refl _)).
  - unfold callbacksReadOnly, readOnlyOn. callbacks_of_table.
  - unfold callbacksReturn, returnOn. callbacks_of_table.
Defined.

Lemma C5_witness :
  let r :=
    ScriptCommunicator.runEvents literalRegExp tableReady [] true Spawned
      [MessageEvent (js "READY"); MessageEvent (js "done");
       MessageEvent (js "late"); ProcessExit; EndCallbackEvent boom] in
  outerCalls r = [OuterReject boom; OuterResolve (JsStr (js "done"))] /\
  runScriptPromise r = Rejected boom.
Proof.
  destruct (C5_shutdown_error_overrides_success literalRegExp tableReady [] true
              [MessageEvent (js "READY")]
              [MessageEvent (js "late"); ProcessExit]
              (js "done") (JsStr (js "done")) boom)
    as (_ & _ & _ & _ & H5 & H6); try reflexivity.
  split; [exact H5 | exact H6].
Defined.

Lemma C6_witness :
  let step := ScriptCommunicator.step literalRegExp tableReady [] true in
  let r := ScriptCommunicator.runEvents literalRegExp tableReady [] true Spawned
             [MessageEvent (js "READY")] in
  signalsOf (step r (MessageEvent EXITING_MESSAGE)) = [EndSignal] /\
  signalsOf (step r (ErrorEvent boom)) = [KillSignal] /\
  signalsOf (step r (PythonErrorEvent boom)) = [] /\
  signalsOf (step (step r ProcessExit) (MessageEvent EXITING_MESSAGE)) = [].
Proof.
  intros step r.
  assert (Hp : promise (context r) = Pending) by (vm_compute; reflexivity).
  pose proof (C6_one_signal_for_a_handle_that_runs literalRegExp tableReady []
                true Spawned [MessageEvent (js "READY")])
    as (_ & _ & H & _).
  pose proof (H (MessageEvent EXITING_MESSAGE) Hp) as H1.
  pose proof (H (ErrorEvent boom) Hp) as H2.
  pose proof (H (PythonErrorEvent boom) Hp) as H3.
  pose proof (C6_one_signal_for_a_handle_that_runs literalRegExp tableReady []
                true Spawned [MessageEvent (js "READY"); ProcessExit])
    as (_ & _ & H' & _).
  pose proof (H' (MessageEvent EXITING_MESSAGE)) as H4.
  vm_compute in H1, H2, H3, H4. vm_compute.
  split; [exact H1|]. split; [apply H2; discriminate|].
  split; [apply H3; discriminate|]. apply H4. reflexivity.
Defined.

Lemma C7_witness :
  exists ctx',
    respondToMessage literalRegExp tableDefaultOnly [] chunkFooBar newContext
      = (Normal tt, ctx') /\
    invocations (effects ctx') = [(DEFAULT, js "foo"); (DEFAULT, js "bar")] /\
    logicMessages ctx' = [js "foo"; js "bar"].
Proof.
  destruct (proj2 (proj2 (proj2
            (C7_chunks_are_dispatched_line_by_line literalRegExp
               tableDefaultOnly [] chunkFooBar newContext eq_refl)))
            eq_refl) as (ctx' & Hr & HI & HL).
  - left. reflexivity.
  - intros l [<-|[<-|[]]]; (split; [vm_compute; discriminate|]);
      intros p [<-|[]] Hp; exfalso; apply Hp; reflexivity.
  - unfold returnOn. callbacks_of_table.
  - exists ctx'. split; [exact Hr|]. split; [exact HI|].
    apply HL. unfold readOnlyOn. callbacks_of_table.
Defined.

Lemma C8_witness :
  matchesPattern literalRegExp (js "(") (js " ( ") /\
  promptMatches literalRegExp (js "(") (js " ( ") newContext =
    (Throw (invalidRegExp (js "(")), newContext) /\
  handleResponse literalRegExp [(js "(", echo)] [] (js " ( ") newContext =
    (Throw (invalidRegExp (js "(")), newContext) /\
  respondToMessage literalRegExp [(js "(", echo)] [] (js " ( ") newContext =
    (Throw (invalidRegExp (js "(")), newContext).
Proof.
  apply (C8_literal_match_is_lost_on_invalid_key literalRegExp []
           (js "(") (js " ( ") echo newContext).
  - reflexivity.
  - vm_compute. discriminate.
  - reflexivity.
  - reflexivity.
  - vm_compute. discriminate.
Defined.

Lemma C10_witness :
  exists e ctx',
    respondToMessage literalRegExp tableUnterminated [] (js "foo") newContext
      = (Throw e, ctx') /\
    logicMessages ctx' = [] /\
    invocationCount (js "foo") (effects ctx') = 0%nat /\
    e = invalidRegExp (js "(").
Proof.
  destruct (C10_invalid_key_aborts_dispatch literalRegExp tableUnterminated []
              [] [(js "foo", echo)] (js "(") echo (js "foo") newContext)
    as (e & ctx' & Hr & _ & HL & Hafter & _ & He & _).
  - reflexivity.
  - reflexivity.
  - vm_compute. discriminate.
  - reflexivity.
  - reflexivity.
  - vm_compute. discriminate.
  - exists e, ctx'. split; [exact Hr|]. split; [|split].
    + apply HL. intros k cb h [].
    + apply (Hafter (js "foo")). left. reflexivity.
    + apply He; [reflexivity|]. intros k cb h [].
Defined.

(** ** Counterexamples to the claims as first stated *)

(** C3 as stated: on [{ "a": explode, "b": echo }], a table of regular
    expressions, the single-line message ["ab"] is not the sentinel and the
    key ["b"] matches it, yet its callback is not invoked: the callback of
    ["a"] threw, nothing caught it, and the loop was left. *)
Lemma C3_counterexample :
  validKeys literalRegExp tableExplodes = true /\
  uniqueKeys tableExplodes = true /\
  includes (trim (js "ab")) [LF] = false /\
  trim (js "ab") <> EXITING_MESSAGE /\
  In (js "b") (keys tableExplodes) /\
  js "b" <> DEFAULT /\
  matchesPattern literalRegExp (js "b") (js "ab") /\
  fst (respondToMessage literalRegExp tableExplodes [] (js "ab") newContext) =
    Throw boom /\
  invocationCount (js "b")
    (effects (snd (respondToMessage literalRegExp tableExplodes []
                     (js "ab") newContext))) = 0%nat.
Proof.
  split; [reflexivity|]. split; [reflexivity|]. split; [reflexivity|].
  split; [vm_compute; discriminate|].
  split; [right; left; reflexivity|]. split; [vm_compute; discriminate|].
  split; [|split; reflexivity].
  left. eexists. split; reflexivity.
Qed.

(** C4 as stated: on the same table the delivered single-line message
    ["ab"] never reaches the history, neither after its dispatch nor at the
    end of the run: the callback of ["a"] threw before the push. And on
    [{ "_default": forget }] the history does not only grow: after ["x"] it
    is [["x"]], after ["y"] it is [["y"]]. *)
Lemma C4_counterexample :
  validKeys literalRegExp tableExplodes = true /\
  includes (trim (js "ab")) [LF] = false /\
  logicMessages
    (snd (respondToMessage literalRegExp tableExplodes [] (js "ab")
            newContext)) = [] /\
  messagesOf [MessageEvent (js "ab")] = [js "ab"] /\
  logicMessages
    (context (ScriptCommunicator.runEvents literalRegExp tableExplodes []
                true Spawned [MessageEvent (js "ab")])) = [] /\
  logicMessages
    (context (ScriptCommunicator.runEvents literalRegExp tableForgets []
                true Spawned [MessageEvent (js "x")])) = [js "x"] /\
  logicMessages
    (context (ScriptCommunicator.runEvents literalRegExp tableForgets []
                true Spawned [MessageEvent (js "x"); MessageEvent (js "y")])) =
    [js "y"].
Proof. repeat split; reflexivity. Qed.

(** C6 as stated: the script crashes; PythonShell sets [terminated] and
    reports the error in one turn. The failure is recorded and delivered,
    and the run has signalled nothing, not exactly once: [kill] is skipped
    on a handle that has terminated. *)
Lemma C6_counterexample :
  let r := ScriptCommunicator.runEvents literalRegExp tableReady [] true Spawned
             [MessageEvent (js "READY"); PythonErrorEvent boom] in
  promise (context r) = Rejected boom /\
  outerCalls r = [OuterReject boom] /\
  signalsOf r = [] /\
  List.length (signalsOf r) <> 1%nat.
Proof. vm_compute. repeat split; discriminate. Qed.

(** C7 as stated: the chunk ["foo\nExiting..."] on [{ "_default": echo }]
    has two lines and no matching rule, [_default] is registered, and it is
    invoked once, for ["foo"] only. And the chunk ["foo\nbar"]: on
    [{ "_default": explode }] the callback is invoked for ["foo"] only and
    the history stays empty; on [{ "_default": forget }] it is invoked for
    both lines and the history holds ["bar"] alone. *)
Lemma C7_counterexample :
  includes (trim chunkFooExiting) [LF] = true /\
  split LF (trim chunkFooExiting) = [js "foo"; EXITING_MESSAGE] /\
  In DEFAULT (keys tableDefaultOnly) /\
  (forall l p, In p (keys tableDefaultOnly) -> p <> DEFAULT ->
               ~ matchesPattern literalRegExp p l) /\
  invocations
    (effects (snd (respondToMessage literalRegExp tableDefaultOnly []
                     chunkFooExiting newContext))) = [(DEFAULT, js "foo")] /\
  invocationCount DEFAULT
    (effects (snd (respondToMessage literalRegExp tableDefaultOnly []
                     chunkFooExiting newContext))) <> 2%nat /\
  split LF (trim chunkFooBar) = [js "foo"; js "bar"] /\
  invocations
    (effects (snd (respondToMessage literalRegExp tableDefaultExplodes []
                     chunkFooBar newContext))) = [(DEFAULT, js "foo")] /\
  logicMessages
    (snd (respondToMessage literalRegExp tableDefaultExplodes []
            chunkFooBar newContext)) = [] /\
  invocations
    (effects (snd (respondToMessage literalRegExp tableForgets []
                     chunkFooBar newContext))) =
    [(DEFAULT, js "foo"); (DEFAULT, js "bar")] /\
  logicMessages
    (snd (respondToMessage literalRegExp tableForgets []
            chunkFooBar newContext)) = [js "bar"].
Proof.
  split; [reflexivity|]. split; [reflexivity|]. split; [left; reflexivity|].
  split; [|split; [reflexivity|split; [vm_compute; discriminate|]]].
  - intros l p [<-|[]] Hp. exfalso. apply Hp. reflexivity.
  - repeat split; reflexivity.
Qed.

(** * More of the code *)

(** ** The responder, beyond the claims *)

Section ResponderMore.

Variable RegExp : RegExpEngine.
Variable messageResponses : ResponseTable.
Variable uiArgumentMap : ArgumentMap.

Local Notation handleResponseLoop :=
  (ScriptResponder.handleResponseLoop RegExp messageResponses uiArgumentMap).
Local Notation handleResponse :=
  (ScriptResponder.handleResponse RegExp messageResponses uiArgumentMap).
Local Notation respondToLine :=
  (ScriptResponder.respondToLine RegExp messageResponses uiArgumentMap).
Local Notation respondToMessage :=
  (ScriptResponder.respondToMessage RegExp messageResponses uiArgumentMap).
Local Notation invokeEntry :=
  (ScriptResponder.invokeEntry messageResponses uiArgumentMap).
Local Notation returnOn := (returnOn messageResponses uiArgumentMap).
Local Notation readOnlyOn := (readOnlyOn messageResponses uiArgumentMap).
Local Notation validPrompts :=
  (forallb (fun k => JsString.eqb k DEFAULT ||
                     match RegExp k with Some _ => true | None => false end)).

Lemma fires_spec (m p : jsstring) :
  fires RegExp m p = true <-> p <> DEFAULT /\ matchesPattern RegExp p m.
Proof.
  unfold fires. rewrite andb_true_iff, negb_true_iff, jsstring_eqb_neq.
  rewrite (matchesb_spec RegExp). tauto.
Qed.

(** Whenever the loop of [handleResponse] returns, its flag tells whether a
    key it visited matched. *)
Lemma handleResponseLoop_flag (m : jsstring) (prompts : list jsstring) :
  forall (handled b : bool) (ctx ctx' : RunContext),
    handleResponseLoop prompts m handled ctx = (Normal b, ctx') ->
    b = handled || existsb (fires RegExp m) prompts.
Proof.
  induction prompts as [|k prompts IH]; intros handled b ctx ctx' H.
  - simpl in H. inversion H. rewrite orb_false_r. reflexivity.
  - rewrite handleResponseLoop_cons in H. cbn [existsb].
    destruct (JsString.eqb k DEFAULT) eqn:Ek.
    + rewrite (fires_default RegExp m k Ek). exact (IH _ _ _ _ H).
    + destruct (RegExp k) as [r|] eqn:Er; [|discriminate].
      rewrite (fires_regexp RegExp m k r Ek Er).
      destruct (r m || JsString.eqb k (trim m)); [|exact (IH _ _ _ _ H)].
      destruct (invokeEntry k m ctx) as [[[]|e] ctx1]; [|discriminate].
      rewrite (IH _ _ _ _ H), orb_true_r. reflexivity.
Qed.

(** X1: what [handleResponse] returns tells whether the message was
    handled: whenever it returns, it returns [true] exactly when some key
    other than [_default] matches the message; and it does return on a
    table of regular expressions whose matching callbacks return. *)
Theorem X1_handleResponse_reports_a_match (m : jsstring) (ctx : RunContext) :
  (forall handled ctx',
     handleResponse m ctx = (Normal handled, ctx') ->
     (handled = true <->
      exists p, In p (keys messageResponses) /\ p <> DEFAULT /\
                matchesPattern RegExp p m)) /\
  (validKeys RegExp messageResponses = true ->
   returnOn m (firingKeys RegExp messageResponses m) ->
   exists handled ctx', handleResponse m ctx = (Normal handled, ctx')).
Proof.
  unfold ScriptResponder.handleResponse. split.
  - intros handled ctx' H.
    rewrite (handleResponseLoop_flag m _ _ _ _ _ H). simpl.
    rewrite existsb_exists. split.
    + intros (p & Hin & Hf). apply fires_spec in Hf. exists p. tauto.
    + intros (p & Hin & Hp & Hm). exists p. split; [exact Hin|].
      apply fires_spec. tauto.
  - intros Hvalid Hret.
    destruct (handleResponseLoop_valid RegExp messageResponses uiArgumentMap m
                (keys messageResponses) false ctx (fun k H => H) Hvalid Hret)
      as (ctx' & new & Hr & _).
    eauto.
Qed.

(** Whatever the keys and the callbacks, the loop of [handleResponse]
    pushes nothing and leaves [_default] alone. *)
Lemma handleResponseLoop_quiet (m : jsstring) (prompts : list jsstring) :
  forall (handled : bool) (ctx : RunContext),
  exists new,
    effects (snd (handleResponseLoop prompts m handled ctx)) =
      effects ctx ++ new /\
    forallb (fun e => negb (isPushed e)) new = true /\
    invocationCount DEFAULT new = O.
Proof.
  induction prompts as [|k prompts IH]; intros handled ctx.
  - exists []. simpl. rewrite app_nil_r. auto.
  - rewrite handleResponseLoop_cons.
    destruct (JsString.eqb k DEFAULT) eqn:Ek; [apply IH|].
    destruct (RegExp k) as [r|].
    2:{ exists []. simpl. rewrite app_nil_r. auto. }
    destruct (r m || JsString.eqb k (trim m)); [|apply IH].
    unfold ScriptResponder.invokeEntry.
    destruct (lookup k messageResponses) as [cb|].
    2:{ exists []. simpl. rewrite app_nil_r. auto. }
    destruct (invoke_spec uiArgumentMap k cb m ctx) as (ctx1 & -> & _ & HE1).
    assert (Hc1 : invocationCount DEFAULT
                    (Invoked k m ::
                     List.map Hooked
                       (hookCalls (steps (cb m uiArgumentMap (logicMessages ctx)))))
                  = O).
    { simpl. rewrite Ek.
      rewrite invocationCount_invocations, invocations_hooks. reflexivity. }
    destruct (thrown (cb m uiArgumentMap (logicMessages ctx))).
    + eexists. split; [exact HE1|]. split; [apply hooks_not_pushed | exact Hc1].
    + destruct (IH true ctx1) as (new & HE & Hnp & Hc).
      exists ((Invoked k m ::
               List.map Hooked
                 (hookCalls (steps (cb m uiArgumentMap (logicMessages ctx)))))
                ++ new).
      split; [rewrite HE, HE1, <- app_assoc; reflexivity|]. split.
      * apply forallb_app_true; [apply hooks_not_pushed | exact Hnp].
      * rewrite invocationCount_app, Hc, Hc1. reflexivity.
Qed.

(** X2: whatever the table, and also when it throws, [handleResponse]
    pushes nothing and never invokes the callback of [_default]; the
    message history is as it was, unless a callback it invoked wrote to the
    array. *)
Theorem X2_handleResponse_leaves_history_and_default
    (m : jsstring) (ctx : RunContext) :
  (readOnlyOn m (firingKeys RegExp messageResponses m) ->
   logicMessages (snd (handleResponse m ctx)) = logicMessages ctx) /\
  exists new,
    effects (snd (handleResponse m ctx)) = effects ctx ++ new /\
    forallb (fun e => negb (isPushed e)) new = true /\
    invocationCount DEFAULT new = O.
Proof.
  split.
  - apply (handleResponseLoop_history RegExp messageResponses uiArgumentMap).
  - apply handleResponseLoop_quiet.
Qed.

(** With every visited key a regular expression and the callbacks invoked
    returning and leaving the array alone, the trace of the loop is the
    traces of the matching keys' callbacks, in order, each handed the
    history as the loop found it. *)
Lemma handleResponseLoop_trace (m : jsstring) (prompts : list jsstring) :
  forall (handled : bool) (ctx : RunContext),
    validPrompts prompts = true ->
    (forall k, In k prompts -> In k (keys messageResponses)) ->
    returnOn m (filter (fires RegExp m) prompts) ->
    readOnlyOn m (filter (fires RegExp m) prompts) ->
    effects (snd (handleResponseLoop prompts m handled ctx)) =
    effects ctx ++
    flat_map (callbackTrace messageResponses uiArgumentMap (logicMessages ctx) m)
             (filter (fires RegExp m) prompts).
Proof.
  induction prompts as [|k prompts IH]; intros handled ctx Hvalid Hin Hret Hro.
  - simpl. rewrite app_nil_r. reflexivity.
  - simpl in Hvalid. apply andb_true_iff in Hvalid. destruct Hvalid as [Hk Hrest].
    assert (Hin' : forall k', In k' prompts -> In k' (keys messageResponses))
      by (intros; apply Hin; simpl; auto).
    assert (Hret' : returnOn m (filter (fires RegExp m) prompts))
      by (apply (returnOn_incl _ _ m _ _ (filter_tail_In _ k prompts) Hret)).
    assert (Hro' : readOnlyOn m (filter (fires RegExp m) prompts))
      by (apply (readOnlyOn_incl _ _ m _ _ (filter_tail_In _ k prompts) Hro)).
    rewrite handleResponseLoop_cons. cbn [filter].
    destruct (JsString.eqb k DEFAULT) eqn:Ek.
    + rewrite (fires_default RegExp m k Ek). apply IH; assumption.
    + simpl in Hk. destruct (RegExp k) as [r|] eqn:Er; [|discriminate].
      pose proof (fires_regexp RegExp m k r Ek Er) as Hf.
      destruct (r m || JsString.eqb k (trim m)) eqn:Em; rewrite Hf.
      * assert (Hk' : In k (filter (fires RegExp m) (k :: prompts)))
          by (apply filter_In; split; [left; reflexivity | exact Hf]).
        unfold ScriptResponder.invokeEntry. simpl flat_map.
        unfold callbackTrace at 1.
        destruct (lookup_keys k messageResponses (Hin k (or_introl eq_refl)))
          as [cb Hcb].
        rewrite Hcb.
        destruct (invoke_spec uiArgumentMap k cb m ctx) as (ctx1 & -> & HL1 & HE1).
        rewrite (Hret k cb (logicMessages ctx) Hk' Hcb).
        rewrite lastWrite_readOnly in HL1
          by exact (Hro k cb (logicMessages ctx) Hk' Hcb).
        rewrite IH by assumption. rewrite HL1, HE1, <- app_assoc. reflexivity.
      * apply IH; assumption.
Qed.

(** X3: a single-line message that is not the sentinel, on a table of
    regular expressions, with the callbacks it reaches returning and
    leaving the array alone: the trace of its dispatch is, in table order,
    the invocation of each dispatched callback followed by that callback's
    hook calls, and then the push. Every callback is handed the history as
    it was before this message: the message joins it only after the last
    callback has returned. *)
Theorem X3_dispatch_trace (m : jsstring) (ctx : RunContext) :
  validKeys RegExp messageResponses = true ->
  includes (trim m) [LF] = false ->
  trim m <> EXITING_MESSAGE ->
  returnOn m (dispatchedKeys RegExp messageResponses m) ->
  readOnlyOn m (dispatchedKeys RegExp messageResponses m) ->
  exists ctx',
    respondToMessage m ctx = (Normal tt, ctx') /\
    effects ctx' =
      effects ctx ++
      flat_map (callbackTrace messageResponses uiArgumentMap (logicMessages ctx) m)
               (dispatchedKeys RegExp messageResponses m) ++
      [Pushed m].
Proof.
  intros Hvalid Hl Hns Hret Hro.
  assert (Hs : isSentinel m = false)
    by (unfold isSentinel; apply jsstring_eqb_neq; exact Hns).
  assert (Hret' : returnOn m (firingKeys RegExp messageResponses m))
    by exact (returnOn_incl _ _ m _ _ (firingKeys_dispatched _ _ m) Hret).
  assert (Hro' : readOnlyOn m (firingKeys RegExp messageResponses m))
    by exact (readOnlyOn_incl _ _ m _ _ (firingKeys_dispatched _ _ m) Hro).
  rewrite (respondToMessage_single _ _ _ m ctx Hl).
  rewrite (respondToLine_steps _ _ _ m ctx Hs).
  pose proof (handleResponseLoop_trace m (keys messageResponses) false ctx
                Hvalid (fun k H => H) Hret' Hro') as HT.
  pose proof (handleResponseLoop_history RegExp messageResponses uiArgumentMap
                m (keys messageResponses) false ctx Hro') as HH.
  destruct (handleResponseLoop_valid RegExp messageResponses uiArgumentMap m
              (keys messageResponses) false ctx (fun k H => H) Hvalid Hret')
    as (ctx1 & new & Hr & _).
  rewrite Hr in HT, HH |- *. simpl in HT, HH.
  destruct (existsb (fires RegExp m) (keys messageResponses)) eqn:Eex;
    cbn [negb orb].
  - unfold dispatchedKeys, firingKeys in *.
    destruct (existsb_filter_cons _ _ Eex) as (x & xs & Ef).
    rewrite Ef in HT |- *. unfold ret, push. eexists. split; [reflexivity|].
    simpl effects. rewrite HT, <- app_assoc. reflexivity.
  - rewrite (existsb_filter_nil _ _ Eex) in HT.
    simpl in HT. rewrite app_nil_r in HT.
    destruct (memb DEFAULT (keys messageResponses)) eqn:Ed.
    + rewrite (default_dispatched _ _ m Eex Ed) in *.
      unfold ScriptResponder.invokeEntry, callbackTrace. simpl flat_map.
      destruct (lookup_keys DEFAULT messageResponses (proj1 (memb_In _ _) Ed))
        as [cb Hcb].
      rewrite Hcb.
      destruct (invoke_spec uiArgumentMap DEFAULT cb m ctx1)
        as (ctx2 & -> & HL2 & HE2).
      rewrite (Hret DEFAULT cb (logicMessages ctx1) (or_introl eq_refl) Hcb).
      unfold push. eexists. split; [reflexivity|].
      simpl effects. rewrite HE2, HT, HH, app_nil_r, <- app_assoc. reflexivity.
    + unfold dispatchedKeys, firingKeys.
      rewrite (existsb_filter_nil _ _ Eex), Ed.
      unfold ret, push. eexists. split; [reflexivity|].
      simpl. rewrite HT. reflexivity.
Qed.

(** X5: a message of white space only, line separators included, is not
    split: it is dispatched as one message, it is not the sentinel, and on a
    table of regular expressions whose callbacks for it return, its
    callbacks get it as it was delivered, and so does the history when they
    leave the array alone. *)
Theorem X5_blank_message_is_one_message (m : jsstring) (ctx : RunContext) :
  trim m = [] ->
  validKeys RegExp messageResponses = true ->
  returnOn m (dispatchedKeys RegExp messageResponses m) ->
  exists ctx',
    respondToMessage m ctx = (Normal tt, ctx') /\
    invocations (effects ctx') =
      invocations (effects ctx) ++
      List.map (fun k => (k, m)) (dispatchedKeys RegExp messageResponses m) /\
    (readOnlyOn m (dispatchedKeys RegExp messageResponses m) ->
     logicMessages ctx' = logicMessages ctx ++ [m]).
Proof.
  intros Ht Hvalid Hret.
  assert (Hl : includes (trim m) [LF] = false) by (rewrite Ht; reflexivity).
  assert (Hs : isSentinel m = false)
    by (unfold isSentinel; rewrite Ht; reflexivity).
  rewrite (respondToMessage_single _ _ _ m ctx Hl).
  destruct (respondToLine_valid RegExp messageResponses uiArgumentMap m ctx
              Hvalid Hs Hret) as (ctx' & new & Hr & HE & _ & Hinv & HL).
  exists ctx'. split; [exact Hr|]. split; [|exact HL].
  rewrite HE, !invocations_app, Hinv. simpl. rewrite app_nil_r. reflexivity.
Qed.

Lemma split_not_nil (sep : N) (s : jsstring) : split sep s <> [].
Proof.
  destruct s as [|c s]; simpl; [discriminate|].
  destruct (c =? sep); [discriminate|].
  destruct (split sep s); discriminate.
Qed.

(** Splitting and joining again gives the string back. *)
Lemma join_split (sep : N) (s : jsstring) : join sep (split sep s) = s.
Proof.
  induction s as [|c s IH]; [reflexivity|].
  simpl split. destruct (N.eqb_spec c sep) as [->|Hne].
  - pose proof (split_not_nil sep s) as Hnn.
    destruct (split sep s) as [|p ps]; [congruence|].
    change (join sep ([] :: p :: ps)) with ([] ++ sep :: join sep (p :: ps)).
    rewrite IH. reflexivity.
  - pose proof (split_not_nil sep s) as Hnn.
    destruct (split sep s) as [|p ps]; [congruence|].
    destruct ps as [|q ps].
    + simpl in IH |- *. rewrite IH. reflexivity.
    + change (join sep ((c :: p) :: q :: ps))
        with ((c :: p) ++ sep :: join sep (q :: ps)).
      change (join sep (p :: q :: ps)) with (p ++ sep :: join sep (q :: ps)) in IH.
      rewrite <- IH. reflexivity.
Qed.

(** One piece more than there are separators. *)
Lemma length_split (sep : N) (s : jsstring) :
  List.length (split sep s) =
  S (List.length (filter (fun c => c =? sep) s)).
Proof.
  induction s as [|c s IH]; [reflexivity|].
  simpl. destruct (c =? sep); simpl; [rewrite IH; reflexivity|].
  pose proof (split_not_nil sep s) as Hnn.
  destruct (split sep s) as [|p ps]; [congruence|]. exact IH.
Qed.

(** X6: a chunk whose trimmed form holds line separators, on a table of
    regular expressions whose callbacks return and leave the array alone:
    the history gains one line more than the trimmed chunk has separators,
    none of them holding a separator, and joined by separators they are the
    trimmed chunk: nothing of it is lost but the white space around it. *)
Theorem X6_chunk_lines_rebuild_the_chunk (m : jsstring) (ctx : RunContext) :
  includes (trim m) [LF] = true ->
  validKeys RegExp messageResponses = true ->
  callbacksReturn messageResponses uiArgumentMap ->
  callbacksReadOnly messageResponses uiArgumentMap ->
  exists ctx' lines,
    respondToMessage m ctx = (Normal tt, ctx') /\
    logicMessages ctx' = logicMessages ctx ++ lines /\
    join LF lines = trim m /\
    List.length lines =
      S (List.length (filter (fun c => c =? LF) (trim m))) /\
    (forall l, In l lines -> ~ In LF l).
Proof.
  intros Hl Hvalid Hret Hro.
  destruct (respondToMessage_valid_history RegExp messageResponses
              uiArgumentMap m ctx Hvalid Hret) as (ctx' & Hr & _ & HL).
  specialize (HL Hro). unfold linesOf in HL. rewrite Hl in HL.
  exists ctx', (split LF (trim m)).
  split; [exact Hr|]. split; [exact HL|].
  split; [apply join_split|]. split; [apply length_split|].
  intros l Hin. exact (split_no_sep LF (trim m) l Hin).
Qed.

Lemma invalid_key_found (ks : list jsstring) :
  validPrompts ks = false ->
  exists before k after,
    ks = before ++ k :: after /\ k <> DEFAULT /\ RegExp k = None.
Proof.
  induction ks as [|k ks IH]; simpl; [discriminate|].
  intros H. apply andb_false_iff in H. destruct H as [H|H].
  - apply orb_false_iff in H. destruct H as [Hk Hr].
    exists [], k, ks. split; [reflexivity|].
    split; [apply jsstring_eqb_neq; exact Hk|].
    destruct (RegExp k); [discriminate | reflexivity].
  - destruct (IH H) as (before & k' & after & -> & Hk & Hr).
    exists (k :: before), k', after. auto.
Qed.

(** With a key that is no regular expression, every line that is not the
    sentinel throws and is not pushed. *)
Lemma respondToLine_invalid (l : jsstring) (ctx : RunContext) :
  validKeys RegExp messageResponses = false ->
  isSentinel l = false ->
  exists e ctx',
    respondToLine l ctx = (Throw e, ctx') /\
    (readOnlyOn l (keys messageResponses) ->
     logicMessages ctx' = logicMessages ctx).
Proof.
  intros Hinv Hs. unfold validKeys in Hinv.
  destruct (invalid_key_found _ Hinv) as (before & k & after & Hk & Hd & Hr).
  rewrite (respondToLine_steps _ _ _ l ctx Hs), Hk.
  destruct (handleResponseLoop_invalid RegExp messageResponses uiArgumentMap
              l k after Hd Hr before false ctx)
    as (e & ctx' & new & -> & _ & _ & _ & HL & _).
  exists e, ctx'. split; [reflexivity|]. intros Hro. apply HL.
  apply (readOnlyOn_incl _ _ l (before ++ k :: after)); [|exact Hro].
  intros k' Hk'. apply filter_In in Hk'. apply in_or_app. tauto.
Qed.

Lemma respondToMessage_lines (m : jsstring) (ctx : RunContext) :
  respondToMessage m ctx = forEach respondToLine (linesOf m) ctx.
Proof.
  unfold linesOf. destruct (includes (trim m) [LF]) eqn:Hl.
  - apply respondToMessage_split. exact Hl.
  - rewrite (respondToMessage_single _ _ _ m ctx Hl). simpl. unfold bind, ret.
    destruct (respondToLine m ctx) as [[[]|e] ctx']; reflexivity.
Qed.

(** X7: with callbacks that return, a message whose first line is not the
    sentinel is dispatched without an exception exactly when every key of
    the table other than [_default] is a regular expression. With one that
    is not, the dispatch throws at the first line and the history stays as
    it was, the callbacks leaving the array alone: of a chunk, all the lines
    are lost. *)
Theorem X7_dispatch_throws_iff_invalid_key (m : jsstring) (ctx : RunContext) :
  isSentinel (hd [] (linesOf m)) = false ->
  callbacksReturn messageResponses uiArgumentMap ->
  (fst (respondToMessage m ctx) = Normal tt <->
   validKeys RegExp messageResponses = true) /\
  (validKeys RegExp messageResponses = false ->
   callbacksReadOnly messageResponses uiArgumentMap ->
   logicMessages (snd (respondToMessage m ctx)) = logicMessages ctx).
Proof.
  intros Hs Hret.
  destruct (validKeys RegExp messageResponses) eqn:Hv.
  - destruct (respondToMessage_valid_history RegExp messageResponses
                uiArgumentMap m ctx Hv Hret) as (ctx' & -> & _).
    simpl. split; [tauto | discriminate].
  - rewrite respondToMessage_lines.
    assert (Hne : linesOf m <> []).
    { unfold linesOf. destruct (includes (trim m) [LF]);
        [apply split_not_nil | discriminate]. }
    destruct (linesOf m) as [|l rest]; [congruence|]. simpl in Hs.
    destruct (respondToLine_invalid l ctx Hv Hs) as (e & ctx' & Hr & HL).
    simpl. unfold bind. rewrite Hr. simpl.
    split; [split; discriminate | intros _ Hro; exact (HL (Hro l))].
Qed.

Lemma lookup_Some_keys (k : jsstring) (t : ResponseTable)
    (cb : ResponseCallback) :
  lookup k t = Some cb -> In k (keys t).
Proof.
  induction t as [|[k' cb'] t IH]; simpl; [discriminate|].
  destruct (JsString.eqb k k') eqn:E; [|auto].
  apply jsstring_eqb_eq in E. auto.
Qed.

Lemma lookup_middle (before after : ResponseTable) (k : jsstring)
    (cb : ResponseCallback) :
  uniqueKeys (before ++ (k, cb) :: after) = true ->
  lookup k (before ++ (k, cb) :: after) = Some cb.
Proof.
  unfold uniqueKeys. induction before as [|[k' cb'] before IH]; simpl.
  - intros _. rewrite jsstring_eqb_refl. reflexivity.
  - intros H. apply andb_true_iff in H. destruct H as [Hk' Hu].
    destruct (JsString.eqb k k') eqn:E; [|exact (IH Hu)].
    apply jsstring_eqb_eq in E. subst k'. apply negb_true_iff in Hk'.
    assert (Hin : memb k (keys (before ++ (k, cb) :: after)) = true).
    { apply memb_In. unfold keys. rewrite map_app. apply in_or_app.
      right. left. reflexivity. }
    congruence.
Qed.

(** The first callback to throw ends the loop of [handleResponse]: what it
    throws leaves the loop, with the matching callbacks of the keys before
    it invoked and none after it. *)
Lemma handleResponseLoop_thrown (m k : jsstring) (cb : ResponseCallback)
    (r : jsstring -> bool) (e : JsValue) (after : list jsstring) :
  lookup k messageResponses = Some cb ->
  RegExp k = Some r ->
  fires RegExp m k = true ->
  (forall history, thrown (cb m uiArgumentMap history) = Some e) ->
  forall (before : list jsstring) (handled : bool) (ctx : RunContext),
    validPrompts before = true ->
    (forall k', In k' before -> In k' (keys messageResponses)) ->
    returnOn m (filter (fires RegExp m) before) ->
    exists ctx' new,
      handleResponseLoop (before ++ k :: after) m handled ctx = (Throw e, ctx') /\
      effects ctx' = effects ctx ++ new /\
      forallb (fun e => negb (isPushed e)) new = true /\
      invocations new =
        List.map (fun k' => (k', m)) (filter (fires RegExp m) before ++ [k]).
Proof.
  intros Hcb Er Hfk Hth.
  assert (Hk : JsString.eqb k DEFAULT = false).
  { unfold fires in Hfk. destruct (JsString.eqb k DEFAULT); [discriminate|].
    reflexivity. }
  rewrite (fires_regexp RegExp m k r Hk Er) in Hfk.
  induction before as [|k' before IH]; intros handled ctx Hvalid Hin Hret.
  - simpl app. rewrite handleResponseLoop_cons, Hk, Er, Hfk.
    unfold ScriptResponder.invokeEntry. rewrite Hcb.
    destruct (invoke_spec uiArgumentMap k cb m ctx) as (ctx1 & -> & _ & HE1).
    rewrite Hth. eexists _, _. split; [reflexivity|]. split; [exact HE1|].
    split; [apply hooks_not_pushed|].
    simpl. rewrite invocations_hooks. reflexivity.
  - simpl in Hvalid. apply andb_true_iff in Hvalid. destruct Hvalid as [Hk' Hrest].
    assert (Hin' : forall x, In x before -> In x (keys messageResponses))
      by (intros; apply Hin; simpl; auto).
    assert (Hret' : returnOn m (filter (fires RegExp m) before))
      by (apply (returnOn_incl _ _ m _ _ (filter_tail_In _ k' before) Hret)).
    simpl app. rewrite handleResponseLoop_cons. cbn [filter].
    destruct (JsString.eqb k' DEFAULT) eqn:Ek'.
    + rewrite (fires_default RegExp m k' Ek'). apply IH; assumption.
    + simpl in Hk'. destruct (RegExp k') as [r'|] eqn:Er'; [|discriminate].
      pose proof (fires_regexp RegExp m k' r' Ek' Er') as Hf.
      destruct (r' m || JsString.eqb k' (trim m)) eqn:Em; rewrite Hf;
        [|apply IH; assumption].
      unfold ScriptResponder.invokeEntry.
      destruct (lookup_keys k' messageResponses (Hin k' (or_introl eq_refl)))
        as [cb' Hcb'].
      rewrite Hcb'.
      destruct (invoke_spec uiArgumentMap k' cb' m ctx) as (ctx1 & -> & _ & HE1).
      rewrite (Hret k' cb' (logicMessages ctx))
        by (first [exact Hcb'
                  | apply filter_In; split; [left; reflexivity | exact Hf]]).
      destruct (IH true ctx1 Hrest Hin' Hret') as (ctx' & new & -> & HE & Hnp & Hinv).
      exists ctx',
        ((Invoked k' m ::
          List.map Hooked
            (hookCalls (steps (cb' m uiArgumentMap (logicMessages ctx))))) ++ new).
      split; [reflexivity|]. split; [|split].
      * rewrite HE, HE1, <- app_assoc. reflexivity.
      * apply forallb_app_true; [apply hooks_not_pushed | exact Hnp].
      * rewrite invocations_app. simpl. rewrite invocations_hooks, Hinv.
        reflexivity.
Qed.

(** X20: a callback that throws ends the dispatch of its message. With the
    keys before it regular expressions whose matching callbacks return, a
    single-line message that is not the sentinel and matches the key of a
    throwing callback invokes the matching callbacks up to that one, in
    order, and no other: the callbacks of later keys are not invoked, nor is
    [_default]'s, and the message is not pushed. The exception leaves
    [respondToMessage] and the message listener, which catches nothing;
    nothing is delivered to the caller of [run] and the handle is left as it
    is. *)
Theorem X20_callback_exception_aborts_dispatch
    (before after : ResponseTable) (k : jsstring) (cb : ResponseCallback)
    (r : jsstring -> bool) (e : JsValue) (m : jsstring) (ctx : RunContext) :
  messageResponses = before ++ (k, cb) :: after ->
  uniqueKeys messageResponses = true ->
  validKeys RegExp before = true ->
  returnOn m (firingKeys RegExp before m) ->
  RegExp k = Some r ->
  fires RegExp m k = true ->
  (forall history, thrown (cb m uiArgumentMap history) = Some e) ->
  includes (trim m) [LF] = false ->
  trim m <> EXITING_MESSAGE ->
  exists ctx' new,
    respondToMessage m ctx = (Throw e, ctx') /\
    effects ctx' = effects ctx ++ new /\
    forallb (fun e => negb (isPushed e)) new = true /\
    invocations new =
      List.map (fun k' => (k', m)) (firingKeys RegExp before m ++ [k]) /\
    (forall run, context run = ctx ->
       let run' := ScriptCommunicator.onMessage RegExp messageResponses
                     uiArgumentMap m run in
       uncaught run' = uncaught run ++ [e] /\
       outerCalls run' = outerCalls run /\
       interpreter run' = interpreter run).
Proof.
  intros Ht Hu Hvalid Hret Er Hfk Hth Hl Hns.
  assert (Hs : isSentinel m = false)
    by (unfold isSentinel; apply jsstring_eqb_neq; exact Hns).
  assert (Hcb : lookup k messageResponses = Some cb)
    by (rewrite Ht in Hu |- *; apply lookup_middle; exact Hu).
  assert (Hkeys : keys messageResponses = keys before ++ k :: keys after)
    by (rewrite Ht; unfold keys; rewrite map_app; reflexivity).
  destruct (handleResponseLoop_thrown m k cb r e (keys after) Hcb Er Hfk Hth
              (keys before) false ctx Hvalid)
    as (ctx' & new & Hr & HE & Hnp & Hinv); [|exact Hret|].
  { intros k' Hin. rewrite Hkeys. apply in_or_app. auto. }
  assert (Hrun : respondToMessage m ctx = (Throw e, ctx')).
  { rewrite (respondToMessage_single _ _ _ m ctx Hl).
    rewrite (respondToLine_steps _ _ _ m ctx Hs), Hkeys, Hr. reflexivity. }
  exists ctx', new. split; [exact Hrun|]. split; [exact HE|].
  split; [exact Hnp|]. split; [exact Hinv|].
  intros run Hctx. unfold ScriptCommunicator.onMessage.
  rewrite Hctx, Hrun. simpl. auto.
Qed.

(** X21: the same for the fallback. On a table of regular expressions
    none of which matches a single-line message that is not the sentinel,
    a [_default] that throws is invoked, what it throws leaves
    [respondToMessage], and the message is not pushed: the trace ends with
    the hook calls the callback made before it threw. *)
Theorem X21_default_exception_loses_the_message
    (cb : ResponseCallback) (e : JsValue) (m : jsstring) (ctx : RunContext) :
  validKeys RegExp messageResponses = true ->
  firingKeys RegExp messageResponses m = [] ->
  lookup DEFAULT messageResponses = Some cb ->
  thrown (cb m uiArgumentMap (logicMessages ctx)) = Some e ->
  includes (trim m) [LF] = false ->
  trim m <> EXITING_MESSAGE ->
  exists ctx',
    respondToMessage m ctx = (Throw e, ctx') /\
    effects ctx' =
      effects ctx ++
      Invoked DEFAULT m ::
      List.map Hooked
        (hookCalls (steps (cb m uiArgumentMap (logicMessages ctx)))) /\
    (readsOnly (cb m uiArgumentMap (logicMessages ctx)) = true ->
     logicMessages ctx' = logicMessages ctx).
Proof.
  intros Hvalid Hnone Hcb Hth Hl Hns.
  assert (Hs : isSentinel m = false)
    by (unfold isSentinel; apply jsstring_eqb_neq; exact Hns).
  assert (Hd : memb DEFAULT (keys messageResponses) = true).
  { apply memb_In. exact (lookup_Some_keys _ _ _ Hcb). }
  unfold firingKeys in Hnone.
  assert (Hret : returnOn m (filter (fires RegExp m) (keys messageResponses)))
    by (rewrite Hnone; intros k cb' h []).
  assert (Hro : readOnlyOn m (filter (fires RegExp m) (keys messageResponses)))
    by (rewrite Hnone; intros k cb' h []).
  rewrite (respondToMessage_single _ _ _ m ctx Hl).
  rewrite (respondToLine_steps _ _ _ m ctx Hs).
  pose proof (handleResponseLoop_history RegExp messageResponses uiArgumentMap
                m (keys messageResponses) false ctx Hro) as HH.
  destruct (handleResponseLoop_valid RegExp messageResponses uiArgumentMap m
              (keys messageResponses) false ctx (fun k H => H) Hvalid Hret)
    as (ctx1 & new & Hr & HE & _ & Hinv).
  rewrite Hr in HH |- *. simpl in HH.
  assert (Hex : existsb (fires RegExp m) (keys messageResponses) = false).
  { destruct (existsb (fires RegExp m) (keys messageResponses)) eqn:Ex;
      [|reflexivity].
    destruct (existsb_filter_cons _ _ Ex) as (x & xs & Ef). congruence. }
  assert (Hnew : new = []).
  { pose proof (handleResponseLoop_trace m (keys messageResponses) false ctx
                  Hvalid (fun k H => H) Hret Hro) as HT.
    rewrite Hr, Hnone in HT. simpl in HT. rewrite app_nil_r in HT.
    rewrite HT in HE. rewrite <- (app_nil_r (effects ctx)) in HE at 1.
    apply app_inv_head in HE. auto. }
  subst new. rewrite app_nil_r in HE.
  rewrite Hex. cbn [orb negb]. rewrite Hd.
  unfold ScriptResponder.invokeEntry. rewrite Hcb.
  destruct (invoke_spec uiArgumentMap DEFAULT cb m ctx1) as (ctx2 & -> & HL2 & HE2).
  rewrite HH in *. rewrite Hth.
  exists ctx2. split; [reflexivity|]. split; [rewrite HE2, HE; reflexivity|].
  intros Hreads. rewrite HL2. apply lastWrite_readOnly. exact Hreads.
Qed.

End ResponderMore.
(** ** The communicator, beyond the claims *)

Lemma firstDelivery_fold (calls : list OuterCall) :
  forall p,
    fold_left
      (fun p c =>
         match c with
         | OuterResolve result => settle p (Fulfilled result)
         | OuterReject reason => settle p (Rejected reason)
         end) calls p =
    match p with
    | Pending => firstDelivery calls
    | settled => settled
    end.
Proof.
  induction calls as [|c calls IH]; intros p.
  - destruct p; reflexivity.
  - simpl fold_left. rewrite IH. destruct p, c; reflexivity.
Qed.

(** The promise of [runScript] is what the first call made it. *)
Lemma runScriptPromise_firstDelivery (r : Run) :
  runScriptPromise r = firstDelivery (outerCalls r).
Proof. unfold runScriptPromise. apply firstDelivery_fold. Qed.

(** The reactions of a fresh run deliver according to the record. *)
Lemma react_fresh_accounted (r : Run) : fresh r -> accounted (react r).
Proof.
  unfold fresh, accounted, react, catchReaction, onFulfilled, onRejected,
    signalsOf.
  destruct r as [[[t sg]|] l c re ec oc un]; simpl;
    intros (Hre & Hsg & Hec & Hoc & Hl & Hi); subst; try congruence.
  destruct (promise c) as [|v|e] eqn:Hp; simpl.
  - rewrite Hp. auto.
  - destruct t; simpl; rewrite Hp; simpl; [left; auto|].
    right. repeat split. constructor.
  - destruct (readMessage e); simpl; [destruct t; simpl|]; rewrite Hp; auto.
Qed.

Section CommunicatorMore.

Variable RegExp : RegExpEngine.
Variable messageResponses : ResponseTable.
Variable uiArgumentMap : ArgumentMap.
Variable isPythonShell : bool.

Local Notation onMessage :=
  (ScriptCommunicator.onMessage RegExp messageResponses uiArgumentMap).
Local Notation step :=
  (ScriptCommunicator.step RegExp messageResponses uiArgumentMap isPythonShell).
Local Notation runEvents :=
  (ScriptCommunicator.runEvents RegExp messageResponses uiArgumentMap isPythonShell).
Local Notation respondToMessage :=
  (ScriptResponder.respondToMessage RegExp messageResponses uiArgumentMap).
Local Notation respondToLine :=
  (ScriptResponder.respondToLine RegExp messageResponses uiArgumentMap).

Lemma run_accounted (s : Spawn) : accounted (run s).
Proof.
  destruct s as [err|err|];
    unfold run, executor, react, catchReaction, onRejected, accounted; simpl;
    try (destruct (readMessage err); simpl); auto.
Qed.

Lemma listener_accounted (r r' : Run) :
  consistent r -> accounted r ->
  signalsOf r' = signalsOf r ->
  (interpreter r <> None -> interpreter r' <> None) ->
  listening r' = listening r ->
  reacted r' = reacted r ->
  endCallback r' = endCallback r ->
  outerCalls r' = outerCalls r ->
  (promise (context r) <> Pending ->
   promise (context r') = promise (context r)) ->
  accounted (react r').
Proof.
  intros Hc Ha Hsg Hi Hl Hre Hec Hoc Hp.
  destruct (promise (context r)) as [|v|e] eqn:Epr.
  - apply react_fresh_accounted.
    destruct (consistent_pending r Hc Epr) as (F1 & F2 & F3 & F4 & F5 & F6).
    unfold fresh. rewrite Hre, Hsg, Hec, Hoc, Hl. auto 10.
  - assert (Hr : reacted r = true) by (apply consistent_settled; congruence).
    rewrite react_reacted_id by congruence.
    unfold accounted in *. rewrite Epr in Ha.
    rewrite Hp, Hec, Hoc, Hsg by discriminate. exact Ha.
  - assert (Hr : reacted r = true) by (apply consistent_settled; congruence).
    rewrite react_reacted_id by congruence.
    unfold accounted in *. rewrite Epr in Ha.
    rewrite Hp, Hec, Hoc by discriminate. exact Ha.
Qed.

Lemma exitProcess_accounted (r : Run) :
  accounted r -> accounted (exitProcess r).
Proof.
  intros Ha. unfold exitProcess.
  destruct (interpreter r) as [h|] eqn:Ei; [|exact Ha].
  revert Ha. unfold accounted, signalsOf. rewrite Ei. simpl. tauto.
Qed.

Lemma step_accounted (r : Run) (ev : Event) :
  consistent r -> accounted r -> accounted (step r ev).
Proof.
  intros Hc Ha. destruct ev as [m|err|err| |err]; simpl.
  - destruct (listening r); [|exact Ha].
    destruct (onMessage_fields RegExp messageResponses uiArgumentMap m r)
      as (Hi & Hl & Hre & Hec & Hoc & Hctx).
    apply (listener_accounted r); auto.
    + unfold signalsOf. rewrite Hi. reflexivity.
    + rewrite Hi. auto.
    + intros Hp. rewrite Hctx. apply respondToMessage_settled. exact Hp.
  - destruct (listening r); [|exact Ha].
    apply (listener_accounted r); auto.
    intros Hp. simpl. apply settle_settled. exact Hp.
  - destruct isPythonShell; [|exact Ha]. destruct (listening r).
    + destruct (exitProcess_fields (onError err r))
        as (E1 & E2 & E3 & E4 & E5 & E6 & E7 & _).
      apply (listener_accounted r); auto.
      * intros Hi. apply E2. exact Hi.
      * intros Hp. rewrite E7. simpl. apply settle_settled. exact Hp.
    + apply exitProcess_accounted. exact Ha.
  - apply exitProcess_accounted. exact Ha.
  - destruct (endCallback r) as [result|] eqn:Eec; [|exact Ha].
    revert Ha. unfold accounted, onEnd, signalsOf.
    destruct (promise (context r)) as [|v|e] eqn:Ep.
    + intros [_ H]. congruence.
    + intros [[H _]|(H1 & H2 & H3)]; [congruence|].
      assert (result = v) by congruence. subst result.
      destruct (truthy err) eqn:Et; simpl; rewrite Ep; right;
        (split; [exact H1|]); (split; [exact H2|]).
      * rewrite <- app_assoc. apply Forall_app. split; [exact H3|].
        repeat constructor. exact Et.
      * apply Forall_app. split; [exact H3|]. repeat constructor.
    + intros [H _]. congruence.
Qed.

Lemma runEvents_accounted (s : Spawn) (evs : list Event) :
  accounted (runEvents s evs).
Proof.
  unfold ScriptCommunicator.runEvents.
  assert (H : forall r, consistent r -> accounted r ->
                        accounted (fold_left step evs r)).
  { induction evs as [|ev evs IH]; intros r Hc Ha; [exact Ha|].
    simpl. apply IH.
    - apply step_consistent. exact Hc.
    - apply step_accounted; assumption. }
  apply H; [apply run_consistent | apply run_accounted].
Qed.

(** X13: what the caller of [runScript] is told agrees with what the run
    recorded. A fulfilment carries the recorded success value and comes only
    after [end] was signalled; a rejection carries the recorded failure
    reason, or else it is the error of the graceful shutdown after a
    recorded success; and as long as no outcome is recorded, the caller is
    told nothing. *)
Theorem X13_delivery_agrees_with_record (s : Spawn) (evs : list Event) :
  let r := runEvents s evs in
  (forall v, runScriptPromise r = Fulfilled v ->
     promise (context r) = Fulfilled v /\ signalsOf r = [EndSignal]) /\
  (forall e, runScriptPromise r = Rejected e ->
     promise (context r) = Rejected e \/
     (exists v, promise (context r) = Fulfilled v /\
                signalsOf r = [EndSignal] /\ truthy e = true)) /\
  (promise (context r) = Pending -> runScriptPromise r = Pending).
Proof.
  intros r. pose proof (runEvents_accounted s evs) as Ha. fold r in Ha.
  rewrite runScriptPromise_firstDelivery.
  unfold accounted in Ha.
  destruct (promise (context r)) as [|v|e] eqn:Ep.
  - destruct Ha as [-> _]. simpl.
    split; [intros ? H; discriminate H|].
    split; [intros ? H; discriminate H | reflexivity].
  - destruct Ha as [[_ ->]|(_ & Hsg & Hall)].
    + simpl. split; [intros ? H; discriminate H|].
      split; [intros ? H; discriminate H | intros H; discriminate H].
    + split; [|split; [|intros H; discriminate H]].
      * intros v' Hv. destruct (outerCalls r) as [|[x|x] calls];
          simpl in Hv; try discriminate Hv.
        apply Forall_inv in Hall. simpl in Hall. inversion Hv. subst. auto.
      * intros e He. destruct (outerCalls r) as [|[x|x] calls];
          simpl in He; try discriminate He.
        apply Forall_inv in Hall. simpl in Hall. inversion He. subst.
        right. eauto.
  - split; [|split; [|intros H; discriminate H]].
    + intros v' Hv. destruct Ha as [_ [H|H]]; rewrite H in Hv; discriminate Hv.
    + intros e' He. destruct Ha as [_ [H|H]]; rewrite H in He;
        [discriminate He|]. inversion He. auto.
Qed.

(** X8: on a table of regular expressions whose callbacks return, the
    callbacks invoked in a run are, in order, those of every line
    delivered, the sentinel apart: recording an outcome, an error event or
    the exit of the subprocess stops no dispatch, the messages that follow
    reach their callbacks all the same. *)
Theorem X8_dispatch_goes_on_after_the_outcome (evs : list Event) :
  validKeys RegExp messageResponses = true ->
  callbacksReturn messageResponses uiArgumentMap ->
  invocations (effects (context (runEvents Spawned evs))) =
  flat_map (lineInvocations RegExp messageResponses)
           (flat_map linesOf (messagesOf evs)).
Proof.
  intros Hvalid Hret. unfold ScriptCommunicator.runEvents.
  rewrite (proj1 (fold_history_valid RegExp messageResponses uiArgumentMap
                    isPythonShell evs Hvalid Hret (run Spawned) eq_refl)).
  reflexivity.
Qed.

(** A success recorded on a running subprocess: [end] is signalled, its
    callback holds the result, and until it is called nothing is
    delivered. *)
Lemma success_awaits_end (evs mid : list Event) (m : jsstring)
    (result : JsValue) :
  let r0 := runEvents Spawned evs in
  let r1 := step r0 (MessageEvent m) in
  let r2 := fold_left step mid r1 in
  promise (context r0) = Pending ->
  terminatedFlag r0 = false ->
  promise (context r1) = Fulfilled result ->
  forallb (fun ev => negb (isEndCallbackEvent ev)) mid = true ->
  endCallback r2 = Some result /\ outerCalls r2 = [] /\
  signalsOf r2 = [EndSignal].
Proof.
  intros r0 r1 r2 Hp Ht Hres Hmid.
  destruct (consistent_pending r0 (runEvents_consistent _ _ _ _ Spawned evs) Hp)
    as (Hr & Hsg & Hec & Hoc & Hl & Hi).
  destruct (onMessage_fields RegExp messageResponses uiArgumentMap m r0)
    as (Fi & Fl & Fr & Fec & Foc & Fctx).
  assert (E1 : r1 = react (onMessage m r0))
    by (subst r1; simpl; rewrite Hl; reflexivity).
  rewrite E1, react_context in Hres.
  destruct (interpreter r0) as [h|] eqn:Eh; [|congruence].
  unfold terminatedFlag in Ht. rewrite Eh in Ht.
  unfold signalsOf in Hsg. rewrite Eh in Hsg.
  assert (E1' : r1 = withEndCallback result
                      (withInterpreter (Some (signal EndSignal h))
                         (withReacted (onMessage m r0)))).
  { rewrite E1. apply react_fulfilled_running; congruence. }
  assert (S1 : signalsOf r1 = [EndSignal])
    by (rewrite E1'; unfold signalsOf; simpl; rewrite Hsg; reflexivity).
  assert (C1 : endCallback r1 = Some result) by (rewrite E1'; reflexivity).
  assert (O1 : outerCalls r1 = []) by (rewrite E1'; simpl; congruence).
  assert (R1 : reacted r1 = true) by (rewrite E1'; reflexivity).
  destruct (waiting_for_end RegExp messageResponses uiArgumentMap isPythonShell
              mid r1 R1 Hmid) as (_ & O2 & S2 & C2).
  fold r2 in O2, C2, S2. rewrite O2, S2, C2. auto.
Qed.

(** X9: a success is recorded while the subprocess has not terminated, and
    the callback of [end] then reports no error: [resolve] of the caller is
    called with the recorded result, [reject] is not, the promise of
    [runScript] is fulfilled with that result, and [end] is the only signal
    the subprocess got. *)
Theorem X9_clean_exit_delivers_the_result
    (evs mid : list Event) (m : jsstring) (result err : JsValue) :
  let r0 := runEvents Spawned evs in
  let r1 := step r0 (MessageEvent m) in
  let r2 := fold_left step mid r1 in
  let r3 := step r2 (EndCallbackEvent err) in
  promise (context r0) = Pending ->
  terminatedFlag r0 = false ->
  promise (context r1) = Fulfilled result ->
  forallb (fun ev => negb (isEndCallbackEvent ev)) mid = true ->
  truthy err = false ->
  outerCalls r3 = [OuterResolve result] /\
  runScriptPromise r3 = Fulfilled result /\
  signalsOf r3 = [EndSignal].
Proof.
  intros r0 r1 r2 r3 Hp Ht Hres Hmid Herr.
  destruct (success_awaits_end evs mid m result Hp Ht Hres Hmid)
    as (C2 & O2 & S2).
  fold r0 r1 r2 in C2, O2, S2.
  assert (O3 : outerCalls r3 = [OuterResolve result]).
  { subst r3. simpl. rewrite C2. unfold onEnd. rewrite Herr. simpl.
    rewrite O2. reflexivity. }
  split; [exact O3|]. split.
  - unfold runScriptPromise. rewrite O3. reflexivity.
  - subst r3. simpl. rewrite C2. unfold onEnd, signalsOf in *.
    rewrite Herr. exact S2.
Qed.

(** X10: a failure is recorded on a pending run, by an error event or by a
    callback's [reject], with a reason other than [undefined] and [null]:
    the subprocess is killed if its handle has not terminated, and left
    alone if it has, which is the case after its exit and in the turn of a
    [pythonError], where PythonShell sets the flag before the [catch]
    function runs; [reject] of the caller is called with the reason, once,
    and nothing else is ever delivered; the promise of [runScript] is
    rejected with it. *)
Theorem X10_failure_kills_and_rejects
    (evs rest : list Event) (ev : Event) (err : JsValue) :
  let r0 := runEvents Spawned evs in
  let r1 := step r0 ev in
  let r := fold_left step rest r1 in
  promise (context r0) = Pending ->
  promise (context r1) = Rejected err ->
  err <> JsUndefined ->
  err <> JsNull ->
  outerCalls r = [OuterReject err] /\
  runScriptPromise r = Rejected err /\
  signalsOf r =
    (if terminatedFlag r0 || isPythonErrorEvent ev then [] else [KillSignal]).
Proof.
  intros r0 r1 r Hp Hrej Hu Hn.
  destruct (outcome_recorded RegExp messageResponses uiArgumentMap isPythonShell
              r0 ev (runEvents_consistent _ _ _ _ Spawned evs) Hp)
    as (r' & h & E & Hi' & Hsg & Ht & Hre & Hec & Hoc & Hpr).
  { fold r1. rewrite Hrej. discriminate. }
  fold r1 in E, Hpr. rewrite Hrej in Hpr.
  assert (H1 : reacted r1 = true /\ endCallback r1 = None /\
               outerCalls r1 = [OuterReject err] /\
               signalsOf r1 = (if terminated h then [] else [KillSignal])).
  { rewrite E. clear E Hrej.
    destruct r' as [i l c re ec oc un]. simpl in Hi', Hre, Hec, Hoc, Hpr.
    subst i re ec oc.
    unfold react, catchReaction, onRejected, signalsOf. simpl. rewrite Hpr.
    destruct err; try congruence; simpl;
      destruct (terminated h); simpl; rewrite ?Hsg; auto. }
  destruct H1 as (R1 & C1 & O1 & S1).
  destruct (quiet_forever RegExp messageResponses uiArgumentMap isPythonShell
              rest r1 R1 C1) as (Q1 & Q2 & _).
  fold r in Q1, Q2. rewrite Q1, Q2, O1, S1, Ht.
  split; [reflexivity|]. split; [|reflexivity].
  unfold runScriptPromise. rewrite Q1, O1. reflexivity.
Qed.

(** X11: a failure is recorded on a pending run with no reason, or with
    [null] (a callback calling [reject()]): the [catch] function throws
    while it logs [err.message]. The subprocess is not killed, the caller is
    never told anything, and the promise of [runScript] stays pending,
    whatever happens afterwards. *)
Theorem X11_failure_without_reason_is_lost
    (evs rest : list Event) (ev : Event) (err : JsValue) :
  let r0 := runEvents Spawned evs in
  let r1 := step r0 ev in
  let r := fold_left step rest r1 in
  promise (context r0) = Pending ->
  promise (context r1) = Rejected err ->
  err = JsUndefined \/ err = JsNull ->
  outerCalls r = [] /\
  runScriptPromise r = Pending /\
  signalsOf r = [] /\
  In (cannotRead "message") (uncaught r1).
Proof.
  intros r0 r1 r Hp Hrej Herr.
  destruct (outcome_recorded RegExp messageResponses uiArgumentMap isPythonShell
              r0 ev (runEvents_consistent _ _ _ _ Spawned evs) Hp)
    as (r' & h & E & Hi' & Hsg & Ht & Hre & Hec & Hoc & Hpr).
  { fold r1. rewrite Hrej. discriminate. }
  fold r1 in E, Hpr. rewrite Hrej in Hpr.
  assert (H1 : reacted r1 = true /\ endCallback r1 = None /\
               outerCalls r1 = [] /\ signalsOf r1 = [] /\
               In (cannotRead "message") (uncaught r1)).
  { rewrite E. clear E Hrej.
    destruct r' as [i l c re ec oc un]. simpl in Hi', Hre, Hec, Hoc, Hpr.
    subst i re ec oc.
    unfold react, catchReaction, onRejected, signalsOf. simpl. rewrite Hpr.
    destruct Herr as [-> | ->]; simpl; rewrite ?Hsg;
      repeat split; auto; apply in_or_app; right; left; reflexivity. }
  destruct H1 as (R1 & C1 & O1 & S1 & U1).
  destruct (quiet_forever RegExp messageResponses uiArgumentMap isPythonShell
              rest r1 R1 C1) as (Q1 & Q2 & _).
  fold r in Q1, Q2. rewrite Q1, Q2, O1, S1.
  split; [reflexivity|]. split; [|split; [reflexivity | exact U1]].
  unfold runScriptPromise. rewrite Q1, O1. reflexivity.
Qed.

Lemma fold_deaf_context (evs : list Event) :
  forall r, listening r = false ->
            context (fold_left step evs r) = context r.
Proof.
  induction evs as [|ev evs IH]; intros r Hl; [reflexivity|].
  simpl fold_left. rewrite IH by (rewrite step_listening; exact Hl).
  rewrite step_context. destruct ev; rewrite ?Hl; reflexivity.
Qed.

(** X15: the executor throws while the listeners are registered on the new
    handle, with a reason other than [undefined] and [null]: the subprocess
    is killed, the reason is delivered to the caller and the promise of
    [runScript] is rejected with it; no message is ever dispatched, whatever
    the handle emits afterwards. *)
Theorem X15_wiring_error_kills_and_rejects (err : JsValue) (evs : list Event) :
  let r := runEvents (ThrowsWhileWiring err) evs in
  err <> JsUndefined ->
  err <> JsNull ->
  outerCalls r = [OuterReject err] /\
  runScriptPromise r = Rejected err /\
  signalsOf r = [KillSignal] /\
  logicMessages (context r) = [] /\
  effects (context r) = [].
Proof.
  intros r Hu Hn. subst r. unfold ScriptCommunicator.runEvents.
  set (r0 := run (ThrowsWhileWiring err)).
  assert (H0 : reacted r0 = true /\ endCallback r0 = None /\
               outerCalls r0 = [OuterReject err] /\
               signalsOf r0 = [KillSignal] /\ listening r0 = false /\
               logicMessages (context r0) = [] /\ effects (context r0) = []).
  { subst r0. unfold run, executor, react, catchReaction, onRejected, signalsOf.
    simpl. destruct err; try congruence; simpl; auto 10. }
  destruct H0 as (R0 & C0 & O0 & S0 & L0 & M0 & E0).
  destruct (quiet_forever RegExp messageResponses uiArgumentMap isPythonShell
              evs r0 R0 C0) as (Q1 & Q2 & _).
  rewrite Q1, Q2, O0, S0, (fold_deaf_context evs r0 L0), M0, E0.
  repeat split. unfold runScriptPromise. rewrite Q1, O0. reflexivity.
Qed.

(** X22: an exception of the dispatch fails nothing. When the dispatch of
    a message throws on a pending run, having called neither [resolve] nor
    [reject], the exception is left uncaught by the message listener and
    that is all: the promise stays pending, the subprocess is not
    signalled, and the caller of [run] is told nothing. *)
Theorem X22_dispatch_exception_settles_nothing
    (evs : list Event) (m : jsstring) (e : JsValue) (ctx' : RunContext) :
  let r0 := runEvents Spawned evs in
  let r1 := step r0 (MessageEvent m) in
  promise (context r0) = Pending ->
  respondToMessage m (context r0) = (Throw e, ctx') ->
  promise ctx' = Pending ->
  promise (context r1) = Pending /\
  uncaught r1 = uncaught r0 ++ [e] /\
  signalsOf r1 = [] /\
  outerCalls r1 = [] /\
  runScriptPromise r1 = Pending.
Proof.
  intros r0 r1 Hp Hr Hp'.
  destruct (consistent_pending r0 (runEvents_consistent _ _ _ _ Spawned evs) Hp)
    as (Hre & Hsg & Hec & Hoc & Hl & Hi).
  assert (E : r1 = raiseUncaught e (withContext ctx' r0)).
  { subst r1. simpl. rewrite Hl. unfold ScriptCommunicator.onMessage.
    rewrite Hr. apply react_pending_id. exact Hp'. }
  rewrite E. unfold runScriptPromise, signalsOf in *. simpl.
  rewrite Hoc. auto.
Qed.

End CommunicatorMore.

(** ** The launch paths *)

Lemma startsWith_app (pattern rest : jsstring) :
  startsWith (pattern ++ rest) pattern = true.
Proof.
  induction pattern as [|c pattern IH]; simpl;
    [destruct rest; reflexivity|].
  rewrite N.eqb_refl. exact IH.
Qed.

Lemma startsWith_prefix (s pattern : jsstring) :
  startsWith s pattern = true -> exists rest, s = pattern ++ rest.
Proof.
  revert s; induction pattern as [|c pattern IH]; intros s H.
  - exists s. reflexivity.
  - destruct s as [|x s]; simpl in H; [discriminate|].
    apply andb_true_iff in H. destruct H as [Hc H].
    apply N.eqb_eq in Hc. subst x.
    destruct (IH s H) as [rest ->]. exists rest. reflexivity.
Qed.

Lemma skipn_prefix (pattern rest : jsstring) :
  skipn (List.length pattern) (pattern ++ rest) = rest.
Proof. induction pattern; simpl; auto. Qed.

Lemma includes_here_or_later (c : N) (s pattern : jsstring) :
  includes (c :: s) pattern = startsWith (c :: s) pattern || includes s pattern.
Proof. reflexivity. Qed.

(** Without an occurrence there is nothing to replace. *)
Lemma replace_absent (s pattern replacement : jsstring) :
  includes s pattern = false -> replace s pattern replacement = s.
Proof.
  induction s as [|c s IH]; intros H.
  - simpl in H |- *. rewrite orb_false_r in H. rewrite H. reflexivity.
  - rewrite includes_here_or_later in H. apply orb_false_iff in H.
    destruct H as [H1 H2].
    change (replace (c :: s) pattern replacement)
      with (if startsWith (c :: s) pattern
            then replacement ++ skipn (List.length pattern) (c :: s)
            else c :: replace s pattern replacement).
    rewrite H1, (IH H2). reflexivity.
Qed.

(** With one, the first occurrence is replaced and nothing else. *)
Lemma replace_first (s pattern replacement : jsstring) :
  includes s pattern = true ->
  exists pre post,
    s = pre ++ pattern ++ post /\
    replace s pattern replacement = pre ++ replacement ++ post /\
    forall pre' post', s = pre' ++ pattern ++ post' ->
                       (List.length pre <= List.length pre')%nat.
Proof.
  induction s as [|c s IH]; intros H.
  - assert (H' : startsWith [] pattern = true)
      by (destruct pattern; [reflexivity | discriminate H]).
    destruct (startsWith_prefix _ _ H') as [rest E].
    destruct pattern; [|discriminate E].
    exists [], rest. simpl in E |- *. subst rest.
    split; [reflexivity|]. split; [reflexivity|]. intros; apply Nat.le_0_l.
  - change (replace (c :: s) pattern replacement)
      with (if startsWith (c :: s) pattern
            then replacement ++ skipn (List.length pattern) (c :: s)
            else c :: replace s pattern replacement).
    rewrite includes_here_or_later in H.
    destruct (startsWith (c :: s) pattern) eqn:Hs.
    + destruct (startsWith_prefix _ _ Hs) as [rest E].
      exists [], rest. split; [exact E|]. split.
      * rewrite E. rewrite skipn_prefix. reflexivity.
      * intros; apply Nat.le_0_l.
    + simpl in H. destruct (IH H) as (pre & post & E & R & Hmin).
      exists (c :: pre), post. split; [rewrite E at 1; reflexivity|]. split.
      * rewrite R. reflexivity.
      * intros pre' post' E'. destruct pre' as [|x pre'].
        -- simpl in E'. rewrite E' in Hs. rewrite startsWith_app in Hs.
           discriminate.
        -- simpl in E'. inversion E' as [[Hx E'']]. simpl.
           apply le_n_S. apply (Hmin pre' post'). exact E''.
Qed.

(** The last occurrence of a unit, or none. *)
Lemma lastIndexOf_spec (s : jsstring) (c : N) :
  (lastIndexOf s c = (-1)%Z /\ ~ In c s) \/
  (exists pre post,
     s = pre ++ c :: post /\ ~ In c post /\
     lastIndexOf s c = Z.of_nat (List.length pre)).
Proof.
  induction s as [|x s IH]; [left; simpl; tauto|].
  simpl lastIndexOf.
  destruct IH as [[Hi Hn]|(pre & post & E & Hn & Hi)].
  - rewrite Hi. simpl. destruct (N.eqb_spec x c) as [->|Hne].
    + right. exists [], s. auto.
    + left. split; [reflexivity|]. simpl. intuition congruence.
  - rewrite Hi. right. exists (x :: pre), post.
    destruct (Z.leb_spec 0 (Z.of_nat (List.length pre))) as [_|Hlt]; [|lia].
    split; [rewrite E; reflexivity|]. split; [exact Hn|].
    simpl List.length. lia.
Qed.

(** What follows the last occurrence holds the unit no more. *)
Lemma substring_after_last (s : jsstring) (c : N) :
  exists prefix,
    s = prefix ++ substring s (lastIndexOf s c + 1) /\
    ~ In c (substring s (lastIndexOf s c + 1)) /\
    (prefix = [] \/ exists p, prefix = p ++ [c]).
Proof.
  unfold substring.
  destruct (lastIndexOf_spec s c) as [[Hi Hn]|(pre & post & E & Hn & Hi)].
  - rewrite Hi. simpl. exists []. auto.
  - rewrite Hi.
    replace (Z.to_nat (Z.of_nat (List.length pre) + 1))
      with (S (List.length pre)) by lia.
    assert (K : skipn (S (List.length pre)) s = post).
    { rewrite E. clear. induction pre; simpl; auto. }
    rewrite K. exists (pre ++ [c]).
    split; [rewrite E, <- app_assoc; reflexivity|]. split; [exact Hn|].
    right. exists pre. reflexivity.
Qed.

Section PathMore.

Variable dirname : jsstring -> jsstring.
Variable win32 : bool.

Local Notation adjustPaths := (PathAdjustment.adjustPaths dirname win32).
Local Notation launchPaths := (PathAdjustment.launchPaths dirname win32).

Lemma replace_prefix (pattern rest replacement : jsstring) :
  replace (pattern ++ rest) pattern replacement = replacement ++ rest.
Proof.
  pose proof (startsWith_app pattern rest) as H.
  pose proof (skipn_prefix pattern rest) as K.
  destruct (pattern ++ rest) as [|c s];
    [destruct pattern; [|discriminate H] | ];
    simpl in *; rewrite ?H, ?K; subst; reflexivity.
Qed.

(** The test on the two prefixes adds nothing to the replacement. *)
Lemma adjusted_pythonPath (l : Launch) :
  includes (script l) [pathSep win32] = true ->
  pythonPath (adjustPaths l) = replace (pythonPath l) (parentPrefix win32) [].
Proof.
  intros Hs. unfold PathAdjustment.adjustPaths. rewrite Hs. simpl.
  destruct (includes (pythonPath l) (parentPrefix true)) eqn:H1;
    destruct (includes (pythonPath l) (parentPrefix false)) eqn:H2;
    destruct win32; simpl; try reflexivity;
    symmetry; apply replace_absent; assumption.
Qed.

(** X16: after the adjustment the script holds no path separator: it is
    what follows the last separator in the directory of the script given
    (the name of the package to run as a module). The adjustment therefore
    applies once: on its own result it changes nothing. *)
Theorem X16_script_becomes_a_bare_name (l : Launch) :
  ~ In (pathSep win32) (script (adjustPaths l)) /\
  adjustPaths (adjustPaths l) = adjustPaths l /\
  (includes (script l) [pathSep win32] = true ->
   chdirTo (adjustPaths l) = Some (dirname (dirname (script l))) /\
   exists prefix,
     dirname (script l) = prefix ++ script (adjustPaths l) /\
     (prefix = [] \/ exists p, prefix = p ++ [pathSep win32])).
Proof.
  assert (Hno : ~ In (pathSep win32) (script (adjustPaths l))).
  { unfold PathAdjustment.adjustPaths.
    destruct (includes (script l) [pathSep win32]) eqn:Hs; simpl.
    - destruct (substring_after_last (dirname (script l)) (pathSep win32))
        as (prefix & _ & Hn & _). exact Hn.
    - intros Hin. apply includes_unit_In in Hin. congruence. }
  split; [exact Hno|]. split.
  - unfold PathAdjustment.adjustPaths at 1.
    destruct (includes (script (adjustPaths l)) [pathSep win32]) eqn:Hs;
      [|reflexivity].
    apply includes_unit_In in Hs. contradiction.
  - intros Hs. unfold PathAdjustment.adjustPaths. rewrite Hs. simpl.
    split; [reflexivity|].
    destruct (substring_after_last (dirname (script l)) (pathSep win32))
      as (prefix & E & _ & Hp). exists prefix. auto.
Qed.

(** X17: for a script given as a path, the interpreter path loses the first
    occurrence of the platform's parent prefix (['../'], ['..\\'] on
    Windows) and nothing else: later occurrences stay, and a path without
    that prefix is left as it is, also when it holds the prefix of the
    other platform. *)
Theorem X17_first_parent_prefix_is_stripped (l : Launch) :
  includes (script l) [pathSep win32] = true ->
  pythonPath (adjustPaths l) =
    replace (pythonPath l) (parentPrefix win32) [] /\
  (includes (pythonPath l) (parentPrefix win32) = false ->
   pythonPath (adjustPaths l) = pythonPath l) /\
  (includes (pythonPath l) (parentPrefix win32) = true ->
   exists pre post,
     pythonPath l = pre ++ parentPrefix win32 ++ post /\
     pythonPath (adjustPaths l) = pre ++ post /\
     forall pre' post',
       pythonPath l = pre' ++ parentPrefix win32 ++ post' ->
       (List.length pre <= List.length pre')%nat).
Proof.
  intros Hs.
  pose proof (adjusted_pythonPath l Hs) as E.
  split; [exact E|]. rewrite E. split.
  - apply replace_absent.
  - intros H. destruct (replace_first _ _ [] H) as (pre & post & E1 & E2 & Hmin).
    exists pre, post. auto.
Qed.

(** X18: the interpreter options belong to the runner and every run writes
    to them: each run of a script given as a path strips one more parent
    prefix from the shared [pythonPath]. Configured with two prefixes, the
    first run launches with one left and the second with none; from then on
    the path stays. *)
Theorem X18_runs_share_the_interpreter_path (q a b c : jsstring) :
  includes a [pathSep win32] = true ->
  includes b [pathSep win32] = true ->
  includes c [pathSep win32] = true ->
  includes q (parentPrefix win32) = false ->
  launchPaths (parentPrefix win32 ++ parentPrefix win32 ++ q) [a; b; c] =
  [parentPrefix win32 ++ q; q; q].
Proof.
  intros Ha Hb Hc Hq.
  assert (Hrun : forall p s,
            includes s [pathSep win32] = true ->
            pythonPath (PathAdjustment.runScriptLaunch dirname win32 p s) =
            replace p (parentPrefix win32) []).
  { intros p s Hs. unfold PathAdjustment.runScriptLaunch.
    apply adjusted_pythonPath. exact Hs. }
  cbn [PathAdjustment.launchPaths].
  rewrite (Hrun _ a Ha), replace_prefix. cbn [app].
  rewrite (Hrun _ b Hb), replace_prefix. cbn [app].
  rewrite (Hrun _ c Hc), (replace_absent _ _ _ Hq). reflexivity.
Qed.

End PathMore.

(** ** The entry point *)

(** X19: the arguments the entry point takes off the command line. The
    script and the directory are the arguments at their positions, or
    ['__main__.py'] and ['.'] when the command line is too short. Without a
    third argument the script gets no arguments; with one, it gets its
    pieces between commas, at least one (a single empty one for an empty
    argument), none holding a comma, and joined by commas they are the
    argument given. *)
Theorem X19_entry_arguments (base : nat) (argv : list jsstring) :
  let a := entryArguments base argv in
  fst (fst a) = nth base argv (js "__main__.py") /\
  snd (fst a) = nth (base + 1) argv (js ".") /\
  ((List.length argv <= base + 2)%nat -> snd a = []) /\
  ((base + 2 < List.length argv)%nat ->
   snd a <> [] /\
   join COMMA (snd a) = nth (base + 2) argv [] /\
   forall x, In x (snd a) -> ~ In COMMA x).
Proof.
  unfold entryArguments. simpl.
  assert (Hnth : forall i d,
            (if (i <? List.length argv)%nat then nth i argv [] else d) =
            nth i argv d).
  { intros i d. destruct (Nat.ltb_spec i (List.length argv)) as [Hlt|Hge].
    - apply nth_indep. exact Hlt.
    - symmetry. apply nth_overflow. exact Hge. }
  rewrite !Hnth. split; [reflexivity|]. split; [reflexivity|]. split.
  - intros Hle. destruct (Nat.ltb_spec (base + 2) (List.length argv)); [lia|].
    reflexivity.
  - intros Hlt. destruct (Nat.ltb_spec (base + 2) (List.length argv)); [|lia].
    split; [apply split_not_nil|]. split; [apply join_split|].
    intros x Hx. exact (split_no_sep _ _ _ Hx).
Qed.

(** ** Witnesses for the properties above *)

Lemma X1_witness :
  exists handled ctx',
    ScriptResponder.handleResponse literalRegExp tableReady [] (js "READY")
      newContext = (Normal handled, ctx') /\
    handled = true.
Proof.
  destruct (X1_handleResponse_reports_a_match literalRegExp tableReady []
              (js "READY") newContext) as [H1 H2].
  destruct H2 as (handled & ctx' & Hr);
    [reflexivity | unfold returnOn; callbacks_of_table |].
  exists handled, ctx'. split; [exact Hr|]. apply (H1 handled ctx' Hr).
  exists (js "^READY$"). split; [left; reflexivity|].
  split; [vm_compute; discriminate|].
  left. eexists. split; reflexivity.
Defined.

Lemma X2_witness :
  logicMessages
    (snd (ScriptResponder.handleResponse literalRegExp tableReady []
            (js "READY")
            {| logicMessages := [js "hello"]; promise := Pending;
               effects := [] |})) = [js "hello"].
Proof.
  apply (proj1 (X2_handleResponse_leaves_history_and_default literalRegExp
                  tableReady [] (js "READY")
                  {| logicMessages := [js "hello"]; promise := Pending;
                     effects := [] |})).
  unfold readOnlyOn. callbacks_of_table.
Defined.

Lemma X3_witness :
  exists ctx',
    respondToMessage literalRegExp tableReady [] (js "done")
      {| logicMessages := [js "READY"]; promise := Pending; effects := [] |}
      = (Normal tt, ctx') /\
    effects ctx' =
      [Invoked (js "done") (js "done");
       Hooked (Resolve (JsStr (js "done")));
       Pushed (js "done")].
Proof.
  destruct (X3_dispatch_trace literalRegExp tableReady [] (js "done")
              {| logicMessages := [js "READY"]; promise := Pending;
                 effects := [] |})
    as (ctx' & Hr & HE).
  - reflexivity.
  - reflexivity.
  - vm_compute. discriminate.
  - unfold returnOn. callbacks_of_table.
  - unfold readOnlyOn. callbacks_of_table.
  - exists ctx'. split; [exact Hr|]. rewrite HE. reflexivity.
Defined.

Lemma X5_witness :
  exists ctx',
    respondToMessage literalRegExp tableDefaultOnly [] [LF; 32; LF] newContext
      = (Normal tt, ctx') /\
    invocations (effects ctx') = [(DEFAULT, [LF; 32; LF])] /\
    logicMessages ctx' = [[LF; 32; LF]].
Proof.
  destruct (X5_blank_message_is_one_message literalRegExp tableDefaultOnly []
              [LF; 32; LF] newContext eq_refl eq_refl)
    as (ctx' & Hr & HI & HL).
  - unfold returnOn. callbacks_of_table.
  - exists ctx'. split; [exact Hr|]. split; [exact HI|].
    apply HL. unfold readOnlyOn. callbacks_of_table.
Defined.

Lemma X6_witness :
  exists ctx' lines,
    respondToMessage literalRegExp tableDefaultOnly [] chunkFooBar newContext
      = (Normal tt, ctx') /\
    logicMessages ctx' = lines /\
    join LF lines = chunkFooBar /\
    List.length lines = 2%nat /\
    (forall l, In l lines -> ~ In LF l).
Proof.
  apply (X6_chunk_lines_rebuild_the_chunk literalRegExp tableDefaultOnly []
           chunkFooBar newContext eq_refl eq_refl).
  - unfold callbacksReturn, returnOn. callbacks_of_table.
  - unfold callbacksReadOnly, readOnlyOn. callbacks_of_table.
Defined.

Lemma X7_witness :
  logicMessages
    (snd (respondToMessage literalRegExp tableUnterminated [] chunkFooBar
            newContext)) = [].
Proof.
  refine (proj2 (X7_dispatch_throws_iff_invalid_key literalRegExp
                   tableUnterminated [] chunkFooBar newContext eq_refl _)
            eq_refl _).
  - unfold callbacksReturn, returnOn. callbacks_of_table.
  - unfold callbacksReadOnly, readOnlyOn. callbacks_of_table.
Defined.

Lemma X8_witness :
  invocations
    (effects
       (context
          (ScriptCommunicator.runEvents literalRegExp tableReady [] true Spawned
             [MessageEvent (js "done"); ErrorEvent boom; ProcessExit;
              MessageEvent (js "READY"); MessageEvent EXITING_MESSAGE]))) =
  [(js "done", js "done"); (js "^READY$", js "READY")].
Proof.
  apply (X8_dispatch_goes_on_after_the_outcome literalRegExp tableReady [] true
           [MessageEvent (js "done"); ErrorEvent boom; ProcessExit;
            MessageEvent (js "READY"); MessageEvent EXITING_MESSAGE] eq_refl).
  unfold callbacksReturn, returnOn. callbacks_of_table.
Defined.

Lemma X9_witness :
  let step := ScriptCommunicator.step literalRegExp tableReady [] true in
  let r0 := ScriptCommunicator.runEvents literalRegExp tableReady [] true
              Spawned [MessageEvent (js "READY")] in
  let r1 := step r0 (MessageEvent (js "done")) in
  let r2 := fold_left step [MessageEvent (js "late"); ProcessExit] r1 in
  let r3 := step r2 (EndCallbackEvent JsUndefined) in
  outerCalls r3 = [OuterResolve (JsStr (js "done"))] /\
  runScriptPromise r3 = Fulfilled (JsStr (js "done")) /\
  signalsOf r3 = [EndSignal].
Proof.
  apply (X9_clean_exit_delivers_the_result literalRegExp tableReady [] true
           [MessageEvent (js "READY")]
           [MessageEvent (js "late"); ProcessExit]
           (js "done") (JsStr (js "done")) JsUndefined);
    vm_compute; reflexivity.
Defined.

Lemma X10_witness :
  let step := ScriptCommunicator.step literalRegExp tableReady [] true in
  let r0 := ScriptCommunicator.runEvents literalRegExp tableReady [] true
              Spawned [MessageEvent (js "READY")] in
  let r1 := step r0 (ErrorEvent boom) in
  let r := fold_left step [MessageEvent (js "done"); ProcessExit] r1 in
  outerCalls r = [OuterReject boom] /\
  runScriptPromise r = Rejected boom /\
  signalsOf r =
    (if terminatedFlag r0 || isPythonErrorEvent (ErrorEvent boom)
     then [] else [KillSignal]).
Proof.
  apply (X10_failure_kills_and_rejects literalRegExp tableReady [] true
           [MessageEvent (js "READY")]
           [MessageEvent (js "done"); ProcessExit]
           (ErrorEvent boom) boom);
    try (vm_compute; reflexivity); discriminate.
Defined.

Lemma X11_witness :
  let step := ScriptCommunicator.step literalRegExp tableGiveUp [] true in
  let r0 := ScriptCommunicator.runEvents literalRegExp tableGiveUp [] true
              Spawned [MessageEvent (js "hello")] in
  let r1 := step r0 (MessageEvent (js "quit")) in
  let r := fold_left step
             [MessageEvent EXITING_MESSAGE; ProcessExit;
              EndCallbackEvent JsUndefined] r1 in
  outerCalls r = [] /\
  runScriptPromise r = Pending /\
  signalsOf r = [] /\
  In (cannotRead "message") (uncaught r1).
Proof.
  apply (X11_failure_without_reason_is_lost literalRegExp tableGiveUp [] true
           [MessageEvent (js "hello")]
           [MessageEvent EXITING_MESSAGE; ProcessExit;
            EndCallbackEvent JsUndefined]
           (MessageEvent (js "quit")) JsUndefined);
    try (vm_compute; reflexivity).
  left. reflexivity.
Defined.

Lemma X20_witness :
  exists ctx' new,
    respondToMessage literalRegExp tableExplodes [] (js "ab") newContext =
      (Throw boom, ctx') /\
    effects ctx' = effects newContext ++ new /\
    invocations new = [(js "a", js "ab")].
Proof.
  edestruct (X20_callback_exception_aborts_dispatch literalRegExp tableExplodes
               [] [] [(js "b", echo)] (js "a") explode)
    with (e := boom) (m := js "ab") (ctx := newContext)
    as (ctx' & new & Hr & HE & _ & Hinv & _).
  - reflexivity.
  - reflexivity.
  - reflexivity.
  - intros k cb h [].
  - reflexivity.
  - reflexivity.
  - reflexivity.
  - reflexivity.
  - vm_compute. discriminate.
  - exists ctx', new. split; [exact Hr|]. split; [exact HE | exact Hinv].
Defined.

Lemma X21_witness :
  exists ctx',
    respondToMessage literalRegExp tableDefaultExplodes [] (js "x") newContext =
      (Throw boom, ctx') /\
    effects ctx' = [Invoked DEFAULT (js "x")] /\
    logicMessages ctx' = [].
Proof.
  destruct (X21_default_exception_loses_the_message literalRegExp
              tableDefaultExplodes [] explode boom (js "x") newContext)
    as (ctx' & Hr & HE & HL).
  - reflexivity.
  - reflexivity.
  - reflexivity.
  - reflexivity.
  - reflexivity.
  - vm_compute. discriminate.
  - exists ctx'. split; [exact Hr|]. split; [exact HE|]. apply HL. reflexivity.
Defined.

Lemma X22_witness :
  let r0 := ScriptCommunicator.runEvents literalRegExp tableExplodes [] true
              Spawned [MessageEvent (js "hello")] in
  let r1 := ScriptCommunicator.step literalRegExp tableExplodes [] true r0
              (MessageEvent (js "ab")) in
  promise (context r1) = Pending /\
  uncaught r1 = uncaught r0 ++ [boom] /\
  signalsOf r1 = [] /\
  outerCalls r1 = [] /\
  runScriptPromise r1 = Pending.
Proof.
  eapply (X22_dispatch_exception_settles_nothing literalRegExp tableExplodes []
            true [MessageEvent (js "hello")] (js "ab") boom);
    vm_compute; reflexivity.
Defined.

Lemma X13_witness :
  let r :=
    ScriptCommunicator.runEvents literalRegExp tableReady [] true Spawned
      [MessageEvent (js "done"); EndCallbackEvent JsUndefined] in
  promise (context r) = Fulfilled (JsStr (js "done")) /\
  signalsOf r = [EndSignal].
Proof.
  exact (proj1 (X13_delivery_agrees_with_record literalRegExp tableReady []
                  true Spawned
                  [MessageEvent (js "done"); EndCallbackEvent JsUndefined])
           (JsStr (js "done")) eq_refl).
Defined.

Lemma X15_witness :
  let r :=
    ScriptCommunicator.runEvents literalRegExp tableReady [] true
      (ThrowsWhileWiring boom) [MessageEvent (js "READY"); ProcessExit] in
  outerCalls r = [OuterReject boom] /\
  runScriptPromise r = Rejected boom /\
  signalsOf r = [KillSignal] /\
  logicMessages (context r) = [] /\
  effects (context r) = [].
Proof.
  apply (X15_wiring_error_kills_and_rejects literalRegExp tableReady [] true
           boom [MessageEvent (js "READY"); ProcessExit]);
    discriminate.
Defined.

Lemma X16_witness :
  script (PathAdjustment.adjustPaths posixDirname false launchLogic) = js "main" /\
  chdirTo (PathAdjustment.adjustPaths posixDirname false launchLogic) =
    Some (js "logic") /\
  exists prefix,
    js "logic/main" =
    prefix ++ script (PathAdjustment.adjustPaths posixDirname false launchLogic).
Proof.
  destruct (proj2 (proj2 (X16_script_becomes_a_bare_name posixDirname false
                            launchLogic)) eq_refl)
    as (Hc & prefix & E & _).
  split; [reflexivity|]. split; [exact Hc|]. exists prefix. exact E.
Defined.

Lemma X17_witness :
  pythonPath (PathAdjustment.adjustPaths posixDirname false launchLogic) =
  js "../venv/bin/python".
Proof.
  exact (proj1 (X17_first_parent_prefix_is_stripped posixDirname false
                  launchLogic eq_refl)).
Defined.

Lemma X18_witness :
  PathAdjustment.launchPaths posixDirname false (js "../../venv/bin/python")
    [js "logic/main/__main__.py"; js "logic/main/__main__.py";
     js "logic/main/__main__.py"] =
  [js "../venv/bin/python"; js "venv/bin/python"; js "venv/bin/python"].
Proof.
  exact (X18_runs_share_the_interpreter_path posixDirname false
           (js "venv/bin/python") (js "logic/main/__main__.py")
           (js "logic/main/__main__.py") (js "logic/main/__main__.py")
           eq_refl eq_refl eq_refl eq_refl).
Defined.

Lemma X19_witness :
  snd (entryArguments 2
         [js "node"; js "index.js"; js "logic/main/__main__.py"; js "logic";
          js "--fast,,in.mp4"]) =
    [js "--fast"; []; js "in.mp4"] /\
  snd (entryArguments 2 [js "node"; js "index.js"; js "s.py"; js "."; []]) =
    [[]] /\
  snd (entryArguments 2 [js "node"; js "index.js"]) = [].
Proof.
  split; [reflexivity|]. split; [reflexivity|].
  apply (proj1 (proj2 (proj2 (X19_entry_arguments 2
                                [js "node"; js "index.js"])))).
  simpl. lia.
Defined.
